(** * RooAbsReal: caching, integral decomposition, batch evaluation and
      linear error propagation

    A shallow embedding of the parts of [roofit/roofitcore/src/RooAbsReal.cxx]
    that carry the value-caching protocol, the recursive decomposition of
    integrals over variables with parameterized ranges, the scalar fallback of
    the batch evaluator and the linear propagation of fit uncertainties,
    together with the log of evaluation errors, the matching of arguments by
    name, the set of variables to project, the walk over the bins of a
    histogram and the selection of components to plot.

    Conventions.  A C++ [double] is Rocq's primitive binary64 [float].  A
    variable is identified with its name, names being unique within an
    expression graph, and a [RooArgSet] is the list of its members in the
    order of insertion.  Objects that live on the heap and are shared
    between nodes are kept in a finite map from addresses (or names) to
    their state.  A function that may throw returns a sum, exceptions on
    the left. *)

From Stdlib Require Import ZArith Floats Ascii String.
From Stdlib Require Uint63.
From stdpp Require Import base option list strings pretty gmap sorting.

Set Warnings "-clear-no-such-hyp,-inexact-float,-register-all".

(** ** Name-unique ordered collections *)

Module RooArgSet.

Abbreviation t := (list string).

Definition contains (s : t) (n : string) : bool := bool_decide (n ∈ s).

(** [add]: a name that is already present is refused. *)
Definition add (s : t) (n : string) : t :=
  if contains s n then s else s ++ [n].

Definition addAll (s other : t) : t := foldl add s other.

(** [remove(const RooAbsCollection&)]: drops every listed member. *)
Definition remove (s other : t) : t := filter (λ n, n ∉ other) s.

Definition remove1 (s : t) (n : string) : t := remove s [n].

Definition overlaps (s other : t) : bool :=
  bool_decide (Exists (λ n, n ∈ s) other).

Definition empty (s : t) : bool := bool_decide (s = []).

Lemma filter_all {A} (P : A → Prop) `{∀ x, Decision (P x)} (l : list A) :
  (∀ x, x ∈ l → P x) → filter P l = l.
Proof.
  induction l as [|a l IH]; intros Hall; [done|].
  rewrite filter_cons_True by (apply Hall; left).
  f_equal. apply IH. intros x Hx. apply Hall. by right.
Qed.

Lemma filter_ext_in {A} (P Q : A → Prop) `{∀ x, Decision (P x)}
    `{∀ x, Decision (Q x)} (l : list A) :
  (∀ x, x ∈ l → (P x ↔ Q x)) → filter P l = filter Q l.
Proof.
  induction l as [|a l IH]; intros Hpq; [done|].
  assert (Hl : filter P l = filter Q l).
  { apply IH. intros x Hx. apply Hpq. by right. }
  destruct (decide (P a)) as [Hp|Hp].
  - rewrite !filter_cons_True; [by rewrite Hl| |done].
    apply (Hpq a); [left|done].
  - rewrite !filter_cons_False; [done| |done].
    intros Hq. apply Hp, (Hpq a); [left|done].
Qed.

Lemma elem_of_add s n x : x ∈ add s n ↔ x ∈ s ∨ x = n.
Proof.
  unfold add, contains. case_bool_decide.
  - split; [by left|]. by intros [?| ->].
  - rewrite elem_of_app, list_elem_of_singleton. tauto.
Qed.

Lemma elem_of_addAll other : ∀ s x, x ∈ addAll s other ↔ x ∈ s ∨ x ∈ other.
Proof.
  induction other as [|n other IH]; intros s x.
  - simpl. pose proof (not_elem_of_nil x). tauto.
  - unfold addAll in *. simpl. rewrite IH, elem_of_add, elem_of_cons. tauto.
Qed.

Lemma elem_of_remove s other x : x ∈ remove s other ↔ x ∈ s ∧ x ∉ other.
Proof. unfold remove. rewrite list_elem_of_filter. tauto. Qed.

Lemma overlaps_true s other : overlaps s other = true ↔ ∃ n, n ∈ other ∧ n ∈ s.
Proof. unfold overlaps. rewrite bool_decide_eq_true. apply Exists_exists. Qed.

Lemma remove_length_lt s other x :
  x ∈ s → x ∈ other → length (remove s other) < length s.
Proof. intros Hs Ho. apply (length_filter_lt _ _ x); [done|]. by intros Hn. Qed.

Lemma NoDup_add s n : NoDup s → NoDup (add s n).
Proof.
  intros Hnd. unfold add, contains. case_bool_decide; [done|].
  apply NoDup_app. split_and!; [done| |apply NoDup_singleton].
  intros x Hx ->%list_elem_of_singleton. done.
Qed.

Lemma NoDup_addAll other : ∀ s, NoDup s → NoDup (addAll s other).
Proof.
  induction other as [|n other IH]; intros s Hnd; [done|].
  unfold addAll in *. simpl. by apply IH, NoDup_add.
Qed.

Lemma NoDup_only (l : t) x : NoDup l → (∀ v, v ∈ l ↔ v = x) → l = [x].
Proof.
  intros Hnd Hl. apply Permutation_singleton_r.
  apply NoDup_Permutation; [done|apply NoDup_singleton|].
  intros v. by rewrite Hl, list_elem_of_singleton.
Qed.

Lemma empty_true (s : t) : empty s = true ↔ s = [].
Proof. unfold empty. apply bool_decide_eq_true. Qed.

Lemma empty_false (s : t) : empty s = false ↔ s ≠ [].
Proof. unfold empty. apply bool_decide_eq_false. Qed.

Lemma addAll_NoDup_app other : ∀ s, NoDup (s ++ other) → addAll s other = s ++ other.
Proof.
  induction other as [|n other IH]; intros s Hnd.
  - by rewrite app_nil_r.
  - unfold addAll in *. simpl.
    assert (Hn : n ∉ s).
    { apply NoDup_app in Hnd as (_ & Hdis & _). intros Hin.
      apply (Hdis n Hin). left. }
    unfold add at 2, contains. rewrite bool_decide_eq_false_2 by done.
    rewrite IH; rewrite <- app_assoc; done.
Qed.

Lemma remove_nil (s : t) : remove s [] = s.
Proof. apply filter_all. intros x _. apply not_elem_of_nil. Qed.

Lemma remove_self (s : t) : remove s s = [].
Proof.
  apply elem_of_nil_inv. intros x. rewrite elem_of_remove. tauto.
Qed.

Lemma NoDup_remove s other : NoDup s → NoDup (remove s other).
Proof. apply NoDup_filter. Qed.

(** Taking a part out of a set and putting it back gives the set, up to
    the order of the members. *)
Lemma remove_app_Permutation s other :
  NoDup s → NoDup other → (∀ x, x ∈ other → x ∈ s) →
  remove s other ++ other ≡ₚ s.
Proof.
  intros Hs Ho Hsub. apply NoDup_Permutation; [|done|].
  - apply NoDup_app. split_and!; [by apply NoDup_remove| |done].
    intros x [_ Hx]%elem_of_remove. done.
  - intros x. rewrite elem_of_app, elem_of_remove.
    destruct (decide (x ∈ other)); naive_solver.
Qed.

(** Adding names never makes the set longer than the names allow, and
    every name adds a member exactly when the names are new and distinct. *)
Lemma length_addAll other : ∀ s,
  length (addAll s other) ≤ length s + length other
  ∧ (length (addAll s other) = length s + length other
     ↔ NoDup other ∧ ∀ x, x ∈ other → x ∉ s).
Proof.
  induction other as [|n other IH]; intros s.
  - simpl. split; [lia|]. split; [|lia]. intros _. split; [constructor|].
    intros x Hx. by apply not_elem_of_nil in Hx.
  - unfold addAll in *. simpl. destruct (IH (add s n)) as [Hle Hiff].
    unfold add, contains in *. case_bool_decide as Hn.
    + split; [lia|]. split; [lia|]. intros [_ Hdis]. exfalso.
      apply (Hdis n); [left|done].
    + rewrite length_app in *. simpl in *. split; [lia|].
      rewrite NoDup_cons.
      split.
      * intros Hlen. assert (Hlen' : length (foldl
          (λ s0 n0, if bool_decide (n0 ∈ s0) then s0 else s0 ++ [n0])
          (s ++ [n]) other) = length s + 1 + length other) by lia.
        apply Hiff in Hlen' as [Hnd Hdis]. split_and!; [|done|].
        -- intros Hin. apply (Hdis n Hin). apply elem_of_app. right. left.
        -- intros x [->|Hx]%elem_of_cons; [done|].
           intros Hxs. apply (Hdis x Hx). apply elem_of_app. by left.
      * intros [[Hnn Hnd] Hdis].
        assert (Hlen' : length (foldl
          (λ s0 n0, if bool_decide (n0 ∈ s0) then s0 else s0 ++ [n0])
          (s ++ [n]) other) = length s + 1 + length other); [|lia].
        apply Hiff. split; [done|]. intros x Hx.
        rewrite elem_of_app, list_elem_of_singleton. intros [Hxs| ->].
        -- apply (Hdis x); [by right|done].
        -- done.
Qed.

End RooArgSet.

(** ** Exceptions, operating modes and the message service *)

(** The C++ exceptions that the modelled functions throw or pass on. *)
Inductive Exception :=
| invalid_argument (what : string)
| runtime_error (what : string)
| CachingError (what : string)
| other_exception (what : string).

Inductive OperMode := Auto | AClean | ADirty.

Global Instance OperMode_eq_dec : EqDecision OperMode.
Proof. solve_decision. Defined.

Module RooMsgService.

Inductive MsgLevel := DEBUG | INFO | PROGRESS | WARNING | ERROR | FATAL.

Inductive MsgTopic :=
  Integration | Caching | Eval | Tracing | Plotting | FastEvaluations.

Record Msg := { level : MsgLevel; topic : MsgTopic; text : string }.

(** The stream of messages sent so far, oldest first. *)
Abbreviation Log := (list Msg).

Definition dquote : string := String "034"%char "".

End RooMsgService.

Import RooMsgService.

(** ** Integral decomposition *)

Module Integration.

(** What [findInnerMostIntegration] reads off a [RooAbsBinning]: whether the
    range is parameterized and, for each bound function, the leaf
    variables of its expression tree. *)
Record RooAbsBinning := {
  isParameterized : bool;
  lowBoundFunc : list string;
  highBoundFunc : list string
}.

(** [RooAbsArg::getObservables(&dataList, out)] on a function given by its
    leaves: the leaves that [dataList] names. *)
Definition getObservables (leaves : list string) (dataList : RooArgSet.t)
  : RooArgSet.t :=
  RooArgSet.addAll [] (filter (λ n, n ∈ dataList) leaves).

Section Decomposition.

(** [dynamic_cast<RooAbsRealLValue*>] succeeds. *)
Variable isRealLValue : string → bool.
(** [arglv->getBinning(rangeName,false,true)]. *)
Variable getBinning : string → option string → RooAbsBinning.

(** The three lists kept by the scan: observables with fixed ranges,
    observables with ranges parameterized in integrated observables, and
    observables serving as range parameters. *)
Record Scan := {
  obsWithFixedRange : RooArgSet.t;
  obsWithParamRange : RooArgSet.t;
  obsServingAsRangeParams : RooArgSet.t
}.

Definition loBoundObs (allObs : RooArgSet.t) (rangeName : option string)
    (aarg : string) : RooArgSet.t :=
  getObservables (lowBoundFunc (getBinning aarg rangeName)) allObs.

Definition hiBoundObs (allObs : RooArgSet.t) (rangeName : option string)
    (aarg : string) : RooArgSet.t :=
  getObservables (highBoundFunc (getBinning aarg rangeName)) allObs.

(** The test guarding the body of the scan: a real-valued lvalue whose
    binning is parameterized by some integrated observable. *)
Definition rangeDependsOnObs (allObs : RooArgSet.t)
    (rangeName : option string) (aarg : string) : bool :=
  isRealLValue aarg
  && isParameterized (getBinning aarg rangeName)
  && (RooArgSet.overlaps (loBoundObs allObs rangeName aarg) allObs
      || RooArgSet.overlaps (hiBoundObs allObs rangeName aarg) allObs).

Definition scanStep (allObs : RooArgSet.t) (rangeName : option string)
    (st : Scan) (aarg : string) : Scan :=
  if isRealLValue aarg then
    let binning := getBinning aarg rangeName in
    if isParameterized binning then
      let lo := loBoundObs allObs rangeName aarg in
      let hi := hiBoundObs allObs rangeName aarg in
      if RooArgSet.overlaps lo allObs || RooArgSet.overlaps hi allObs then
        {| obsWithParamRange := RooArgSet.add (obsWithParamRange st) aarg;
           obsWithFixedRange := RooArgSet.remove1 (obsWithFixedRange st) aarg;
           obsServingAsRangeParams :=
             RooArgSet.addAll
               (RooArgSet.addAll (obsServingAsRangeParams st) lo) hi |}
      else st
    else st
  else st.

Definition scan (allObs : RooArgSet.t) (rangeName : option string) : Scan :=
  foldl (scanStep allObs rangeName)
        {| obsWithFixedRange := allObs;
           obsWithParamRange := [];
           obsServingAsRangeParams := [] |}
        allObs.

Definition findInnerMostIntegration (allObs : RooArgSet.t)
    (rangeName : option string) : RooArgSet.t :=
  let st := scan allObs rangeName in
  let obsWithFixedRangeNP :=
    RooArgSet.remove (obsWithFixedRange st) (obsServingAsRangeParams st) in
  let obsWithParamRangeNP :=
    RooArgSet.remove (obsWithParamRange st) (obsServingAsRangeParams st) in
  RooArgSet.addAll (RooArgSet.addAll [] obsWithFixedRangeNP)
                   obsWithParamRangeNP.

(** *** The objects [createIntegral] builds *)

(** What the construction reads off the function [this]: its name and
    title, the normalization range if it is a p.d.f. that has one, and the
    string attribute CACHEPARAMINT. *)
Record FuncInfo := {
  fName : string;
  fTitle : string;
  fNormRange : option string;
  fCacheParamInt : option string
}.

Inductive Obj :=
| Func (f : FuncInfo)
| RooRealIntegral (name title : string) (integrand : Obj)
    (intVars : RooArgSet.t) (nset : option RooArgSet.t) (cfg : option nat)
    (rangeName : option string) (ownsIntegrand : bool)
| RooAddition (name title : string) (ownedComponents : list Obj).

Definition GetName (o : Obj) : string :=
  match o with
  | Func f => fName f
  | RooRealIntegral n _ _ _ _ _ _ _ => n
  | RooAddition n _ _ => n
  end.

Definition GetTitle (o : Obj) : string :=
  match o with
  | Func f => fTitle f
  | RooRealIntegral _ t _ _ _ _ _ _ => t
  | RooAddition _ t _ => t
  end.

(** [dynamic_cast<const RooAbsPdf*>(this)] and [normRange()]: integral and
    addition objects are not p.d.f.s. *)
Definition normRange (o : Obj) : option string :=
  match o with
  | Func f => fNormRange f
  | _ => None
  end.

Definition getStringAttribute_CACHEPARAMINT (o : Obj) : option string :=
  match o with
  | Func f => fCacheParamInt f
  | _ => None
  end.

(** How a call ends: a returned owning pointer (possibly null), a thrown
    exception, or an operation the language leaves undefined.  [Diverged]
    stands for a loop that has not finished within its budget of
    iterations. *)
Inductive Outcome :=
| Returned (p : option Obj)
| Thrown (e : Exception)
| UndefinedBehaviour
| Diverged.

(** [strchr(rangeName, ',') != nullptr]. *)
Fixpoint hasComma (s : string) : bool :=
  match s with
  | EmptyString => false
  | String c s' => bool_decide (c = ","%char) || hasComma s'
  end.

(** Modelled from the spec: [ROOT::Split(rangeName, ",")], the list of the
    comma-separated range names, empty names kept. *)
Fixpoint splitFrom (cur s : string) : list string :=
  match s with
  | EmptyString => [cur]
  | String c s' =>
      if bool_decide (c = ","%char) then cur :: splitFrom "" s'
      else splitFrom (cur +:+ String c "") s'
  end.

Definition Split (s : string) : list string := splitFrom "" s.

(** Helpers of [RooHelpers] and of the collection classes that the
    construction only calls. *)
Variable getColonSeparatedNameString : RooArgSet.t → ascii → string.
Variable printArgSet : RooArgSet.t → string.
Variable checkIfRangesOverlap : RooArgSet.t → list string → bool.
(** [RooHelpers::selectFromArgSet] applied to the variables of the integral. *)
Variable selectCacheParams : Obj → string → RooArgSet.t.

Definition integralNameSuffix (this : Obj) (iset : RooArgSet.t)
    (nset : option RooArgSet.t) (rangeName : option string)
    (omitEmpty : bool) : string :=
  let name :=
    if negb (RooArgSet.empty iset) then
      "_Int[" +:+ getColonSeparatedNameString iset ","%char
        +:+ (match rangeName with Some r => "|" +:+ r | None => "" end)
        +:+ "]"
    else if negb omitEmpty then "_Int[]"
    else "" in
  match nset with
  | Some ns =>
      if negb (RooArgSet.empty ns) then
        name +:+ "_Norm[" +:+ getColonSeparatedNameString ns ","%char
          +:+ (match normRange this with Some nr => "|" +:+ nr | None => "" end)
          +:+ "]"
      else name
  | None => name
  end.

(** The local variables of [createIntObj] that the loop updates. *)
Record LoopState := {
  iset : RooArgSet.t;
  nsetPtr : option RooArgSet.t;
  error : bool;
  integrandPtr : Obj;
  integral : option Obj;
  log : Log
}.

Definition recursionInfo (this : Obj) : Msg :=
  {| level := INFO; topic := Integration;
     text := GetName this +:+ " : multidimensional integration over observables with parameterized ranges in terms of other integrated observables detected, using recursive integration strategy to construct final integral" |}.

(** [while(!iset.empty()) { ... }], at most [fuel] iterations.  The
    integrand is [this] exactly as long as no integral has been built. *)
Fixpoint integrationLoop (fuel : nat) (this : Obj) (cfg : option nat)
    (rangeName : option string) (st : LoopState) : option LoopState :=
  if RooArgSet.empty (iset st) then Some st
  else
    match fuel with
    | O => None
    | S fuel' =>
        let innerSet := findInnerMostIntegration (iset st) rangeName in
        if RooArgSet.empty innerSet then
          Some {| iset := iset st; nsetPtr := nsetPtr st; error := true;
                  integrandPtr := integrandPtr st; integral := integral st;
                  log := log st |}
        else
          let title := "Integral of " +:+ GetTitle (integrandPtr st) in
          let name :=
            GetName (integrandPtr st)
            +:+ integralNameSuffix (integrandPtr st) innerSet (nsetPtr st)
                                   rangeName false in
          let innerIntegral := integral st in
          let integral' :=
            RooRealIntegral name title (integrandPtr st) innerSet (nsetPtr st)
              cfg rangeName
              (match innerIntegral with Some _ => true | None => false end) in
          let iset' := RooArgSet.remove (iset st) innerSet in
          let log' :=
            if (match innerIntegral with None => true | Some _ => false end)
               && negb (RooArgSet.empty iset')
            then log st ++ [recursionInfo this] else log st in
          integrationLoop fuel' this cfg rangeName
            {| iset := iset'; nsetPtr := None; error := error st;
               integrandPtr := integral'; integral := Some integral';
               log := log' |}
    end.

Definition illDefinedError (this : Obj) : Msg :=
  {| level := ERROR; topic := Integration;
     text := GetName this +:+ " : ERROR while defining recursive integral over observables with parameterized integration ranges, please check that integration rangs specify uniquely defined integral " |}.

Definition cacheDebug (this : Obj) (cacheParams iset2 : RooArgSet.t)
    (rangeName : option string) : Msg :=
  {| level := DEBUG; topic := Caching;
     text := "RooAbsReal::createIntObj(" +:+ GetName this
             +:+ ") INFO: constructing " +:+ pretty (length cacheParams)
             +:+ "-dim value cache for integral over "
             +:+ printArgSet iset2 +:+ " as a function of "
             +:+ printArgSet cacheParams +:+ " in range "
             +:+ default "<none>" rangeName |}.

(** [createIntObj].  In the after-burner (lines 662-683) the cache node
    takes the integral over by [addOwnedComponents(std::move(integral))];
    the test [integral->operMode()==ADirty] two lines further down goes
    through the pointer so emptied, which the language leaves undefined. *)
Definition createIntObj (this : Obj) (iset2 : RooArgSet.t)
    (nset2 : option RooArgSet.t) (cfg : option nat)
    (rangeName : option string) : Outcome * Log :=
  if RooArgSet.empty iset2 then
    let title := "Integral of " +:+ GetTitle this in
    let name := GetName this
                +:+ integralNameSuffix this iset2 nset2 rangeName false in
    (Returned (Some (RooRealIntegral name title this iset2 nset2 cfg
                                     rangeName false)), [])
  else
    match integrationLoop (length iset2) this cfg rangeName
            {| iset := iset2; nsetPtr := nset2; error := false;
               integrandPtr := this; integral := None; log := [] |} with
    | None => (Diverged, [])
    | Some st =>
        if error st then (Returned None, log st ++ [illDefinedError this])
        else
          match getStringAttribute_CACHEPARAMINT this with
          | Some (String c str) =>
              match integral st with
              | None => (UndefinedBehaviour, log st)
              | Some i =>
                  let cacheParams := selectCacheParams i (String c str) in
                  if negb (RooArgSet.empty cacheParams) then
                    (UndefinedBehaviour,
                     log st ++ [cacheDebug this cacheParams iset2 rangeName])
                  else (Returned (integral st), log st)
              end
          | _ => (Returned (integral st), log st)
          end
    end.

Definition overlapError (this : Obj) (iset : RooArgSet.t)
    (rangeName : string) : string :=
  GetName this +:+ " : integrating with respect to the variables "
    +:+ printArgSet iset +:+ " on the ranges  " +:+ dquote +:+ rangeName
    +:+ dquote +:+ " is not possible because the ranges are overlapping".

(** The components of a multi-range integral, one [createIntObj] per token.
    A null component cannot be added to the owning collection. *)
Fixpoint createComponents (this : Obj) (iset : RooArgSet.t)
    (nset : option RooArgSet.t) (cfg : option nat) (tokens : list string)
    : (Outcome + list Obj) * Log :=
  match tokens with
  | [] => (inr [], [])
  | token :: rest =>
      match createIntObj this iset nset cfg (Some token) with
      | (Returned (Some c), l1) =>
          match createComponents this iset nset cfg rest with
          | (inr cs, l2) => (inr (c :: cs), l1 ++ l2)
          | (inl o, l2) => (inl o, l1 ++ l2)
          end
      | (Returned None, l1) => (inl UndefinedBehaviour, l1)
      | (o, l1) => (inl o, l1)
      end
  end.

Definition createIntegral (this : Obj) (iset : RooArgSet.t)
    (nset : option RooArgSet.t) (cfg : option nat)
    (rangeName : option string) : Outcome * Log :=
  match rangeName with
  | None => createIntObj this iset nset cfg rangeName
  | Some rn =>
      if negb (hasComma rn) then createIntObj this iset nset cfg rangeName
      else
        let tokens := Split rn in
        if checkIfRangesOverlap iset tokens then
          let errMsgString := overlapError this iset rn in
          (Thrown (invalid_argument errMsgString),
           [{| level := ERROR; topic := Integration; text := errMsgString |}])
        else
          match createComponents this iset nset cfg tokens with
          | (inr components, l) =>
              let title := "Integral of " +:+ GetTitle this in
              let fullName :=
                GetName this
                +:+ integralNameSuffix this iset nset rangeName false in
              (Returned (Some (RooAddition fullName title components)), l)
          | (inl o, l) => (o, l)
          end
  end.

(** *** The stack of integrals and the attribute CACHEPARAMINT *)

(** The integrals stacked on a function, outermost first: for each its
    integration variables, its normalization set and whether it owns its
    integrand. *)
Fixpoint chain (o : Obj) : list (RooArgSet.t * option RooArgSet.t * bool) :=
  match o with
  | RooRealIntegral _ _ integrand intVars nset _ _ ownsIntegrand =>
      (intVars, nset, ownsIntegrand) :: chain integrand
  | _ => []
  end.

Definition ignoredParameter (f : FuncInfo) (arg : string) : string :=
  "RooAbsReal::setParameterizeIntegral(" +:+ fName f
    +:+ ") function does not depend on listed parameter " +:+ arg
    +:+ ", ignoring".

(** One turn of the loop of [setParameterizeIntegral]: the list built so
    far and the warnings sent so far on the InputArguments topic.
    [dependsOnValue] is that of the function, by the name of the
    argument. *)
Definition parameterizeStep (dependsOnValue : string → bool) (f : FuncInfo)
    (acc : string * list string) (arg : string) : string * list string :=
  if negb (dependsOnValue arg)
  then (acc.1, acc.2 ++ [ignoredParameter f arg])
  else ((if negb (bool_decide (acc.1 = "")) then acc.1 +:+ ":" else acc.1)
          +:+ arg,
        acc.2).

(** Modelled from the spec: [setStringAttribute] with the key
    CACHEPARAMINT, defined in RooAbsArg.cxx; the string is stored under
    the key, an empty string included. *)
Definition setStringAttribute_CACHEPARAMINT (f : FuncInfo) (value : string)
  : FuncInfo :=
  {| fName := fName f; fTitle := fTitle f; fNormRange := fNormRange f;
     fCacheParamInt := Some value |}.

(** [setParameterizeIntegral]: the function as the call leaves it, and the
    warnings. *)
Definition setParameterizeIntegral (dependsOnValue : string → bool)
    (f : FuncInfo) (paramVars : RooArgSet.t) : FuncInfo * list string :=
  let acc := foldl (parameterizeStep dependsOnValue f) ("", []) paramVars in
  (setStringAttribute_CACHEPARAMINT f acc.1, acc.2).

(** The names with a separator between neighbours. *)
Definition joinWith (sep : string) (names : list string) : string :=
  match names with
  | [] => ""
  | n :: rest => foldl (λ acc m, (acc +:+ sep) +:+ m) n rest
  end.

(** No variable of the to-do list has a range parameterized by a variable
    of the list. *)
Definition fixedRanges (allObs : RooArgSet.t) (r : option string) : Prop :=
  ∀ v, v ∈ allObs → rangeDependsOnObs allObs r v = false.

(** *** Vocabulary of the selection rule *)

(** The leaves of both bound functions of [w]'s range. *)
Definition boundLeaves (r : option string) (w : string) : list string :=
  lowBoundFunc (getBinning w r) ++ highBoundFunc (getBinning w r).

(** [w] is a real-valued lvalue whose range is parameterized. *)
Definition hasParamRange (r : option string) (w : string) : Prop :=
  isRealLValue w ∧ isParameterized (getBinning w r).

(** [x] occurs in the bounds of some pending variable's parameterized range
    (that variable may be [x] itself). *)
Definition servesAsRangeParam (allObs : RooArgSet.t) (r : option string)
    (x : string) : Prop :=
  ∃ w, w ∈ allObs ∧ hasParamRange r w ∧ x ∈ boundLeaves r w.

(** The bounds of [x] mention a pending variable. *)
Definition boundsDependOnPending (allObs : RooArgSet.t) (r : option string)
    (x : string) : Prop :=
  ∃ z, z ∈ allObs ∧ z ∈ boundLeaves r x.

(** The selection rule as the specification words it: only other variables
    count, and a parameterized range whose bounds depend on another pending
    variable keeps its owner out of the pass. *)
Definition usedByOther (allObs : RooArgSet.t) (r : option string)
    (x : string) : Prop :=
  ∃ w, w ∈ allObs ∧ w ≠ x ∧ hasParamRange r w ∧ x ∈ boundLeaves r w.

Definition resolvable (allObs : RooArgSet.t) (r : option string)
    (x : string) : Prop :=
  hasParamRange r x ∧ ∀ z, z ∈ allObs → z ≠ x → z ∉ boundLeaves r x.

Definition specInner (allObs : RooArgSet.t) (r : option string)
    (x : string) : Prop :=
  x ∈ allObs
  ∧ (¬ hasParamRange r x ∨ resolvable allObs r x)
  ∧ ¬ usedByOther allObs r x.

(** The after-burner leaves the integral alone: the attribute CACHEPARAMINT
    is absent or empty, or it selects none of the integral's variables. *)
Definition selectsNoCacheParams (this : Obj) : Prop :=
  ∀ s i, getStringAttribute_CACHEPARAMINT this = Some s →
         selectCacheParams i s = [].

(** [rangeName] is null or holds no comma. *)
Definition singleRange (r : option string) : Prop :=
  match r with Some rn => hasComma rn = false | None => True end.

(** *** Two variables, the range of ["x"] parameterized by ["y"] *)

Definition xyLValue (v : string) : bool := true.

Definition xyBinning (v : string) (r : option string) : RooAbsBinning :=
  if decide (v = "x")
  then {| isParameterized := true;
          lowBoundFunc := ["y"]; highBoundFunc := ["y"] |}
  else {| isParameterized := false;
          lowBoundFunc := []; highBoundFunc := [] |}.

(** The range of ["y"] parameterized by ["x"] as well. *)
Definition circularBinning (v : string) (r : option string) : RooAbsBinning :=
  if decide (v = "x")
  then {| isParameterized := true;
          lowBoundFunc := ["y"]; highBoundFunc := ["y"] |}
  else {| isParameterized := true;
          lowBoundFunc := ["x"]; highBoundFunc := [] |}.

Definition joinNames (s : RooArgSet.t) (delim : ascii) : string :=
  match s with
  | [] => ""
  | n :: rest => foldl (λ acc m, acc +:+ String delim "" +:+ m) n rest
  end.

Definition f_xy : Obj :=
  Func {| fName := "f"; fTitle := "f(x,y)"; fNormRange := None;
          fCacheParamInt := None |}.

Definition printNames (s : RooArgSet.t) : string :=
  "(" +:+ joinNames s ","%char +:+ ")".

Definition noCacheParams (i : Obj) (s : string) : RooArgSet.t := [].

(** The function with a parameter ["m"], and with the cache of its
    integrals asked for as a function of ["m"]: the variables of every
    integral built on it include ["m"]. *)
Definition f_xy_cached : Obj :=
  Func {| fName := "f"; fTitle := "f(x,y)"; fNormRange := None;
          fCacheParamInt := Some "m" |}.

Definition selectM (i : Obj) (names : string) : RooArgSet.t :=
  if bool_decide (names = "m") then ["m"] else [].

Definition fullRangeOverlap (iset : RooArgSet.t) (tokens : list string)
  : bool := bool_decide (¬ NoDup tokens).

(** Ordinary ranges for every variable. *)
Definition fixedBinning (v : string) (r : option string) : RooAbsBinning :=
  {| isParameterized := false; lowBoundFunc := []; highBoundFunc := [] |}.


(** A function of the parameters ["a"] and ["b"]. *)
Definition dependsOnAB (arg : string) : bool :=
  bool_decide (arg ∈ ["a"; "b"]).

Definition dependsOnNothing (arg : string) : bool := false.

(** *** The inner subset, characterised *)

Abbreviation dependent allObs r := (λ v, Is_true (rangeDependsOnObs allObs r v)).

Lemma elem_of_getObservables leaves dataList x :
  x ∈ getObservables leaves dataList ↔ x ∈ leaves ∧ x ∈ dataList.
Proof.
  unfold getObservables.
  rewrite RooArgSet.elem_of_addAll, list_elem_of_filter.
  pose proof (not_elem_of_nil x). tauto.
Qed.

Lemma scanStep_eq allObs r st aarg :
  scanStep allObs r st aarg =
  if rangeDependsOnObs allObs r aarg then
    {| obsWithParamRange := RooArgSet.add (obsWithParamRange st) aarg;
       obsWithFixedRange := RooArgSet.remove1 (obsWithFixedRange st) aarg;
       obsServingAsRangeParams :=
         RooArgSet.addAll
           (RooArgSet.addAll (obsServingAsRangeParams st)
                             (loBoundObs allObs r aarg))
           (hiBoundObs allObs r aarg) |}
  else st.
Proof.
  unfold scanStep, rangeDependsOnObs.
  destruct (isRealLValue aarg); [|done].
  destruct (isParameterized _); [|done].
  by destruct (_ || _).
Qed.

Lemma scan_foldl allObs r l : ∀ st,
  let st' := foldl (scanStep allObs r) st l in
  obsWithFixedRange st'
    = filter (λ v, ¬ (v ∈ l ∧ dependent allObs r v)) (obsWithFixedRange st)
  ∧ obsWithParamRange st'
    = RooArgSet.addAll (obsWithParamRange st) (filter (dependent allObs r) l)
  ∧ ∀ x, x ∈ obsServingAsRangeParams st' ↔
         x ∈ obsServingAsRangeParams st
         ∨ ∃ w, w ∈ l ∧ dependent allObs r w
                ∧ (x ∈ loBoundObs allObs r w ∨ x ∈ hiBoundObs allObs r w).
Proof.
  induction l as [|a l IH]; intros st; simpl.
  - split_and!.
    + symmetry. apply RooArgSet.filter_all.
      intros v _ [Hv _]. by apply not_elem_of_nil in Hv.
    + done.
    + intros x. split; [tauto|]. intros [|(w & Hw & _)]; [done|].
      by apply not_elem_of_nil in Hw.
  - destruct (IH (scanStep allObs r st a)) as (Hf & Hp & Hs).
    rewrite Hf, Hp. clear Hf Hp.
    revert Hs. rewrite scanStep_eq.
    destruct (rangeDependsOnObs allObs r a) eqn:Hdep; simpl; intros Hs.
    + split_and!.
      * unfold RooArgSet.remove1, RooArgSet.remove.
        rewrite list_filter_filter. apply list_filter_iff. intros v.
        rewrite list_elem_of_singleton, elem_of_cons. split.
        -- intros [Hnl Hne] [[->|Hin] Hd]; [by apply Hne|]. by apply Hnl.
        -- intros Hn. split.
           ++ intros [Hin Hd]. apply Hn. split; [by right|done].
           ++ intros ->. apply Hn. split; [by left|]. by rewrite Hdep.
      * rewrite filter_cons_True by (by rewrite Hdep). done.
      * intros x. rewrite Hs, !RooArgSet.elem_of_addAll. split.
        -- intros [[[Hx|Hx]|Hx]|(w & Hw & Hd & Hx)]; [by left|..].
           ++ right. exists a. split_and!; [by left|by rewrite Hdep|by left].
           ++ right. exists a. split_and!; [by left|by rewrite Hdep|by right].
           ++ right. exists w. split_and!; [by right|done..].
        -- intros [Hx|(w & Hw & Hd & Hx)]; [by left; left; left|].
           apply elem_of_cons in Hw as [->|Hw].
           ++ left. destruct Hx; [left; by right|by right].
           ++ right. by exists w.
    + split_and!.
      * apply list_filter_iff. intros v. rewrite elem_of_cons. split.
        -- intros Hn [[->|Hin] Hd]; [by rewrite Hdep in Hd|]. by apply Hn.
        -- intros Hn [Hin Hd]. apply Hn. split; [by right|done].
      * rewrite filter_cons_False by (rewrite Hdep; simpl; tauto). done.
      * intros x. rewrite Hs. split.
        -- intros [Hx|(w & Hw & Hd & Hx)]; [by left|].
           right. exists w. split_and!; [by right|done..].
        -- intros [Hx|(w & Hw & Hd & Hx)]; [by left|].
           apply elem_of_cons in Hw as [->|Hw]; [by rewrite Hdep in Hd|].
           right. by exists w.
Qed.

Lemma dependent_iff allObs r w :
  rangeDependsOnObs allObs r w ↔
  hasParamRange r w ∧ boundsDependOnPending allObs r w.
Proof.
  unfold rangeDependsOnObs, hasParamRange, boundsDependOnPending, boundLeaves.
  rewrite !andb_True, orb_True, !Is_true_true, !RooArgSet.overlaps_true.
  unfold loBoundObs, hiBoundObs.
  setoid_rewrite elem_of_getObservables. setoid_rewrite elem_of_app.
  rewrite <- !Is_true_true. naive_solver.
Qed.

Lemma elem_of_scan_fixed_or_param allObs r x :
  x ∈ obsWithFixedRange (scan allObs r) ∨ x ∈ obsWithParamRange (scan allObs r)
  ↔ x ∈ allObs.
Proof.
  unfold scan. destruct (scan_foldl allObs r allObs
    {| obsWithFixedRange := allObs; obsWithParamRange := [];
       obsServingAsRangeParams := [] |}) as (-> & -> & _). simpl.
  rewrite RooArgSet.elem_of_addAll, !list_elem_of_filter.
  pose proof (not_elem_of_nil x).
  destruct (decide (rangeDependsOnObs allObs r x)); tauto.
Qed.

Lemma elem_of_scan_serving allObs r x :
  x ∈ obsServingAsRangeParams (scan allObs r)
  ↔ x ∈ allObs ∧ servesAsRangeParam allObs r x.
Proof.
  unfold scan. destruct (scan_foldl allObs r allObs
    {| obsWithFixedRange := allObs; obsWithParamRange := [];
       obsServingAsRangeParams := [] |}) as (_ & _ & ->). simpl.
  unfold servesAsRangeParam, loBoundObs, hiBoundObs.
  setoid_rewrite elem_of_getObservables. setoid_rewrite dependent_iff.
  unfold boundsDependOnPending, boundLeaves.
  setoid_rewrite elem_of_app. pose proof (not_elem_of_nil x). naive_solver.
Qed.

(** One pass selects the pending variables that serve in no pending
    variable's parameterized range. *)
Lemma elem_of_findInnerMostIntegration allObs r x :
  x ∈ findInnerMostIntegration allObs r
  ↔ x ∈ allObs ∧ ¬ servesAsRangeParam allObs r x.
Proof.
  unfold findInnerMostIntegration.
  rewrite !RooArgSet.elem_of_addAll, !RooArgSet.elem_of_remove.
  rewrite elem_of_scan_serving.
  pose proof (elem_of_scan_fixed_or_param allObs r x).
  pose proof (not_elem_of_nil x). tauto.
Qed.

(** C1 (as the code has it).  One pass selects exactly the pending variables
    that do not occur in the bounds of any pending variable's parameterized
    range.  In the vocabulary of the selection rule these are (a) the
    variables without a parameterized range, (b) the variables whose
    parameterized bounds mention no pending variable, and (c) the variables
    whose parameterized bounds do mention a pending variable, each kept only
    when no pending variable (itself included) uses it as a range
    parameter. *)
Theorem findInnerMostIntegration_selects allObs r x :
  (x ∈ findInnerMostIntegration allObs r
   ↔ x ∈ allObs ∧ ¬ servesAsRangeParam allObs r x)
  ∧ (x ∈ findInnerMostIntegration allObs r
     ↔ x ∈ allObs ∧ ¬ servesAsRangeParam allObs r x
       ∧ (¬ hasParamRange r x
          ∨ (hasParamRange r x ∧ ¬ boundsDependOnPending allObs r x)
          ∨ (hasParamRange r x ∧ boundsDependOnPending allObs r x))).
Proof.
  assert (Hmain : x ∈ findInnerMostIntegration allObs r
                  ↔ x ∈ allObs ∧ ¬ servesAsRangeParam allObs r x).
  { unfold findInnerMostIntegration.
    rewrite !RooArgSet.elem_of_addAll, !RooArgSet.elem_of_remove.
    rewrite elem_of_scan_serving.
    pose proof (elem_of_scan_fixed_or_param allObs r x).
    pose proof (not_elem_of_nil x). tauto. }
  split; [done|]. rewrite Hmain.
  destruct (decide (rangeDependsOnObs allObs r x)) as [Hd|Hd];
    rewrite dependent_iff in Hd.
  - tauto.
  - assert (Decision (hasParamRange r x)) as [?|?]
      by (unfold hasParamRange; apply _); tauto.
Qed.

Lemma findInnerMostIntegration_NoDup allObs r :
  NoDup (findInnerMostIntegration allObs r).
Proof.
  unfold findInnerMostIntegration. apply RooArgSet.NoDup_addAll.
  apply RooArgSet.NoDup_addAll, NoDup_nil_2.
Qed.

(** *** The loop of [createIntObj] *)

Lemma integrationLoop_done fuel this cfg r st :
  iset st = [] → integrationLoop fuel this cfg r st = Some st.
Proof.
  intros Hi. destruct fuel; simpl;
    by rewrite (proj2 (RooArgSet.empty_true _) Hi).
Qed.

Lemma integrationLoop_error fuel this cfg r st :
  iset st ≠ [] → findInnerMostIntegration (iset st) r = [] →
  integrationLoop (S fuel) this cfg r st
  = Some {| iset := iset st; nsetPtr := nsetPtr st; error := true;
            integrandPtr := integrandPtr st; integral := integral st;
            log := log st |}.
Proof.
  intros Hi Hinner. simpl.
  rewrite (proj2 (RooArgSet.empty_false _) Hi), Hinner. done.
Qed.

Lemma integrationLoop_step fuel this cfg r st :
  iset st ≠ [] → findInnerMostIntegration (iset st) r ≠ [] →
  integrationLoop (S fuel) this cfg r st
  = let innerSet := findInnerMostIntegration (iset st) r in
    let integral' :=
      RooRealIntegral
        (GetName (integrandPtr st)
         +:+ integralNameSuffix (integrandPtr st) innerSet (nsetPtr st) r false)
        ("Integral of " +:+ GetTitle (integrandPtr st))
        (integrandPtr st) innerSet (nsetPtr st) cfg r
        (match integral st with Some _ => true | None => false end) in
    let iset' := RooArgSet.remove (iset st) innerSet in
    integrationLoop fuel this cfg r
      {| iset := iset'; nsetPtr := None; error := error st;
         integrandPtr := integral'; integral := Some integral';
         log := if (match integral st with None => true | Some _ => false end)
                   && negb (RooArgSet.empty iset')
                then log st ++ [recursionInfo this] else log st |}.
Proof.
  intros Hi Hinner. simpl.
  rewrite (proj2 (RooArgSet.empty_false _) Hi).
  rewrite (proj2 (RooArgSet.empty_false _) Hinner). done.
Qed.

(** Every pass that finds a non-empty inner subset shortens the to-do list,
    so as many iterations as there are variables always suffice. *)
Lemma integrationLoop_total this cfg r : ∀ fuel st,
  length (iset st) ≤ fuel → is_Some (integrationLoop fuel this cfg r st).
Proof.
  induction fuel as [|fuel IH]; intros st Hlen.
  - rewrite integrationLoop_done; [by eexists|].
    apply length_zero_iff_nil. lia.
  - destruct (decide (iset st = [])) as [Hi|Hi].
    { rewrite integrationLoop_done; [by eexists|done]. }
    destruct (decide (findInnerMostIntegration (iset st) r = [])) as [Hn|Hn].
    { rewrite integrationLoop_error; [by eexists|done..]. }
    rewrite integrationLoop_step by done. simpl. apply IH. simpl.
    destruct (findInnerMostIntegration (iset st) r) as [|v inner] eqn:Hin;
      [done|].
    assert (Hv : v ∈ findInnerMostIntegration (iset st) r)
      by (rewrite Hin; left).
    apply elem_of_findInnerMostIntegration in Hv as [Hv _].
    assert (Hin' : v ∈ v :: inner) by left.
    pose proof (RooArgSet.remove_length_lt (iset st) (v :: inner) v Hv Hin').
    lia.
Qed.

(** X1.  [createIntObj] always comes to an end: every pass of its loop that
    finds variables to integrate takes at least one of them off [iset], so
    the loop never needs more passes than there are requested variables. *)
Theorem createIntObj_terminates this iset2 nset2 cfg r :
  (createIntObj this iset2 nset2 cfg r).1 ≠ Diverged.
Proof.
  unfold createIntObj. destruct (RooArgSet.empty iset2); [done|].
  destruct (integrationLoop_total this cfg r (length iset2)
    {| iset := iset2; nsetPtr := nset2; error := false;
       integrandPtr := this; integral := None; log := [] |}) as [st ->];
    [done|].
  destruct (error st); [done|].
  destruct (getStringAttribute_CACHEPARAMINT this) as [[|c str]|]; [done| |done].
  destruct (integral st); [|done].
  by destruct (negb _).
Qed.

Lemma createIntegral_singleRange this iset nset cfg r :
  singleRange r →
  createIntegral this iset nset cfg r = createIntObj this iset nset cfg r.
Proof.
  unfold createIntegral, singleRange. destruct r as [rn|]; [|done].
  by intros ->.
Qed.

(** C2.  A range name listing several ranges that overlap on the
    integration variables makes [createIntegral] fail: the message naming
    the function, the variables and the ranges is sent to the error stream
    and thrown as [std::invalid_argument]; no integral object is returned. *)
Theorem createIntegral_overlapping_ranges this iset nset cfg rn :
  hasComma rn = true →
  checkIfRangesOverlap iset (Split rn) = true →
  let what :=
    GetName this +:+ " : integrating with respect to the variables "
      +:+ printArgSet iset +:+ " on the ranges  " +:+ dquote +:+ rn
      +:+ dquote +:+ " is not possible because the ranges are overlapping" in
  createIntegral this iset nset cfg (Some rn)
  = (Thrown (invalid_argument what),
     [{| level := ERROR; topic := Integration; text := what |}])
  ∧ ∀ p, (createIntegral this iset nset cfg (Some rn)).1 ≠ Returned p.
Proof.
  intros Hcomma Hover what.
  assert (Heq : createIntegral this iset nset cfg (Some rn)
    = (Thrown (invalid_argument what),
       [{| level := ERROR; topic := Integration; text := what |}])).
  { unfold createIntegral. rewrite Hcomma, Hover. done. }
  split; [done|]. intros p. by rewrite Heq.
Qed.

(** *** Two variables with interdependent ranges *)

Section TwoVariables.

Variables (x y : string) (r : option string).
Hypothesis Hxy : x ≠ y.
Hypothesis Hx : hasParamRange r x.
Hypothesis Hyx : y ∈ boundLeaves r x.

Lemma y_serves allObs : x ∈ allObs → servesAsRangeParam allObs r y.
Proof. intros Hin. by exists x. Qed.

Lemma inner_xy_nested allObs :
  allObs = [x; y] ∨ allObs = [y; x] →
  x ∉ boundLeaves r x →
  isParameterized (getBinning y r) = false →
  findInnerMostIntegration allObs r = [x]
  ∧ RooArgSet.remove allObs [x] = [y]
  ∧ findInnerMostIntegration [y] r = [y].
Proof.
  intros Hall Hxx Hy.
  assert (Hny : ¬ hasParamRange r y).
  { intros [_ Hp]. rewrite Hy in Hp. done. }
  split_and!.
  - apply RooArgSet.NoDup_only; [apply findInnerMostIntegration_NoDup|].
    intros v. rewrite (elem_of_findInnerMostIntegration allObs r v).
    split.
    + intros [Hv Hns]. destruct (decide (v = x)) as [|Hne]; [done|].
      exfalso. apply Hns. assert (v = y) as ->.
      { destruct Hall as [-> | ->]; set_solver. }
      apply y_serves. destruct Hall as [-> | ->]; set_solver.
    + intros ->. split; [destruct Hall as [-> | ->]; set_solver|].
      intros (w & Hw & Hpw & Hxw).
      assert (w = x ∨ w = y) as [-> | ->]
        by (destruct Hall as [-> | ->]; set_solver); done.
  - unfold RooArgSet.remove.
    destruct Hall as [-> | ->]; rewrite !filter_cons, filter_nil;
      repeat case_decide; set_solver.
  - apply RooArgSet.NoDup_only; [apply findInnerMostIntegration_NoDup|].
    intros v. rewrite (elem_of_findInnerMostIntegration [y] r v).
    rewrite list_elem_of_singleton. split; [tauto|].
    intros ->. split; [done|].
    intros (w & ->%list_elem_of_singleton & Hpw & _). done.
Qed.

Lemma inner_xy_circular allObs :
  allObs = [x; y] ∨ allObs = [y; x] →
  hasParamRange r y → x ∈ boundLeaves r y →
  findInnerMostIntegration allObs r = [].
Proof.
  intros Hall Hy Hxy'. apply elem_of_nil_inv. intros v.
  rewrite (elem_of_findInnerMostIntegration allObs r v).
  intros [Hv Hns]. apply Hns.
  assert (v = x ∨ v = y) as [-> | ->]
    by (destruct Hall as [-> | ->]; set_solver).
  - exists y. split_and!; [destruct Hall as [-> | ->]; set_solver|done..].
  - apply y_serves. destruct Hall as [-> | ->]; set_solver.
Qed.

End TwoVariables.

(** Let the range of [x] be parameterized by [y].  If the range of [y] is
    fixed and the after-burner leaves the integral alone,
    [createIntegral] over the two variables and a single range returns the
    integral over [y] of the integral over [x]: the inner integral gets
    the caller's normalization set, the outer one none and owns the inner
    one.  If the range of [y] is in turn parameterized by [x], the first
    pass finds no inner subset and a null pointer is returned after the
    error message. *)
Theorem createIntegral_recursive_ranges this x y nset cfg r allObs :
  x ≠ y → allObs = [x; y] ∨ allObs = [y; x] → singleRange r →
  hasParamRange r x → y ∈ boundLeaves r x →
  (x ∉ boundLeaves r x → isParameterized (getBinning y r) = false →
   selectsNoCacheParams this →
   let inner :=
     RooRealIntegral
       (GetName this +:+ integralNameSuffix this [x] nset r false)
       ("Integral of " +:+ GetTitle this) this [x] nset cfg r false in
   createIntegral this allObs nset cfg r
   = (Returned (Some
        (RooRealIntegral
           (GetName inner +:+ integralNameSuffix inner [y] None r false)
           ("Integral of " +:+ GetTitle inner) inner [y] None cfg r true)),
      [recursionInfo this]))
  ∧ (hasParamRange r y → x ∈ boundLeaves r y →
     createIntegral this allObs nset cfg r
     = (Returned None, [illDefinedError this])).
Proof.
  intros Hxy Hall Hsingle Hx Hyx.
  assert (Hne : allObs ≠ []) by (by destruct Hall as [-> | ->]).
  assert (Hlen : length allObs = 2) by (by destruct Hall as [-> | ->]).
  rewrite createIntegral_singleRange by done.
  unfold createIntObj.
  rewrite (proj2 (RooArgSet.empty_false _) Hne), Hlen.
  split.
  - intros Hxx Hy Hcache. cbv zeta.
    destruct (inner_xy_nested x y r Hxy Hx Hyx allObs Hall Hxx Hy)
      as (Hin1 & Hrem & Hin2).
    rewrite integrationLoop_step by (simpl; by rewrite ?Hin1).
    cbv zeta. cbn [iset nsetPtr error integrandPtr integral log].
    rewrite Hin1, Hrem.
    rewrite integrationLoop_step by (simpl; by rewrite ?Hin2).
    cbv zeta. cbn [iset nsetPtr error integrandPtr integral log].
    rewrite Hin2.
    assert (Hrem2 : RooArgSet.remove [y] [y] = []).
    { unfold RooArgSet.remove. rewrite filter_cons, filter_nil.
      case_decide; set_solver. }
    rewrite Hrem2, integrationLoop_done by done.
    cbn [iset nsetPtr error integrandPtr integral log]. simpl.
    destruct (getStringAttribute_CACHEPARAMINT this) as [[|c str]|] eqn:Hattr;
      [done| |done].
    rewrite (Hcache _ _ Hattr). done.
  - intros Hy Hxy'.
    rewrite integrationLoop_error;
      [done|done|by apply (inner_xy_circular x y r)].
Qed.

(** The after-burner with a cache to build.  Whenever the loop has built
    an integral and the attribute CACHEPARAMINT selects one of its
    variables, the debug message is sent and the call then reads
    [integral->operMode()] through the pointer that
    [addOwnedComponents(std::move(integral))] has emptied. *)
Lemma createIntObj_use_after_move this iset2 nset2 cfg r st i c str :
  iset2 ≠ [] →
  integrationLoop (length iset2) this cfg r
    {| iset := iset2; nsetPtr := nset2; error := false;
       integrandPtr := this; integral := None; log := [] |} = Some st →
  error st = false → integral st = Some i →
  getStringAttribute_CACHEPARAMINT this = Some (String c str) →
  selectCacheParams i (String c str) ≠ [] →
  createIntObj this iset2 nset2 cfg r
  = (UndefinedBehaviour,
     log st ++ [cacheDebug this (selectCacheParams i (String c str))
                           iset2 r]).
Proof.
  intros Hne Hloop Herr Hint Hattr Hsel. unfold createIntObj.
  rewrite (proj2 (RooArgSet.empty_false _) Hne), Hloop, Herr, Hattr, Hint.
  by rewrite (proj2 (RooArgSet.empty_false _) Hsel).
Qed.

(** The two variables with a cache asked for: the two passes build the
    nested integral as before, and the after-burner then goes through
    the emptied pointer. *)
Lemma createIntegral_recursive_ranges_cache this x y nset cfg r allObs c str :
  x ≠ y → allObs = [x; y] ∨ allObs = [y; x] → singleRange r →
  hasParamRange r x → y ∈ boundLeaves r x →
  x ∉ boundLeaves r x → isParameterized (getBinning y r) = false →
  getStringAttribute_CACHEPARAMINT this = Some (String c str) →
  let inner :=
    RooRealIntegral
      (GetName this +:+ integralNameSuffix this [x] nset r false)
      ("Integral of " +:+ GetTitle this) this [x] nset cfg r false in
  let outer :=
    RooRealIntegral
      (GetName inner +:+ integralNameSuffix inner [y] None r false)
      ("Integral of " +:+ GetTitle inner) inner [y] None cfg r true in
  selectCacheParams outer (String c str) ≠ [] →
  createIntegral this allObs nset cfg r
  = (UndefinedBehaviour,
     [recursionInfo this;
      cacheDebug this (selectCacheParams outer (String c str)) allObs r]).
Proof.
  intros Hxy Hall Hsingle Hx Hyx Hxx Hy Hattr inner outer Hsel.
  assert (Hne : allObs ≠ []) by (by destruct Hall as [-> | ->]).
  assert (Hlen : length allObs = 2) by (by destruct Hall as [-> | ->]).
  rewrite createIntegral_singleRange by done.
  destruct (inner_xy_nested x y r Hxy Hx Hyx allObs Hall Hxx Hy)
    as (Hin1 & Hrem & Hin2).
  assert (Hrem2 : RooArgSet.remove [y] [y] = [])
    by apply RooArgSet.remove_self.
  rewrite (createIntObj_use_after_move this allObs nset cfg r
             {| iset := []; nsetPtr := None; error := false;
                integrandPtr := outer; integral := Some outer;
                log := [recursionInfo this] |} outer c str); try done.
  rewrite Hlen.
  rewrite integrationLoop_step by (simpl; by rewrite ?Hin1).
  cbv zeta. cbn [iset nsetPtr error integrandPtr integral log].
  rewrite Hin1, Hrem.
  rewrite integrationLoop_step by (simpl; by rewrite ?Hin2).
  cbv zeta. cbn [iset nsetPtr error integrandPtr integral log].
  rewrite Hin2, Hrem2, integrationLoop_done by done.
  done.
Qed.

(** *** Ordinary ranges, and the shape of every stack *)

Lemma findInnerMostIntegration_fixed allObs r :
  NoDup allObs → fixedRanges allObs r →
  findInnerMostIntegration allObs r = allObs.
Proof.
  intros Hnd Hfix. unfold findInnerMostIntegration, scan.
  destruct (scan_foldl allObs r allObs
    {| obsWithFixedRange := allObs; obsWithParamRange := [];
       obsServingAsRangeParams := [] |}) as (Hf & Hp & Hs).
  simpl in Hf, Hp, Hs.
  assert (Hnone : filter (dependent allObs r) allObs = []).
  { apply elem_of_nil_inv. intros v [Hd Hv]%list_elem_of_filter.
    by rewrite (Hfix v Hv) in Hd. }
  assert (Hserv : obsServingAsRangeParams
                    (foldl (scanStep allObs r)
                       {| obsWithFixedRange := allObs; obsWithParamRange := [];
                          obsServingAsRangeParams := [] |} allObs) = []).
  { apply elem_of_nil_inv. intros x Hx.
    apply Hs in Hx as [Hx|(w & Hw & Hd & _)].
    - by apply not_elem_of_nil in Hx.
    - by rewrite (Hfix w Hw) in Hd. }
  rewrite Hf, Hp, Hserv, Hnone. simpl.
  rewrite !RooArgSet.remove_nil.
  rewrite RooArgSet.filter_all.
  - change (RooArgSet.addAll (RooArgSet.addAll [] allObs) [] = allObs).
    simpl. by rewrite RooArgSet.addAll_NoDup_app.
  - intros v Hv [_ Hd]. by rewrite (Hfix v Hv) in Hd.
Qed.

(** X2.  When no range of a requested variable is parameterized by another
    requested variable and no cache is asked for, [createIntObj] builds one
    integral over all the variables, with the caller's normalization set,
    and sends no message; the empty set of variables is no exception. *)
Theorem createIntObj_fixed_ranges this iset2 nset2 cfg r :
  NoDup iset2 → fixedRanges iset2 r → selectsNoCacheParams this →
  createIntObj this iset2 nset2 cfg r
  = (Returned (Some (RooRealIntegral
       (GetName this +:+ integralNameSuffix this iset2 nset2 r false)
       ("Integral of " +:+ GetTitle this) this iset2 nset2 cfg r false)), []).
Proof.
  intros Hnd Hfix Hcache. unfold createIntObj.
  destruct (decide (iset2 = [])) as [->|Hne].
  { done. }
  rewrite (proj2 (RooArgSet.empty_false _) Hne).
  destruct iset2 as [|v rest] eqn:Hi; [done|]. rewrite <- Hi in *.
  assert (Hlen : length iset2 = S (length rest)) by (by rewrite Hi).
  rewrite Hlen.
  rewrite integrationLoop_step
    by (simpl; by rewrite ?findInnerMostIntegration_fixed).
  cbv zeta. cbn [iset nsetPtr error integrandPtr integral log].
  rewrite findInnerMostIntegration_fixed by done.
  rewrite RooArgSet.remove_self, integrationLoop_done by done.
  cbn [iset nsetPtr error integrandPtr integral log]. simpl.
  destruct (getStringAttribute_CACHEPARAMINT this) as [[|c str]|] eqn:Hattr;
    [done| |done].
  by rewrite (Hcache _ _ Hattr).
Qed.

(** The passes after the first: each stacks a non-empty integral without
    normalization set that owns its integrand. *)
Lemma integrationLoop_outer this cfg r : ∀ fuel st st',
  integrationLoop fuel this cfg r st = Some st' →
  error st' = false → NoDup (iset st) →
  nsetPtr st = None → integral st = Some (integrandPtr st) →
  ∃ outer,
    chain (integrandPtr st') = outer ++ chain (integrandPtr st)
    ∧ concat (outer.*1.*1) ≡ₚ iset st
    ∧ Forall (λ layer, layer.1.1 ≠ [] ∧ layer.1.2 = None ∧ layer.2 = true)
             outer
    ∧ integral st' = Some (integrandPtr st').
Proof.
  induction fuel as [|fuel IH]; intros st st' Hloop Herr Hnd Hnset Hint.
  - destruct (decide (iset st = [])) as [Hi|Hi].
    + rewrite integrationLoop_done in Hloop by done. injection Hloop as <-.
      exists []. rewrite Hi. by split_and!.
    + simpl in Hloop. by rewrite (proj2 (RooArgSet.empty_false _) Hi) in Hloop.
  - destruct (decide (iset st = [])) as [Hi|Hi].
    { rewrite integrationLoop_done in Hloop by done. injection Hloop as <-.
      exists []. rewrite Hi. by split_and!. }
    destruct (decide (findInnerMostIntegration (iset st) r = [])) as [Hn|Hn].
    { rewrite integrationLoop_error in Hloop by done.
      injection Hloop as <-. done. }
    rewrite integrationLoop_step in Hloop by done. cbv zeta in Hloop.
    apply IH in Hloop as (outer & Hchain & Hperm & Hall & Hint'); try done.
    + cbn [iset nsetPtr error integrandPtr integral log] in *.
      rewrite Hint, Hnset in Hchain. simpl in Hchain.
      exists (outer ++ [(findInnerMostIntegration (iset st) r, None, true)]).
      split_and!.
      * by rewrite <- app_assoc.
      * rewrite !fmap_app, concat_app. simpl. rewrite app_nil_r, Hperm.
        apply RooArgSet.remove_app_Permutation;
          [done|apply findInnerMostIntegration_NoDup|].
        intros x Hx. by apply elem_of_findInnerMostIntegration in Hx as [Hx _].
      * apply Forall_app. split; [done|]. by repeat constructor.
      * done.
    + simpl. by apply RooArgSet.NoDup_remove.
Qed.

(** X3.  Whenever [createIntObj] returns an integral, the integrals it has
    stacked on the function integrate over the requested variables, each
    variable in exactly one of them; the innermost integral alone carries
    the caller's normalization set and does not own its integrand, every
    integral above it is non-empty, has no normalization set and owns the
    integral below. *)
Theorem createIntObj_chain this iset2 nset2 cfg r i l :
  NoDup iset2 →
  createIntObj this iset2 nset2 cfg r = (Returned (Some i), l) →
  ∃ outer inner,
    chain i = outer ++ (inner, nset2, false) :: chain this
    ∧ concat (outer.*1.*1) ++ inner ≡ₚ iset2
    ∧ Forall (λ layer, layer.1.1 ≠ [] ∧ layer.1.2 = None ∧ layer.2 = true)
             outer.
Proof.
  intros Hnd. unfold createIntObj.
  destruct (decide (iset2 = [])) as [->|Hne].
  { simpl. intros [= <- _]. exists [], []. by split_and!. }
  rewrite (proj2 (RooArgSet.empty_false _) Hne).
  destruct iset2 as [|v rest] eqn:Hi; [done|]. rewrite <- Hi in *.
  assert (Hlen : length iset2 = S (length rest)) by (by rewrite Hi).
  rewrite Hlen.
  destruct (decide (findInnerMostIntegration iset2 r = [])) as [Hn|Hn].
  { rewrite integrationLoop_error by done. simpl. done. }
  rewrite integrationLoop_step by done. cbv zeta.
  cbn [iset nsetPtr error integrandPtr integral log].
  destruct (integrationLoop _ _ _ _ _) as [st'|] eqn:Hloop; [|done].
  destruct (error st') eqn:Herr; [done|].
  intros Hret.
  assert (Hi' : integral st' = Some i).
  { destruct (getStringAttribute_CACHEPARAMINT this) as [[|c str]|];
      [by injection Hret| |by injection Hret].
    destruct (integral st'); [|done].
    destruct (negb (RooArgSet.empty (selectCacheParams _ _))); [done|].
    by injection Hret as -> _. }
  apply integrationLoop_outer in Hloop as (outer & Hchain & Hperm & Hall & Hint);
    [|done|by apply RooArgSet.NoDup_remove|done..].
  cbn [iset nsetPtr error integrandPtr integral log] in *.
  assert (Hii : integrandPtr st' = i) by congruence. rewrite Hii in Hchain.
  exists outer, (findInnerMostIntegration iset2 r). split_and!; [done| |done].
  rewrite Hperm. apply RooArgSet.remove_app_Permutation;
    [done|apply findInnerMostIntegration_NoDup|].
  intros x Hx. by apply elem_of_findInnerMostIntegration in Hx as [Hx _].
Qed.

(** *** Several ranges *)







(** *** Asking for a cache *)

(** X6.  When the function depends on none of the listed parameters,
    [setParameterizeIntegral] stores the empty string, and [createIntObj]
    on the function so marked skips the after-burner whatever the
    integral's variables are: it returns the integral its loop has built
    and sends the messages of the loop only, or, for an ill-defined
    request, the null pointer after the error message. *)
Theorem setParameterizeIntegral_no_dependents dependsOnValue f paramVars
    iset2 nset2 cfg r :
  (∀ p, p ∈ paramVars → dependsOnValue p = false) →
  let f' := (setParameterizeIntegral dependsOnValue f paramVars).1 in
  fCacheParamInt f' = Some ""
  ∧ (iset2 ≠ [] →
     ∃ st,
       integrationLoop (length iset2) (Func f') cfg r
         {| iset := iset2; nsetPtr := nset2; error := false;
            integrandPtr := Func f'; integral := None; log := [] |} = Some st
       ∧ createIntObj (Func f') iset2 nset2 cfg r
         = if error st
           then (Returned None, log st ++ [illDefinedError (Func f')])
           else (Returned (integral st), log st)).
Proof.
  intros Hnone.
  assert (Hacc : ∀ names acc, (∀ p, p ∈ names → dependsOnValue p = false) →
            (foldl (parameterizeStep dependsOnValue f) acc names).1 = acc.1).
  { induction names as [|n names IH]; intros acc Hn; [done|]. simpl.
    rewrite IH by (intros q Hq; apply Hn; by right).
    unfold parameterizeStep. by rewrite (Hn n) by left. }
  assert (Hattr : fCacheParamInt
            (setParameterizeIntegral dependsOnValue f paramVars).1 = Some "").
  { unfold setParameterizeIntegral. simpl. by rewrite Hacc. }
  split; [done|]. intros Hne. unfold createIntObj.
  rewrite (proj2 (RooArgSet.empty_false _) Hne).
  destruct (integrationLoop_total
    (Func (setParameterizeIntegral dependsOnValue f paramVars).1) cfg r
    (length iset2)
    {| iset := iset2; nsetPtr := nset2; error := false;
       integrandPtr := Func (setParameterizeIntegral dependsOnValue f paramVars).1;
       integral := None; log := [] |}) as [st Hst]; [done|].
  exists st. split; [done|]. rewrite Hst.
  destruct (error st); [done|].
  cbn [getStringAttribute_CACHEPARAMINT]. by rewrite Hattr.
Qed.

End Decomposition.

(** *** The list of cached parameters *)

Lemma parameterize_fold dependsOnValue f names : ∀ acc,
  let deps := filter (λ a, dependsOnValue a = true) names in
  let out := foldl (parameterizeStep dependsOnValue f) acc names in
  out.2 = acc.2 ++ (ignoredParameter f
                      <$> filter (λ a, dependsOnValue a ≠ true) names)
  ∧ ("" ∉ names →
     out.1 = if bool_decide (acc.1 = "") then joinWith ":" deps
             else foldl (λ p m, (p +:+ ":") +:+ m) acc.1 deps).
Proof.
  induction names as [|n names IH]; intros [p w]; simpl.
  - rewrite app_nil_r. split; [done|]. intros _.
    case_bool_decide as Hp0; [by rewrite Hp0|done].
  - unfold parameterizeStep at 2 4. simpl.
    destruct (dependsOnValue n) eqn:Hdep; simpl.
    + rewrite (filter_cons_True (λ a, dependsOnValue a = true)) by done.
      rewrite (filter_cons_False (λ a, dependsOnValue a ≠ true))
        by (cbv beta; rewrite Hdep; naive_solver).
      destruct (IH ((if negb (bool_decide (p = "")) then p +:+ ":" else p)
                      +:+ n, w)) as [Hw Hp].
      simpl in Hw, Hp. split; [done|].
      intros Hne. rewrite Hp by (intros Hin; apply Hne; by right).
      assert (Hn : n ≠ "") by (intros ->; apply Hne; left).
      case_bool_decide as Hp0; simpl.
      * subst p. simpl. rewrite bool_decide_eq_false_2 by done. done.
      * rewrite bool_decide_eq_false_2; [done|]. by destruct p.
    + rewrite (filter_cons_False (λ a, dependsOnValue a = true))
        by (cbv beta; rewrite Hdep; naive_solver).
      rewrite (filter_cons_True (λ a, dependsOnValue a ≠ true))
        by (cbv beta; rewrite Hdep; naive_solver).
      destruct (IH (p, w ++ [ignoredParameter f n])) as [Hw Hp].
      simpl in Hw, Hp. split.
      * rewrite Hw, <- app_assoc. done.
      * intros Hne. apply Hp. intros Hin. apply Hne. by right.
Qed.

(** X5.  [setParameterizeIntegral] leaves name, title and normalization
    range alone, warns once for every listed parameter the function does
    not depend on, in the order of the list, and for non-empty names
    stores the names of the others under CACHEPARAMINT, in the order of the
    list and separated by colons. *)
Theorem setParameterizeIntegral_attribute dependsOnValue f paramVars :
  "" ∉ paramVars →
  let out := setParameterizeIntegral dependsOnValue f paramVars in
  fCacheParamInt out.1
  = Some (joinWith ":" (filter (λ a, dependsOnValue a = true) paramVars))
  ∧ out.2 = ignoredParameter f
              <$> filter (λ a, dependsOnValue a ≠ true) paramVars
  ∧ fName out.1 = fName f ∧ fTitle out.1 = fTitle f
  ∧ fNormRange out.1 = fNormRange f.
Proof.
  intros Hne. unfold setParameterizeIntegral. simpl.
  destruct (parameterize_fold dependsOnValue f paramVars ("", [])) as [Hw Hp].
  simpl in Hw, Hp. rewrite Hw, (Hp Hne). done.
Qed.

(** *** The two variables, evaluated *)

Example findInnerMostIntegration_xy :
  findInnerMostIntegration xyLValue xyBinning ["x"; "y"] None = ["x"]
  ∧ findInnerMostIntegration xyLValue xyBinning ["y"] None = ["y"].
Proof. split; vm_compute; reflexivity. Qed.

(** C1 (as the specification words it) fails: ["x"], whose bounds depend on
    the pending ["y"], is selected by the pass, while the worded rule keeps
    it out. *)
Lemma findInnerMostIntegration_not_specInner :
  ¬ (∀ v, v ∈ findInnerMostIntegration xyLValue xyBinning ["x"; "y"] None
          ↔ specInner xyLValue xyBinning ["x"; "y"] None v).
Proof.
  intros Hall. destruct (Hall "x") as [Hx _].
  destruct Hx as (_ & [Hfix|[_ Hres]] & _).
  - vm_compute. left.
  - apply Hfix. split; vm_compute; exact I.
  - apply (Hres "y"); [by right; left|done|]. vm_compute. left.
Qed.

(** C3 (the code at a failing input).  The range of ["x"] is parameterized
    by ["y"], whose range is fixed.  For the plain function
    [createIntegral] over the two variables returns the integral over
    ["y"] of the integral over ["x"], and with circular ranges the null
    pointer.  For the same function with the cache of its integrals asked
    for as a function of its parameter ["m"], the two passes build the
    same nested integral, but the call does not return it: the
    after-burner hands the integral to the cache node by [std::move] and
    then calls [operMode()] through the emptied pointer. *)
Theorem createIntegral_recursive_ranges_cached :
  createIntegral xyLValue xyBinning joinNames printNames fullRangeOverlap
    selectM f_xy ["x"; "y"] None None None
  = (Returned (Some
       (RooRealIntegral "f_Int[x]_Int[y]" "Integral of Integral of f(x,y)"
          (RooRealIntegral "f_Int[x]" "Integral of f(x,y)" f_xy
             ["x"] None None None false)
          ["y"] None None None true)),
     [recursionInfo f_xy])
  ∧ createIntegral xyLValue circularBinning joinNames printNames
      fullRangeOverlap selectM f_xy_cached ["x"; "y"] None None None
    = (Returned None, [illDefinedError f_xy_cached])
  ∧ createIntegral xyLValue xyBinning joinNames printNames fullRangeOverlap
      selectM f_xy_cached ["x"; "y"] None None None
    = (UndefinedBehaviour,
       [recursionInfo f_xy_cached;
        cacheDebug printNames f_xy_cached ["m"] ["x"; "y"] None]).
Proof. split_and!; vm_compute; reflexivity. Qed.

Lemma createIntegral_overlapping_ranges_witness :
  hasComma "full,full" = true
  ∧ fullRangeOverlap ["x"; "y"] (Split "full,full") = true
  ∧ (createIntegral xyLValue xyBinning joinNames printNames fullRangeOverlap
       noCacheParams f_xy ["x"; "y"] None None (Some "full,full")).1
    = Thrown (invalid_argument
                (overlapError printNames f_xy ["x"; "y"] "full,full")).
Proof.
  split_and!; [reflexivity|reflexivity|].
  pose proof (createIntegral_overlapping_ranges xyLValue xyBinning joinNames
    printNames fullRangeOverlap noCacheParams f_xy ["x"; "y"] None None
    "full,full" eq_refl eq_refl) as [Heq _].
  rewrite Heq. reflexivity.
Defined.

Lemma createIntegral_recursive_ranges_witness :
  createIntegral xyLValue xyBinning joinNames printNames fullRangeOverlap
    noCacheParams f_xy ["x"; "y"] (Some ["x"; "y"]) None None
  = (Returned (Some
       (RooRealIntegral "f_Int[x]_Norm[x,y]_Int[y]" "Integral of Integral of f(x,y)"
          (RooRealIntegral "f_Int[x]_Norm[x,y]" "Integral of f(x,y)" f_xy
             ["x"] (Some ["x"; "y"]) None None false)
          ["y"] None None None true)),
     [recursionInfo f_xy])
  ∧ createIntegral xyLValue circularBinning joinNames printNames
      fullRangeOverlap noCacheParams f_xy ["x"; "y"] None None None
    = (Returned None, [illDefinedError f_xy]).
Proof.
  split.
  - refine (proj1 (createIntegral_recursive_ranges xyLValue xyBinning
      joinNames printNames fullRangeOverlap noCacheParams f_xy "x" "y" (Some ["x"; "y"]) None None
      ["x"; "y"] _ _ _ _ _) _ _ _).
    + done.
    + by left.
    + exact I.
    + split; vm_compute; exact I.
    + vm_compute. left.
    + apply (bool_decide_unpack _). vm_compute. exact I.
    + reflexivity.
    + intros s i. done.
  - refine (proj2 (createIntegral_recursive_ranges xyLValue circularBinning
      joinNames printNames fullRangeOverlap noCacheParams f_xy "x" "y" None None None
      ["x"; "y"] _ _ _ _ _) _ _).
    + done.
    + by left.
    + exact I.
    + split; vm_compute; exact I.
    + vm_compute. left.
    + split; vm_compute; exact I.
    + vm_compute. left.
Defined.

Lemma createIntObj_fixed_ranges_witness :
  createIntObj xyLValue fixedBinning joinNames printNames noCacheParams f_xy
    ["x"; "y"] (Some ["x"; "y"]) None None
  = (Returned (Some (RooRealIntegral "f_Int[x,y]_Norm[x,y]"
                       "Integral of f(x,y)" f_xy ["x"; "y"]
                       (Some ["x"; "y"]) None None false)), []).
Proof.
  apply (createIntObj_fixed_ranges xyLValue fixedBinning joinNames printNames
           fullRangeOverlap noCacheParams f_xy ["x"; "y"] (Some ["x"; "y"]) None None).
  - apply (bool_decide_unpack _). vm_compute. exact I.
  - intros v _. reflexivity.
  - intros s i _. reflexivity.
Defined.

Lemma createIntObj_chain_witness :
  ∃ outer inner,
    chain (RooRealIntegral "f_Int[x]_Norm[x,y]_Int[y]"
             "Integral of Integral of f(x,y)"
             (RooRealIntegral "f_Int[x]_Norm[x,y]" "Integral of f(x,y)" f_xy
                ["x"] (Some ["x"; "y"]) None None false)
             ["y"] None None None true)
    = outer ++ (inner, Some ["x"; "y"], false) :: chain f_xy
    ∧ concat (outer.*1.*1) ++ inner ≡ₚ ["x"; "y"]
    ∧ Forall (λ layer, layer.1.1 ≠ [] ∧ layer.1.2 = None ∧ layer.2 = true)
             outer.
Proof.
  apply (createIntObj_chain xyLValue xyBinning joinNames printNames
           fullRangeOverlap noCacheParams f_xy ["x"; "y"] (Some ["x"; "y"]) None None _
           [recursionInfo f_xy]).
  - apply (bool_decide_unpack _). vm_compute. exact I.
  - vm_compute. reflexivity.
Defined.


Lemma setParameterizeIntegral_attribute_witness :
  let out := setParameterizeIntegral dependsOnAB
               {| fName := "f"; fTitle := "f(x,y)"; fNormRange := None;
                  fCacheParamInt := None |} ["a"; "x"; "b"] in
  fCacheParamInt out.1 = Some "a:b"
  ∧ out.2 = ["RooAbsReal::setParameterizeIntegral(f) function does not depend on listed parameter x, ignoring"]
  ∧ fName out.1 = "f" ∧ fTitle out.1 = "f(x,y)" ∧ fNormRange out.1 = None.
Proof.
  apply (setParameterizeIntegral_attribute dependsOnAB
           {| fName := "f"; fTitle := "f(x,y)"; fNormRange := None;
              fCacheParamInt := None |} ["a"; "x"; "b"]).
  apply (bool_decide_unpack _). vm_compute. exact I.
Defined.

Lemma setParameterizeIntegral_no_dependents_witness :
  let f' := (setParameterizeIntegral dependsOnNothing
               {| fName := "f"; fTitle := "f(x,y)"; fNormRange := None;
                  fCacheParamInt := None |} ["p"; "q"]).1 in
  fCacheParamInt f' = Some ""
  ∧ ∃ st,
      integrationLoop xyLValue xyBinning joinNames 2 (Func f') None None
        {| iset := ["x"; "y"]; nsetPtr := None; error := false;
           integrandPtr := Func f'; integral := None; log := [] |} = Some st
      ∧ createIntObj xyLValue xyBinning joinNames printNames selectM
          (Func f') ["x"; "y"] None None None
        = if error st
          then (Returned None, log st ++ [illDefinedError (Func f')])
          else (Returned (integral st), log st).
Proof.
  destruct (setParameterizeIntegral_no_dependents xyLValue xyBinning joinNames
              printNames fullRangeOverlap selectM dependsOnNothing
              {| fName := "f"; fTitle := "f(x,y)"; fNormRange := None;
                 fCacheParamInt := None |} ["p"; "q"] ["x"; "y"] None None
              None) as [Hattr Hobj].
  - intros p _. reflexivity.
  - split; [exact Hattr|]. by apply Hobj.
Defined.

End Integration.

(** ** Facts about [double] *)

Module Double.

Lemma SFeqb_same_false f : SFeqb f f = false → f = S754_nan.
Proof.
  destruct f as [s|s| |s m e]; unfold SFeqb; simpl; try done.
  - by destruct s.
  - destruct s; rewrite Z.compare_refl, Pos.compare_cont_refl; done.
Qed.

(** [TMath::IsNaN] holds of one value only. *)
Lemma is_nan_Prim2SF x : PrimFloat.is_nan x = true → Prim2SF x = S754_nan.
Proof.
  unfold PrimFloat.is_nan. rewrite FloatAxioms.eqb_spec.
  intros H. apply SFeqb_same_false. by destruct (SFeqb _ _).
Qed.

Lemma Prim2SF_is_nan x : Prim2SF x = S754_nan → PrimFloat.is_nan x = true.
Proof.
  intros H. unfold PrimFloat.is_nan. by rewrite FloatAxioms.eqb_spec, H.
Qed.

(** NaN plus anything is NaN. *)
Lemma is_nan_add x y :
  PrimFloat.is_nan x = true → PrimFloat.is_nan (x + y)%float = true.
Proof.
  intros H%is_nan_Prim2SF. apply Prim2SF_is_nan.
  rewrite FloatAxioms.add_spec, H. done.
Qed.

(** The product of two [double]s does not depend on their order. *)
Lemma mul_comm x y : (x * y)%float = (y * x)%float.
Proof.
  rewrite <- (FloatAxioms.SF2Prim_Prim2SF (x * y)),
          <- (FloatAxioms.SF2Prim_Prim2SF (y * x)).
  f_equal. rewrite !FloatAxioms.mul_spec. unfold FloatAxioms.SF64mul, SFmul.
  destruct (Prim2SF x) as [sx|sx| |sx mx ex],
           (Prim2SF y) as [sy|sy| |sy my ey];
    try done; rewrite (xorb_comm sx sy); try done.
  by rewrite (Pos.mul_comm mx my), (Z.add_comm ex ey).
Qed.

(** The conversions between [int] and [double], for values in range. *)
Definition int_to_double (z : Z) : float :=
  if (z <? 0)%Z then (- PrimFloat.of_uint63 (Uint63.of_Z (- z)))%float
  else PrimFloat.of_uint63 (Uint63.of_Z z).

Definition double_to_int (f : float) : Z :=
  match Prim2SF f with
  | S754_finite s m e =>
      let a := if (0 <=? e)%Z then (Z.pos m * 2 ^ e)%Z
               else (Z.pos m / 2 ^ (- e))%Z in
      if s then (- a)%Z else a
  | _ => 0%Z
  end.

Example int_double_int :
  double_to_int (int_to_double 7) = 7%Z
  ∧ double_to_int (int_to_double (-3)) = (-3)%Z
  ∧ double_to_int 2.75%float = 2%Z.
Proof. split_and!; vm_compute; reflexivity. Qed.

End Double.

(** ** The value cache and the evaluation-error log *)

Module Caching.

Inductive ErrorLoggingMode := PrintErrors | CollectErrors | CountErrors | Ignore.

Global Instance ErrorLoggingMode_eq_dec : EqDecision ErrorLoggingMode.
Proof. solve_decision. Defined.

Record EvalError := { _msg : string; _srvval : string }.

(** The process-wide [EvalErrorData]; the error list is keyed by the
    address of the originating node. *)
Record EvalErrorData := {
  mode : ErrorLoggingMode;
  count : Z;
  errorList : gmap nat (string * list EvalError)
}.

(** Everything process-wide that evaluation touches: the error data, the
    re-entrancy flag of [logEvalError], the offset-hiding toggle and the
    message stream. *)
Record Global := {
  evalErrorData : EvalErrorData;
  inLogEvalError : bool;
  _hideOffset : bool;
  msgLog : Log
}.

(** The members of a node that evaluation reads or writes. *)
Record Node := {
  this : nat;
  GetName : string;
  _value : float;
  _valueDirty : bool;
  _operMode : OperMode;
  _lastNormSetId : nat;
  _fast : bool;
  _inhibitDirty : bool;
  proxyNormSet : option nat
}.

(** A node, the process-wide state, and the number of calls of
    [evaluate()] made so far (an instrumentation counter). *)
Record World := {
  node : Node;
  glob : Global;
  evaluations : nat
}.

Definition setValue (n : Node) (v : float) : Node :=
  {| this := this n; GetName := GetName n; _value := v;
     _valueDirty := _valueDirty n; _operMode := _operMode n;
     _lastNormSetId := _lastNormSetId n; _fast := _fast n;
     _inhibitDirty := _inhibitDirty n; proxyNormSet := proxyNormSet n |}.

Definition setValueDirtyFlag (n : Node) (b : bool) : Node :=
  {| this := this n; GetName := GetName n; _value := _value n;
     _valueDirty := b; _operMode := _operMode n;
     _lastNormSetId := _lastNormSetId n; _fast := _fast n;
     _inhibitDirty := _inhibitDirty n; proxyNormSet := proxyNormSet n |}.

Definition setLastNormSetId (n : Node) (id : nat) : Node :=
  {| this := this n; GetName := GetName n; _value := _value n;
     _valueDirty := _valueDirty n; _operMode := _operMode n;
     _lastNormSetId := id; _fast := _fast n;
     _inhibitDirty := _inhibitDirty n; proxyNormSet := proxyNormSet n |}.

Definition setErrorData (g : Global) (d : EvalErrorData) : Global :=
  {| evalErrorData := d; inLogEvalError := inLogEvalError g;
     _hideOffset := _hideOffset g; msgLog := msgLog g |}.

Definition send (g : Global) (m : Msg) : Global :=
  {| evalErrorData := evalErrorData g; inLogEvalError := inLogEvalError g;
     _hideOffset := _hideOffset g; msgLog := msgLog g ++ [m] |}.

Definition endl : string := String "010"%char "".

Definition tab : string := String "009"%char "".

(** A pointer as the stream prints it: [0x] and the address in hexadecimal
    digits. *)
Definition hexDigit (d : N) : ascii :=
  nth (N.to_nat d)
      ["0"; "1"; "2"; "3"; "4"; "5"; "6"; "7"; "8"; "9";
       "a"; "b"; "c"; "d"; "e"; "f"]%char "0"%char.

Fixpoint hexFrom (fuel : nat) (n : N) (acc : string) : string :=
  match fuel with
  | O => acc
  | S fuel' =>
      let acc' := String (hexDigit (n `mod` 16)%N) acc in
      if (n `div` 16 =? 0)%N then acc' else hexFrom fuel' (n `div` 16)%N acc'
  end.

Definition printPointer (p : nat) : string :=
  "0x" +:+ hexFrom (S (N.size_nat (N.of_nat p))) (N.of_nat p) "".

(** [count++] on a 32-bit [int], wrapping as the hardware does. *)
Definition incrInt (z : Z) : Z :=
  if (z + 1 =? 2147483648)%Z then (-2147483648)%Z else (z + 1)%Z.

(** Modelled from the spec: [RooAbsArg::isValueDirtyAndClear], declared in
    RooAbsArg.h.  A node in AlwaysClean mode serves its cached value and
    never recomputes, a node in AlwaysDirty mode bypasses the cache, and in
    Auto mode a set [valueDirty] flag is cleared and asks for
    recomputation. *)
Definition isValueDirtyAndClear (n : Node) : bool * Node :=
  match _operMode n with
  | AClean => (false, n)
  | ADirty => (true, n)
  | Auto =>
      if _valueDirty n then (true, setValueDirtyFlag n false) else (false, n)
  end.

(** *** The process-wide error log *)

(** [setEvalErrorLoggingMode]. *)
Definition setEvalErrorLoggingMode (d : EvalErrorData) (m : ErrorLoggingMode)
  : EvalErrorData :=
  {| mode := m; count := count d; errorList := errorList d |}.

(** [clearEvalErrorLog]. *)
Definition clearEvalErrorLog (d : EvalErrorData) : EvalErrorData :=
  if decide (mode d = PrintErrors) then d
  else if decide (mode d = CollectErrors) then
    {| mode := mode d; count := count d; errorList := ∅ |}
  else {| mode := mode d; count := 0; errorList := errorList d |}.

(** The conversion of a sum computed in [size_t] back to [Int_t]: modulo
    2^32, into the signed range. *)
Definition toInt (z : Z) : Z :=
  ((z + 2147483648) `mod` 4294967296 - 2147483648)%Z.

(** [numEvalErrors].  The loop adds the sizes of the lists entry by entry;
    the sum does not depend on the order of the entries. *)
Definition numEvalErrors (d : EvalErrorData) : Z :=
  if decide (mode d = CountErrors) then count d
  else map_fold (λ _ elem ntot, toInt (ntot + Z.of_nat (length elem.2)))
                0%Z (errorList d).

Definition staticErrorText (origName : string) (ee : EvalError) : string :=
  "RooAbsReal::logEvalError(" +:+ "<STATIC>" +:+ ") evaluation error, "
    +:+ endl +:+ " origin       : " +:+ origName
    +:+ endl +:+ " message      : " +:+ _msg ee
    +:+ endl +:+ " server values: " +:+ _srvval ee +:+ endl.

(** The static [logEvalError] that inserts the messages of a remote
    process.  [inLog] is the value of its own static re-entrancy flag on
    entry; every path leaves the flag as it found it. *)
Definition logEvalErrorStatic (inLog : bool) (g : Global) (originator : nat)
    (origName message : string) (serverValueString : option string)
  : Global :=
  let d := evalErrorData g in
  if decide (mode d = Ignore) then g
  else if decide (mode d = CountErrors) then
    setErrorData g {| mode := mode d; count := incrInt (count d);
                      errorList := errorList d |}
  else if inLog then g
  else
    let ee := {| _msg := message; _srvval := default "" serverValueString |} in
    if decide (mode d = PrintErrors) then
      send g {| level := ERROR; topic := Eval;
                text := staticErrorText origName ee |}
    else if decide (mode d = CollectErrors) then
      let evalErrorList := default ("", []) (errorList d !! originator) in
      setErrorData g
        {| mode := mode d; count := count d;
           errorList := <[originator := (origName, evalErrorList.2 ++ [ee])]>
                          (errorList d) |}
    else g.

(** The line that one logged message makes. *)
Definition detailLine (item2 : EvalError) : string :=
  "     " +:+ _msg item2 +:+ " @ " +:+ _srvval item2 +:+ endl.

(** The suppression notice; the number of messages left is computed in
    [size_t]. *)
Definition suppressedLine (maxPerNode : Z) (size : nat) : string :=
  "    ... (remaining "
    +:+ pretty ((Z.of_nat size - maxPerNode) `mod` 18446744073709551616)%Z
    +:+ " messages suppressed)" +:+ endl.

(** The lines [printEvalErrors] writes for the messages of one node when
    [maxPerNode] is not zero, [i] counting the messages written before. *)
Fixpoint printDetails (maxPerNode : Z) (size : nat) (i : Z)
    (errors : list EvalError) : list string :=
  match errors with
  | [] => []
  | item2 :: rest =>
      detailLine item2
      :: (if (maxPerNode <? i)%Z then [suppressedLine maxPerNode size]
          else printDetails maxPerNode size (i + 1) rest)
  end.

(** The body of the loop of [printEvalErrors] over the error list. *)
Definition printErrorsOf (maxPerNode : Z) (item : string * list EvalError)
  : list string :=
  if (maxPerNode =? 0)%Z then
    [item.1 +:+ " has " +:+ pretty (length item.2) +:+ " errors" +:+ endl]
  else (item.1 +:+ endl) :: printDetails maxPerNode (length item.2) 0 item.2.

(** The order of the error list: by the address of the node. *)
Definition byAddress (a b : nat * (string * list EvalError)) : Prop :=
  a.1 ≤ b.1.

Global Instance byAddress_dec a b : Decision (byAddress a b).
Proof. unfold byAddress. apply _. Defined.

(** [printEvalErrors]: the lines written to the stream. *)
Definition printEvalErrors (d : EvalErrorData) (maxPerNode : Z)
  : list string :=
  (if decide (mode d = CountErrors)
   then [pretty (count d) +:+ " errors counted" +:+ endl] else [])
  ++ (if (maxPerNode <? 0)%Z then []
      else concat (printErrorsOf maxPerNode
                     <$> (merge_sort byAddress
                            (map_to_list (errorList d))).*2)).

(** [redirectServersHook]: the recorded normalization set is forgotten.
    [nullval] is the identity no set has
    ([RooFit::UniqueId<RooArgSet>::nullval]), [base] what the hook of
    [RooAbsArg] returns. *)
Definition redirectServersHook (nullval : nat) (base : bool) (n : Node)
  : bool * Node :=
  (base, setLastNormSetId n nullval).

(** No node holds more than 2048 messages. *)
Definition bounded (d : EvalErrorData) : Prop :=
  ∀ k e, errorList d !! k = Some e → length e.2 ≤ 2048.

(** The messages held for the node at an address. *)
Definition errorsOf (d : EvalErrorData) (address : nat) : list EvalError :=
  (default ("", []) (errorList d !! address)).2.

Section Evaluation.

(** The virtual interface of the node and the stream formatting that the
    code only calls. *)
(** [evaluate()]: the value, or the exception it throws. *)
Variable evaluate : Node → Exception + float.
Variable offset : Node → float.
Variable isValidReal : Node → float → bool.
(** The normalization-context update hook. *)
Variable setProxyNormSet : Node → nat → Node.
Variable printDouble : float → string.
(** The proxies of the node printed one after the other. *)
Variable printProxies : Node → string.
(** [printStream(oss2,kName|kClassName|kArgs,kInline)]. *)
Variable printInline : Node → string.
Variable printServers : Node → string.
(** [FormatPdfTree() << *this]. *)
Variable printTree : Node → string.

Definition evalErrorText (n : Node) (origin : string) (ee : EvalError)
  : string :=
  "RooAbsReal::logEvalError(" +:+ GetName n +:+ ") evaluation error, "
    +:+ endl +:+ " origin       : " +:+ origin
    +:+ endl +:+ " message      : " +:+ _msg ee
    +:+ endl +:+ " server values: " +:+ _srvval ee +:+ endl.

Definition delayedErrorText (n : Node) (origin : string) (oee : EvalError)
  : string :=
  "RooAbsReal::logEvalError(" +:+ GetName n
    +:+ ") delayed evaluation error, "
    +:+ endl +:+ " origin       : " +:+ origin
    +:+ endl +:+ " message      : " +:+ _msg oee
    +:+ endl +:+ " server values: " +:+ _srvval oee +:+ endl.

(** The member [logEvalError] (message, optional server-value string). *)
Definition logEvalError (n : Node) (g : Global) (message : string)
    (serverValueString : option string) : Global :=
  let d := evalErrorData g in
  if decide (mode d = Ignore) then g
  else if decide (mode d = CountErrors) then
    setErrorData g {| mode := mode d; count := incrInt (count d);
                      errorList := errorList d |}
  else if inLogEvalError g then g
  else
    let ee := {| _msg := message;
                 _srvval := default (printProxies n) serverValueString |} in
    let oss2 := printInline n in
    if decide (mode d = PrintErrors) then
      send g {| level := ERROR; topic := Eval;
                text := evalErrorText n oss2 ee |}
    else if decide (mode d = CollectErrors) then
      let evalErrorList := default ("", []) (errorList d !! this n) in
      let '(g1, kept) :=
        if bool_decide (2048 ≤ length evalErrorList.2) then
          match evalErrorList.2 with
          | oee :: rest =>
              (send g {| level := DEBUG; topic := Eval;
                         text := delayedErrorText n oss2 oee |}, rest)
          | [] => (g, [])
          end
        else (g, evalErrorList.2) in
      setErrorData g1
        {| mode := mode d; count := count d;
           errorList := <[this n := (oss2, kept ++ [ee])]> (errorList d) |}
    else g.

Definition validationWarning (n : Node) (value : float) : Msg :=
  {| level := WARNING; topic := Tracing;
     text := "RooAbsReal::traceEval(" +:+ GetName n
             +:+ "): validation failed: " +:+ printDouble value +:+ endl |}.

(** [traceEval]: the value of [evaluate()], and the process-wide state after
    the NaN report and the validity check.  An exception thrown by
    [evaluate()] leaves at once. *)
Definition traceEval (n : Node) (g : Global)
  : (Exception + float) * Global :=
  match evaluate n with
  | inl exn => (inl exn, g)
  | inr value =>
      let g1 := if PrimFloat.is_nan value
                then logEvalError n g "function value is NAN" None else g in
      let g2 := if negb (isValidReal n value)
                then send g1 (validationWarning n value) else g1 in
      (inr value, g2)
  end.

(** The first statement of [getValV]: a non-null normalization set with a
    new identity calls the hook and is recorded. *)
Definition updateNormSet (n : Node) (nset : option nat) : Node :=
  match nset with
  | Some id =>
      if bool_decide (id ≠ _lastNormSetId n)
      then setLastNormSetId (setProxyNormSet n id) id
      else n
  | None => n
  end.

(** The expression [getValV] returns. *)
Definition shownValue (n : Node) (g : Global) : float :=
  if _hideOffset g then (_value n + offset n)%float else _value n.

Definition getValV (w : World) (nset : option nat)
  : (Exception + float) * World :=
  let n1 := updateNormSet (node w) nset in
  let '(dirty, n2) := isValueDirtyAndClear n1 in
  if dirty then
    match traceEval n2 (glob w) with
    | (inl exn, g') =>
        (inl exn,
         {| node := n2; glob := g'; evaluations := S (evaluations w) |})
    | (inr value, g') =>
        (inr (shownValue (setValue n2 value) g'),
         {| node := setValue n2 value; glob := g';
            evaluations := S (evaluations w) |})
    end
  else
    (inr (shownValue n2 (glob w)),
     {| node := n2; glob := glob w; evaluations := evaluations w |}).

(** The text carried by a [CachingError]. *)
Definition cachingErrorText (n : Node) (tmpFast : bool) (tmp ret fullEval : float)
  : string :=
  "--> (Scalar computation wrong here:)" +:+ endl
    +:+ GetName n +:+ " " +:+ printPointer (this n)
    +:+ " _fast=" +:+ (if tmpFast then "1" else "0")
    +:+ endl +:+ tab +:+ "cached _value=" +:+ printDouble tmp
    +:+ endl +:+ tab +:+ "returning    =" +:+ printDouble ret
    +:+ endl +:+ tab +:+ "recomputed   =" +:+ printDouble fullEval
    +:+ endl +:+ tab +:+ "new _value   =" +:+ printDouble (_value n) +:+ "] "
    +:+ endl +:+ "Servers:" +:+ printServers n.

(** [ret != 0. ? (ret - fullEval)/ret : ret - fullEval]. *)
Definition signedDeviation (ret fullEval : float) : float :=
  if negb (ret =? 0)%float then ((ret - fullEval) / ret)%float
  else (ret - fullEval)%float.

(** [_DEBUG_getVal]: the value, or the exception thrown.  A [CachingError]
    coming out of [getValV] is thrown on with the tree of this node
    appended; any other exception passes. *)
Definition _DEBUG_getVal (w : World) (normalisationSet : option nat)
  : (Exception + float) * World :=
  let tmpFast := _fast (node w) in
  let tmp := _value (node w) in
  match getValV w normalisationSet with
  | (inl (CachingError what), w1) =>
      (inl (CachingError (what +:+ printTree (node w1))), w1)
  | (inl exn, w1) => (inl exn, w1)
  | (inr fullEval, w1) =>
      let ret := if _fast (node w1) && negb (_inhibitDirty (node w1))
                 then _value (node w1) else fullEval in
      if PrimFloat.is_finite ret
         && (1e-9 <? signedDeviation ret fullEval)%float
      then (inl (CachingError
                   (cachingErrorText (node w1) tmpFast tmp ret fullEval)), w1)
      else (inr ret, w1)
  end.

(** The node as the dirty test of [getValV] leaves it. *)
Definition getValV_node (w : World) (nset : option nat) : Node :=
  (isValueDirtyAndClear (updateNormSet (node w) nset)).2.

(** *** Nodes and hooks to evaluate the definitions on *)

Definition quietGlobal : Global :=
  {| evalErrorData := {| mode := PrintErrors; count := 0; errorList := ∅ |};
     inLogEvalError := false; _hideOffset := true; msgLog := [] |}.

Definition nodeInMode (m : OperMode) (fast : bool) : World :=
  {| node := {| this := 1; GetName := "n"; _value := 1%float;
                _valueDirty := false; _operMode := m; _lastNormSetId := 0;
                _fast := fast; _inhibitDirty := false;
                proxyNormSet := None |};
     glob := quietGlobal; evaluations := 0 |}.

Definition evaluateOne (n : Node) : Exception + float := inr 1%float.
Definition offsetBy (o : float) (n : Node) : float := o.
Definition alwaysValid (n : Node) (v : float) : bool := true.
Definition recordNormSet (n : Node) (id : nat) : Node :=
  {| this := this n; GetName := GetName n; _value := _value n;
     _valueDirty := true; _operMode := _operMode n;
     _lastNormSetId := _lastNormSetId n; _fast := _fast n;
     _inhibitDirty := _inhibitDirty n; proxyNormSet := Some id |}.
Definition noText {A} (a : A) : string := "".

Definition evaluateNaN (n : Node) : Exception + float := inr PrimFloat.nan.

Definition dirtyNode : World :=
  {| node := {| this := 1; GetName := "n"; _value := 1%float;
                _valueDirty := true; _operMode := Auto; _lastNormSetId := 0;
                _fast := false; _inhibitDirty := false;
                proxyNormSet := None |};
     glob := quietGlobal; evaluations := 0 |}.

Definition evaluateThrows (n : Node) : Exception + float :=
  inl (runtime_error "no value").

(** A process-wide state that collects the errors. *)
Definition collectingGlobal : Global :=
  {| evalErrorData := {| mode := CollectErrors; count := 0; errorList := ∅ |};
     inLogEvalError := false; _hideOffset := true; msgLog := [] |}.

(** A process-wide state that counts the errors. *)
Definition countingGlobal : Global :=
  {| evalErrorData := {| mode := CountErrors; count := 5; errorList := ∅ |};
     inLogEvalError := false; _hideOffset := true; msgLog := [] |}.

(** *** Two successive calls *)

Lemma isValueDirtyAndClear_lastNormSetId n :
  _lastNormSetId (isValueDirtyAndClear n).2 = _lastNormSetId n.
Proof.
  unfold isValueDirtyAndClear.
  destruct (_operMode n); [destruct (_valueDirty n)|..]; done.
Qed.

Lemma isValueDirtyAndClear_operMode n :
  _operMode (isValueDirtyAndClear n).2 = _operMode n.
Proof.
  unfold isValueDirtyAndClear.
  destruct (_operMode n) eqn:E; [destruct (_valueDirty n)|..]; done.
Qed.

Lemma updateNormSet_recorded n nset :
  updateNormSet (updateNormSet n nset) nset = updateNormSet n nset
  ∧ ∀ n', _lastNormSetId n' = _lastNormSetId (updateNormSet n nset) →
          updateNormSet n' nset = n'.
Proof.
  assert (Hrec : ∀ n', _lastNormSetId n' = _lastNormSetId (updateNormSet n nset)
                       → updateNormSet n' nset = n').
  { intros n' Hid. unfold updateNormSet in *. destruct nset as [id|]; [|done].
    case_bool_decide as Hne; simpl in Hid.
    - rewrite bool_decide_eq_false_2; [done|]. intros Hd. apply Hd. congruence.
    - rewrite bool_decide_eq_false_2; [done|]. intros Hd. apply Hd. congruence. }
  split; [by apply Hrec|done].
Qed.

Lemma getValV_inv w nset v1 w1 :
  getValV w nset = (inr v1, w1) →
  v1 = shownValue (node w1) (glob w1)
  ∧ _lastNormSetId (node w1) = _lastNormSetId (updateNormSet (node w) nset)
  ∧ _operMode (node w1) = _operMode (updateNormSet (node w) nset)
  ∧ evaluations w1 ≤ S (evaluations w)
  ∧ (_operMode (node w1) = Auto → _valueDirty (node w1) = false).
Proof.
  unfold getValV.
  pose proof (isValueDirtyAndClear_lastNormSetId
                (updateNormSet (node w) nset)) as Hid.
  pose proof (isValueDirtyAndClear_operMode
                (updateNormSet (node w) nset)) as Hmode.
  assert (Hclean : _operMode (updateNormSet (node w) nset) = Auto →
    _valueDirty (isValueDirtyAndClear (updateNormSet (node w) nset)).2 = false).
  { unfold isValueDirtyAndClear. intros ->.
    by destruct (_valueDirty (updateNormSet (node w) nset)) eqn:D. }
  destruct (isValueDirtyAndClear (updateNormSet (node w) nset))
    as [dirty n2]. simpl in *.
  destruct dirty.
  - destruct (traceEval n2 (glob w)) as [[exn|value] g']; [done|].
    intros [= <- <-]. simpl. split_and!; try done.
    rewrite Hmode. done.
  - intros [= <- <-]. simpl. split_and!; try done; [lia|].
    rewrite Hmode. done.
Qed.

(** C7 (as the code has it).  When a call of [getValV] has returned and the
    node is not in AlwaysDirty mode, a second call with the same
    normalization set returns the very same [double] without calling
    [evaluate()] and leaves every member as it was; the two calls together
    evaluate at most once. *)
Theorem getValV_twice w nset v1 w1 :
  getValV w nset = (inr v1, w1) →
  _operMode (node w1) ≠ ADirty →
  getValV w1 nset = (inr v1, w1) ∧ evaluations w1 ≤ S (evaluations w).
Proof.
  intros Hfirst Hmode.
  destruct (getValV_inv w nset v1 w1 Hfirst) as (Hv & Hid & Hm & Hev & Hclean).
  split; [|done].
  unfold getValV.
  rewrite (proj2 (updateNormSet_recorded (node w) nset) (node w1) Hid).
  assert (Hsec : isValueDirtyAndClear (node w1) = (false, node w1)).
  { unfold isValueDirtyAndClear.
    destruct (_operMode (node w1)) eqn:E; [|done|done].
    by rewrite Hclean. }
  rewrite Hsec. rewrite Hv. by destruct w1.
Qed.

(** *** A NaN from [evaluate()] *)

(** What [logEvalError] does to the process-wide state, mode by mode. *)
Lemma logEvalError_by_mode n g message :
  let logged := logEvalError n g message None in
  let ee := {| _msg := message; _srvval := printProxies n |} in
  match mode (evalErrorData g) with
  | Ignore => logged = g
  | CountErrors =>
      logged = setErrorData g
                 {| mode := CountErrors;
                    count := incrInt (count (evalErrorData g));
                    errorList := errorList (evalErrorData g) |}
  | PrintErrors =>
      logged = if inLogEvalError g then g
               else send g {| level := ERROR; topic := Eval;
                              text := evalErrorText n (printInline n) ee |}
  | CollectErrors =>
      if inLogEvalError g then logged = g
      else ∃ kept,
        errorList (evalErrorData logged) !! this n
          = Some (printInline n, kept ++ [ee])
        ∧ mode (evalErrorData logged) = CollectErrors
        ∧ count (evalErrorData logged) = count (evalErrorData g)
  end.
Proof.
  unfold logEvalError.
  destruct (evalErrorData g) as [m c l] eqn:Hd. simpl.
  destruct m; simpl.
  - by destruct (inLogEvalError g).
  - destruct (inLogEvalError g); [done|].
    destruct (bool_decide _).
    + destruct (default _ _).2 as [|oee rest]; simpl;
        [exists []|exists rest]; by rewrite lookup_insert_eq.
    + simpl. eexists. by rewrite lookup_insert_eq.
  - done.
  - done.
Qed.

(** C8.  When the value is dirty and [evaluate()] yields a NaN, [getValV]
    passes the report to [logEvalError] (nothing in Ignore mode, one more
    count in CountErrors mode, one message on the error stream in
    PrintErrors mode, one more entry for this node in CollectErrors mode,
    the last two unless a report is already under way), throws nothing,
    caches the NaN and returns it. *)
Theorem getValV_NaN w nset value :
  let n2 := getValV_node w nset in
  (isValueDirtyAndClear (updateNormSet (node w) nset)).1 = true →
  evaluate n2 = inr value →
  PrimFloat.is_nan value = true →
  let logged := logEvalError n2 (glob w) "function value is NAN" None in
  let g' := if negb (isValidReal n2 value)
            then send logged (validationWarning n2 value) else logged in
  ∃ ret w',
    getValV w nset = (inr ret, w')
    ∧ PrimFloat.is_nan ret = true
    ∧ _value (node w') = value
    ∧ glob w' = g'
    ∧ evalErrorData g' = evalErrorData logged
    ∧ match mode (evalErrorData (glob w)) with
      | Ignore => logged = glob w
      | CountErrors =>
          count (evalErrorData logged)
          = incrInt (count (evalErrorData (glob w)))
      | PrintErrors =>
          logged = if inLogEvalError (glob w) then glob w
                   else send (glob w)
                     {| level := ERROR; topic := Eval;
                        text := evalErrorText n2 (printInline n2)
                          {| _msg := "function value is NAN";
                             _srvval := printProxies n2 |} |}
      | CollectErrors =>
          if inLogEvalError (glob w) then logged = glob w
          else ∃ kept,
            errorList (evalErrorData logged) !! this n2
            = Some (printInline n2,
                    kept ++ [{| _msg := "function value is NAN";
                                _srvval := printProxies n2 |}])
      end.
Proof.
  intros n2 Hdirty Heval Hnan logged g'.
  unfold getValV. fold n2 in Heval |- *. unfold getValV_node in n2.
  destruct (isValueDirtyAndClear (updateNormSet (node w) nset))
    as [dirty n2'] eqn:Hd. simpl in Hdirty, n2. subst dirty n2.
  unfold traceEval. rewrite Heval, Hnan. fold logged. fold g'.
  eexists _, _. split; [reflexivity|]. simpl.
  split_and!; try done.
  - unfold shownValue. simpl.
    destruct (_hideOffset g'); [by apply Double.is_nan_add|done].
  - unfold g'. by destruct (negb _).
  - pose proof (logEvalError_by_mode n2' (glob w) "function value is NAN")
      as Hlog. simpl in Hlog. fold logged in Hlog.
    destruct (mode (evalErrorData (glob w))); try done.
    + destruct (inLogEvalError (glob w)); [done|].
      destruct Hlog as (kept & Hk & _). by exists kept.
    + by rewrite Hlog.
Qed.

(** *** An exception from [evaluate()], and a change of servers *)

(** X13.  An exception thrown by [evaluate()] on a dirty value passes
    through [getValV]: nothing is cached, logged or printed.  The dirty
    flag has been cleared before the evaluation, though, so in Auto mode
    the next call with the same normalization set evaluates nothing and
    returns the value that was cached before. *)
Theorem getValV_exception w nset exn :
  let n2 := getValV_node w nset in
  (isValueDirtyAndClear (updateNormSet (node w) nset)).1 = true →
  evaluate n2 = inl exn →
  let w1 := {| node := n2; glob := glob w;
               evaluations := S (evaluations w) |} in
  getValV w nset = (inl exn, w1)
  ∧ _value n2 = _value (updateNormSet (node w) nset)
  ∧ (_operMode n2 = Auto →
     getValV w1 nset = (inr (shownValue n2 (glob w)), w1)).
Proof.
  intros n2 Hdirty Heval w1.
  assert (Hid : _lastNormSetId n2
                = _lastNormSetId (updateNormSet (node w) nset))
    by apply isValueDirtyAndClear_lastNormSetId.
  assert (Hn2 : _value n2 = _value (updateNormSet (node w) nset)
                ∧ (_operMode n2 = Auto →
                   isValueDirtyAndClear n2 = (false, n2))).
  { subst n2. unfold getValV_node, isValueDirtyAndClear in *.
    destruct (_operMode (updateNormSet (node w) nset)) eqn:Hmode; simpl in *.
    - destruct (_valueDirty (updateNormSet (node w) nset)); [|done].
      simpl. by rewrite Hmode.
    - done.
    - by rewrite Hmode. }
  destruct Hn2 as [Hval Hclean]. split_and!; [|done|].
  - unfold getValV. subst w1 n2. unfold getValV_node in *.
    destruct (isValueDirtyAndClear (updateNormSet (node w) nset))
      as [dirty n2'] eqn:Hd. simpl in *. subst dirty.
    unfold traceEval. by rewrite Heval.
  - intros Hauto. unfold getValV. subst w1. simpl.
    rewrite (proj2 (updateNormSet_recorded (node w) nset) n2 Hid).
    by rewrite (Hclean Hauto).
Qed.

(** X14.  After [redirectServersHook] the next [getValV] with a
    normalization set calls the hook of the proxies again and records the
    set, whichever set was recorded before; without the redirection a call
    with the recorded set leaves the node alone. *)
Theorem redirectServersHook_renews nullval base n id :
  id ≠ nullval →
  let n' := (redirectServersHook nullval base n).2 in
  updateNormSet n' (Some id) = setLastNormSetId (setProxyNormSet n' id) id
  ∧ (_lastNormSetId n = id → updateNormSet n (Some id) = n).
Proof.
  intros Hid n'. split.
  - unfold updateNormSet. subst n'. simpl.
    by rewrite bool_decide_eq_true_2.
  - intros Hrec. unfold updateNormSet.
    rewrite bool_decide_eq_false_2; [done|]. intros Hne. by apply Hne.
Qed.

End Evaluation.

(** *** A node in AlwaysDirty mode, a dirty node and a node with an offset *)

(** C7 (as the specification words it) fails for a node in AlwaysDirty
    mode: with nothing changed between the calls, each of the two calls
    runs [evaluate()]. *)
Lemma getValV_twice_ADirty :
  ¬ (∀ w nset v1 w1 v2 w2,
       getValV evaluateOne (offsetBy 0) alwaysValid recordNormSet noText
               noText noText w nset = (inr v1, w1) →
       getValV evaluateOne (offsetBy 0) alwaysValid recordNormSet noText
               noText noText w1 nset = (inr v2, w2) →
       v2 = v1 ∧ evaluations w2 ≤ S (evaluations w)).
Proof.
  intros Hall.
  destruct (Hall (nodeInMode ADirty false) None _ _ _ _ eq_refl eq_refl)
    as [_ Hev].
  vm_compute in Hev. lia.
Qed.

Lemma getValV_twice_witness :
  let w1 := (getValV evaluateOne (offsetBy 0) alwaysValid recordNormSet
               noText noText noText (nodeInMode Auto false) (Some 7)).2 in
  getValV evaluateOne (offsetBy 0) alwaysValid recordNormSet noText noText
    noText w1 (Some 7) = (inr 1%float, w1)
  ∧ evaluations w1 ≤ 1.
Proof.
  intros w1.
  apply (getValV_twice evaluateOne (offsetBy 0) alwaysValid recordNormSet
           noText noText noText (nodeInMode Auto false) (Some 7) 1%float w1).
  - reflexivity.
  - vm_compute. discriminate.
Defined.

Lemma getValV_NaN_witness :
  ∃ ret w',
    getValV evaluateNaN (offsetBy 0) alwaysValid recordNormSet noText noText
            noText dirtyNode None = (inr ret, w')
    ∧ PrimFloat.is_nan ret = true
    ∧ PrimFloat.is_nan (_value (node w')) = true
    ∧ length (msgLog (glob w')) = 1.
Proof.
  destruct (getValV_NaN evaluateNaN (offsetBy 0) alwaysValid recordNormSet
              noText noText noText dirtyNode None PrimFloat.nan
              eq_refl eq_refl eq_refl)
    as (ret & w' & Hval & Hnan & Hcached & Hglob & _).
  exists ret, w'. split_and!; [done|done|by rewrite Hcached|].
  rewrite Hglob. reflexivity.
Defined.

(** *** The debug-mode double check *)

Lemma DEBUG_getVal_unfold evaluate offset isValidReal setProxyNormSet
    printDouble printProxies printInline printServers printTree
    w nset fullEval w1 :
  getValV evaluate offset isValidReal setProxyNormSet printDouble
          printProxies printInline w nset = (inr fullEval, w1) →
  let ret := if _fast (node w1) && negb (_inhibitDirty (node w1))
             then _value (node w1) else fullEval in
  _DEBUG_getVal evaluate offset isValidReal setProxyNormSet printDouble
                printProxies printInline printServers printTree w nset
  = if PrimFloat.is_finite ret
       && (1e-9 <? signedDeviation ret fullEval)%float
    then (inl (CachingError
                 (cachingErrorText printDouble printServers (node w1)
                    (_fast (node w)) (_value (node w)) ret fullEval)), w1)
    else (inr ret, w1).
Proof. intros Hfull. unfold _DEBUG_getVal. by rewrite Hfull. Qed.

(** C9 (the code at a failing input).  A node in AlwaysClean mode caches
    1.0 and carries an offset that is shown: the full path yields 2.0 with
    offset 1 and 0.0 with offset -1, the fast path 1.0 in both cases.  The
    two values differ by the whole of the returned one each time, yet only
    the second mismatch is thrown as a [CachingError]; the first returns
    normally. *)
Theorem DEBUG_getVal_one_sided :
  let w := nodeInMode AClean true in
  getValV evaluateOne (offsetBy 1) alwaysValid recordNormSet noText noText
          noText w None = (inr 2%float, w)
  ∧ _DEBUG_getVal evaluateOne (offsetBy 1) alwaysValid recordNormSet noText
      noText noText noText noText w None = (inr 1%float, w)
  ∧ (1e-9 <? PrimFloat.abs ((1 - 2) / 1))%float = true
  ∧ getValV evaluateOne (offsetBy (-1)) alwaysValid recordNormSet noText
      noText noText w None = (inr 0%float, w)
  ∧ ∃ what,
      _DEBUG_getVal evaluateOne (offsetBy (-1)) alwaysValid recordNormSet
        noText noText noText noText noText w None
      = (inl (CachingError what), w).
Proof.
  intros w. split_and!; try (vm_compute; reflexivity).
  eexists. vm_compute. reflexivity.
Qed.

(** *** The error log, cleared, filled and counted *)

Lemma toInt_small z : (-2147483648 ≤ z < 2147483648)%Z → toInt z = z.
Proof. unfold toInt. intros Hz. rewrite Z.mod_small by lia. lia. Qed.

Lemma toInt_range z : (-2147483648 ≤ toInt z < 2147483648)%Z.
Proof.
  unfold toInt.
  pose proof (Z.mod_pos_bound (z + 2147483648) 4294967296). lia.
Qed.

Lemma toInt_add_l a b : toInt (toInt a + b) = toInt (a + b).
Proof.
  unfold toInt.
  replace ((a + 2147483648) `mod` 4294967296 - 2147483648 + b + 2147483648)%Z
    with ((a + 2147483648) `mod` 4294967296 + b)%Z by lia.
  rewrite Zplus_mod_idemp_l. do 2 f_equal. lia.
Qed.

Abbreviation sizes :=
  (map_fold (λ (_ : nat) (elem : string * list EvalError) ntot,
               toInt (ntot + Z.of_nat (length elem.2))) 0%Z).

Lemma sizes_range (m : gmap nat (string * list EvalError)) :
  (-2147483648 ≤ sizes m < 2147483648)%Z.
Proof.
  apply (map_fold_weak_ind (λ r _, (-2147483648 ≤ r < 2147483648)%Z)).
  - lia.
  - intros i x m' r _ _. apply toInt_range.
Qed.

Lemma sizes_insert_new (m : gmap nat (string * list EvalError)) k e :
  m !! k = None →
  sizes (<[k := e]> m) = toInt (sizes m + Z.of_nat (length e.2)).
Proof.
  intros Hk.
  apply (map_fold_insert_L
           (λ (_ : nat) (elem : string * list EvalError) ntot,
              toInt (ntot + Z.of_nat (length elem.2)))); [|done].
  intros j1 j2 z1 z2 y _ _ _. rewrite !toInt_add_l. f_equal. lia.
Qed.

Lemma sizes_insert (m : gmap nat (string * list EvalError)) k e :
  sizes (<[k := e]> m)
  = toInt (sizes m - Z.of_nat (length (default ("", []) (m !! k)).2)
           + Z.of_nat (length e.2)).
Proof.
  destruct (m !! k) as [e0|] eqn:Hk; simpl.
  - rewrite <- (insert_delete_id m k e0 Hk) at 2.
    rewrite <- (insert_delete_eq m).
    rewrite !sizes_insert_new by apply lookup_delete_eq.
    replace (toInt (sizes (delete k m) + Z.of_nat (length e0.2))
             - Z.of_nat (length e0.2) + Z.of_nat (length e.2))%Z
      with (toInt (sizes (delete k m) + Z.of_nat (length e0.2))
            + (Z.of_nat (length e.2) - Z.of_nat (length e0.2)))%Z by lia.
    rewrite toInt_add_l. f_equal. lia.
  - rewrite sizes_insert_new by done. f_equal. lia.
Qed.

(** X7.  [clearEvalErrorLog] empties what the current mode fills, and
    nothing else: in CollectErrors and CountErrors mode [numEvalErrors]
    is zero afterwards; in PrintErrors mode nothing is touched, and in
    Ignore mode the counter is reset but the list, which is what
    [numEvalErrors] adds up there, stays.  The mode never changes. *)
Theorem clearEvalErrorLog_numEvalErrors d :
  mode (clearEvalErrorLog d) = mode d
  ∧ match mode d with
    | CollectErrors =>
        numEvalErrors (clearEvalErrorLog d) = 0%Z
        ∧ count (clearEvalErrorLog d) = count d
    | CountErrors =>
        numEvalErrors (clearEvalErrorLog d) = 0%Z
        ∧ errorList (clearEvalErrorLog d) = errorList d
    | PrintErrors => clearEvalErrorLog d = d
    | Ignore =>
        numEvalErrors (clearEvalErrorLog d) = numEvalErrors d
        ∧ count (clearEvalErrorLog d) = 0%Z
    end.
Proof.
  unfold clearEvalErrorLog, numEvalErrors.
  destruct d as [m c l]. simpl. destruct m; simpl; split; done.
Qed.

(** What one call of the member [logEvalError] does in CollectErrors mode
    outside a report. *)
Lemma logEvalError_collect printProxies printInline n g message :
  mode (evalErrorData g) = CollectErrors → inLogEvalError g = false →
  let old := errorsOf (evalErrorData g) (this n) in
  let ee := {| _msg := message; _srvval := printProxies n |} in
  let full := bool_decide (2048 ≤ length old) in
  logEvalError printProxies printInline n g message None
  = setErrorData
      (match old with
       | oee :: _ =>
           if full
           then send g {| level := DEBUG; topic := Eval;
                          text := delayedErrorText n (printInline n) oee |}
           else g
       | [] => g
       end)
      {| mode := CollectErrors; count := count (evalErrorData g);
         errorList := <[this n := (printInline n,
                                   (if full then tail old else old) ++ [ee])]>
                        (errorList (evalErrorData g)) |}.
Proof.
  intros Hmode Hin. unfold logEvalError, errorsOf. rewrite Hmode, Hin. simpl.
  destruct (default ("", []) (errorList (evalErrorData g) !! this n)).2
    as [|oee rest]; simpl.
  - done.
  - by case_bool_decide.
Qed.

(** X8.  In CollectErrors mode a node keeps its latest 2048 messages: after
    the log is cleared and one node logs a run of messages, the list holds
    the last 2048 of them in the order of logging, [numEvalErrors] is the
    length of the run up to 2048, and each message pushed out has gone to
    the debug stream, oldest first. *)
Theorem logEvalError_keeps_latest printProxies printInline n g msgs :
  mode (evalErrorData g) = CollectErrors → inLogEvalError g = false →
  let ee := λ m, {| _msg := m; _srvval := printProxies n |} in
  let cleared := setErrorData g (clearEvalErrorLog (evalErrorData g)) in
  let logged :=
    foldl (λ g m, logEvalError printProxies printInline n g m None)
          cleared msgs in
  let dropped := length msgs - 2048 in
  errorsOf (evalErrorData logged) (this n) = ee <$> drop dropped msgs
  ∧ numEvalErrors (evalErrorData logged) = Z.of_nat (length msgs `min` 2048)
  ∧ msgLog logged
    = msgLog g
      ++ ((λ m, {| level := DEBUG; topic := Eval;
                   text := delayedErrorText n (printInline n) (ee m) |})
            <$> take dropped msgs).
Proof.
  intros Hmode Hin ee cleared logged dropped.
  assert (Hinv :
    mode (evalErrorData logged) = CollectErrors
    ∧ inLogEvalError logged = false
    ∧ errorList (evalErrorData logged)
      = (if bool_decide (msgs = []) then ∅
         else {[ this n := (printInline n, ee <$> drop dropped msgs) ]})
    ∧ msgLog logged
      = msgLog g
        ++ ((λ m, {| level := DEBUG; topic := Eval;
                     text := delayedErrorText n (printInline n) (ee m) |})
              <$> take dropped msgs)).
  { subst logged dropped. induction msgs as [|m msgs IH] using rev_ind.
    - simpl. subst cleared. unfold clearEvalErrorLog. rewrite Hmode. simpl.
      by rewrite app_nil_r.
    - rewrite foldl_app. simpl.
      destruct IH as (IHmode & IHin & IHlist & IHlog).
      set (G := foldl _ cleared msgs) in *.
      assert (Hold : errorsOf (evalErrorData G) (this n)
                     = ee <$> drop (length msgs - 2048) msgs).
      { unfold errorsOf. rewrite IHlist. case_bool_decide as Hnil.
        - subst msgs. by rewrite lookup_empty.
        - by rewrite lookup_singleton_eq. }
      assert (Hins : ∀ v, <[this n := v]> (errorList (evalErrorData G))
                          = {[ this n := v ]}).
      { intros v. rewrite IHlist.
        case_bool_decide; [apply insert_empty|apply insert_singleton_eq]. }
      rewrite (logEvalError_collect _ _ _ _ _ IHmode IHin). cbv zeta.
      rewrite Hold, Hins, length_fmap, length_drop, length_app. simpl.
      rewrite (bool_decide_eq_false_2 (msgs ++ [m] = []))
        by (by destruct msgs).
      destruct (decide (2048 ≤ length msgs)) as [Hfull|Hroom].
      + rewrite bool_decide_eq_true_2 by lia.
        destruct (lookup_lt_is_Some_2 msgs (length msgs - 2048)) as [x Hx];
          [lia|].
        rewrite (drop_S msgs x _ Hx). simpl.
        replace (length msgs + 1 - 2048) with (S (length msgs - 2048))
          by lia.
        split_and!; [done|done| |].
        * do 2 f_equal. rewrite drop_app_le by lia. by rewrite fmap_app.
        * rewrite IHlog, <- app_assoc. f_equal.
          rewrite take_app_le by lia.
          rewrite (take_S_r msgs _ x Hx). by rewrite fmap_app.
      + rewrite bool_decide_eq_false_2 by lia.
        replace (length msgs + 1 - 2048) with 0 by lia.
        replace (length msgs - 2048) with 0 in * by lia.
        rewrite drop_0 in *. rewrite take_0 in *. simpl.
        split_and!.
        * done.
        * by destruct (ee <$> msgs).
        * by rewrite ?drop_0, fmap_app.
        * destruct (ee <$> msgs); simpl; by rewrite IHlog. }
  destruct Hinv as (Hm & _ & Hlist & Hlog). split_and!; [| |done].
  - unfold errorsOf. rewrite Hlist. case_bool_decide as Hnil.
    + subst msgs. by rewrite lookup_empty.
    + by rewrite lookup_singleton_eq.
  - unfold numEvalErrors. rewrite Hm, Hlist. simpl. case_bool_decide as Hnil.
    + subst msgs. by rewrite map_fold_empty.
    + rewrite map_fold_singleton. simpl.
      rewrite length_fmap, length_drop. subst dropped.
      rewrite toInt_small by lia. lia.
Qed.

Lemma logEvalError_count printProxies printInline n g message :
  mode (evalErrorData g) = CountErrors →
  logEvalError printProxies printInline n g message None
  = setErrorData g {| mode := CountErrors;
                      count := incrInt (count (evalErrorData g));
                      errorList := errorList (evalErrorData g) |}.
Proof. intros Hmode. unfold logEvalError. by rewrite Hmode. Qed.

(** X9.  In CountErrors mode the errors are counted and nothing else
    happens: after the log is cleared and the nodes have logged a run of
    messages (fewer than 2^31), [numEvalErrors] is the length of the run,
    no message has been sent and the list of collected errors is as it
    was. *)
Theorem logEvalError_counts printProxies printInline g
    (events : list (Node * string)) :
  mode (evalErrorData g) = CountErrors →
  (Z.of_nat (length events) < 2147483648)%Z →
  let cleared := setErrorData g (clearEvalErrorLog (evalErrorData g)) in
  let logged :=
    foldl (λ g e, logEvalError printProxies printInline e.1 g e.2 None)
          cleared events in
  numEvalErrors (evalErrorData logged) = Z.of_nat (length events)
  ∧ errorList (evalErrorData logged) = errorList (evalErrorData g)
  ∧ msgLog logged = msgLog g.
Proof.
  intros Hmode Hlen cleared logged.
  assert (Hinv :
    mode (evalErrorData logged) = CountErrors
    ∧ count (evalErrorData logged) = Z.of_nat (length events)
    ∧ errorList (evalErrorData logged) = errorList (evalErrorData g)
    ∧ msgLog logged = msgLog g).
  { subst logged. induction events as [|e events IH] using rev_ind.
    - simpl. subst cleared. unfold clearEvalErrorLog. rewrite Hmode. done.
    - rewrite foldl_app. simpl. rewrite length_app in *. simpl in *.
      destruct IH as (IHmode & IHcount & IHlist & IHlog); [lia|].
      rewrite (logEvalError_count _ _ _ _ _ IHmode). simpl.
      split_and!; [done| |done..]. rewrite IHcount. unfold incrInt.
      destruct (Z.eqb_spec (Z.of_nat (length events) + 1) 2147483648); lia. }
  destruct Hinv as (Hm & Hc & Hl & Hg). split_and!; [|done..].
  unfold numEvalErrors. by rewrite Hm.
Qed.

Lemma logEvalError_bounded_step printProxies printInline n g message s :
  bounded (evalErrorData g) →
  bounded (evalErrorData
             (logEvalError printProxies printInline n g message s)).
Proof.
  intros Hb. unfold logEvalError. cbv zeta.
  destruct (decide (mode (evalErrorData g) = Ignore)); [done|].
  destruct (decide (mode (evalErrorData g) = CountErrors)).
  { intros k e0. simpl. apply Hb. }
  destruct (inLogEvalError g); [done|].
  destruct (decide (mode (evalErrorData g) = PrintErrors)); [done|].
  destruct (decide (mode (evalErrorData g) = CollectErrors)); [|done].
  set (l := errorList (evalErrorData g)) in *.
  assert (Hold : length (default ("", []) (l !! this n)).2 ≤ 2048).
  { destruct (l !! this n) as [e0|] eqn:He; simpl; [|lia].
    by apply (Hb (this n) e0). }
  assert (Hkept : ∀ kept,
    length kept < 2048 →
    bounded
      {| mode := mode (evalErrorData g); count := count (evalErrorData g);
         errorList := <[this n := (printInline n,
                          kept ++ [{| _msg := message;
                                      _srvval := default (printProxies n) s |}])]> l |}).
  { intros kept Hlen k e0. simpl.
    destruct (decide (k = this n)) as [->|Hne].
    - rewrite lookup_insert_eq. intros [= <-]. simpl.
      rewrite length_app. simpl. lia.
    - rewrite lookup_insert_ne by done. apply (Hb k e0). }
  case_bool_decide as Hfull.
  - destruct (default ("", []) (l !! this n)).2 as [|oee rest] eqn:Hl;
      simpl in *; [exfalso; lia|]. apply Hkept. lia.
  - simpl. apply Hkept. lia.
Qed.

(** X10.  The member [logEvalError] keeps every node's list within 2048
    messages: if no list is longer before a run of calls, by whatever
    nodes, in whatever mode and with whatever server strings, none is
    longer after it. *)
Theorem logEvalError_bounded printProxies printInline g
    (events : list (Node * string * option string)) :
  bounded (evalErrorData g) →
  bounded (evalErrorData
             (foldl (λ g e, logEvalError printProxies printInline e.1.1 g
                              e.1.2 e.2) g events)).
Proof.
  revert g. induction events as [|e events IH]; intros g Hb; [done|].
  simpl. apply IH. by apply logEvalError_bounded_step.
Qed.

(** X11.  The static [logEvalError] in CollectErrors mode, outside a
    report: the message is appended to the list of the originating node,
    however long that list is, the node is listed under the name given,
    no other list changes, nothing is printed, and [numEvalErrors] goes up
    by one. *)
Theorem logEvalErrorStatic_collects g originator origName message srv :
  mode (evalErrorData g) = CollectErrors →
  (numEvalErrors (evalErrorData g) < 2147483647)%Z →
  let logged := logEvalErrorStatic false g originator origName message srv in
  errorList (evalErrorData logged) !! originator
  = Some (origName,
          errorsOf (evalErrorData g) originator
            ++ [{| _msg := message; _srvval := default "" srv |}])
  ∧ (∀ k, k ≠ originator →
       errorList (evalErrorData logged) !! k
       = errorList (evalErrorData g) !! k)
  ∧ msgLog logged = msgLog g
  ∧ numEvalErrors (evalErrorData logged)
    = (numEvalErrors (evalErrorData g) + 1)%Z.
Proof.
  intros Hmode Hnum logged. subst logged.
  unfold logEvalErrorStatic, numEvalErrors, errorsOf in *.
  rewrite Hmode in *. simpl in *. split_and!.
  - by rewrite lookup_insert_eq.
  - intros k Hk. by rewrite lookup_insert_ne.
  - done.
  - rewrite sizes_insert. simpl. rewrite length_app. simpl.
    pose proof (sizes_range (errorList (evalErrorData g))).
    rewrite <- (toInt_small (sizes (errorList (evalErrorData g)) + 1)) by lia.
    f_equal. lia.
Qed.

(** *** The report *)

Lemma printDetails_from (m : nat) size : ∀ errors (j : nat),
  j ≤ S m →
  printDetails (Z.of_nat m) size (Z.of_nat j) errors
  = (detailLine <$> take (S (S m) - j) errors)
    ++ (if bool_decide (S (S m) - j ≤ length errors)
        then [suppressedLine (Z.of_nat m) size] else []).
Proof.
  induction errors as [|item2 rest IH]; intros j Hj.
  - simpl. rewrite bool_decide_eq_false_2 by lia. by rewrite take_nil.
  - simpl. destruct (Z.ltb_spec (Z.of_nat m) (Z.of_nat j)) as [Hlt|Hge].
    + assert (j = S m) as -> by lia.
      replace (S (S m) - S m) with 1 by lia. simpl. rewrite ?take_0.
      done.
    + replace (Z.of_nat j + 1)%Z with (Z.of_nat (S j)) by lia.
      rewrite IH by lia.
      replace (S (S m) - j) with (S (S (S m) - S j)) by lia. simpl.
      f_equal. f_equal.
      rewrite (bool_decide_ext (S m - j ≤ length rest)
                 (S (S m - j) ≤ S (length rest))) by lia. done.
Qed.

(** X12.  What [printEvalErrors] shows of one node: with [maxPerNode] zero
    the name and the number of its errors; with a positive [maxPerNode]
    the name, then the first [maxPerNode + 2] messages, then the notice
    about suppressed messages exactly when the node holds at least
    [maxPerNode + 2] messages. *)
Theorem printErrorsOf_shown (maxPerNode : nat) name errors :
  printErrorsOf (Z.of_nat maxPerNode) (name, errors)
  = if decide (maxPerNode = 0)
    then [name +:+ " has " +:+ pretty (length errors) +:+ " errors" +:+ endl]
    else (name +:+ endl)
         :: (detailLine <$> take (maxPerNode + 2) errors)
         ++ (if bool_decide (maxPerNode + 2 ≤ length errors)
             then [suppressedLine (Z.of_nat maxPerNode) (length errors)]
             else []).
Proof.
  unfold printErrorsOf. simpl.
  destruct (Z.eqb_spec (Z.of_nat maxPerNode) 0) as [Hz|Hnz].
  - rewrite decide_True by lia. done.
  - rewrite decide_False by lia. f_equal.
    pose proof (printDetails_from maxPerNode (length errors) errors 0) as H.
    change (Z.of_nat 0) with 0%Z in H. rewrite H by lia.
    replace (S (S maxPerNode) - 0) with (maxPerNode + 2) by lia. done.
Qed.

(** *** The log and the cache, evaluated *)

Lemma logEvalError_keeps_latest_witness :
  let ee := λ m, {| _msg := m; _srvval := "" |} in
  let logged :=
    foldl (λ g m, logEvalError noText noText (node dirtyNode) g m None)
          (setErrorData collectingGlobal
             (clearEvalErrorLog (evalErrorData collectingGlobal)))
          ["a"; "b"; "c"] in
  errorsOf (evalErrorData logged) 1 = [ee "a"; ee "b"; ee "c"]
  ∧ numEvalErrors (evalErrorData logged) = 3%Z
  ∧ msgLog logged = [].
Proof.
  exact (logEvalError_keeps_latest noText noText (node dirtyNode)
           collectingGlobal ["a"; "b"; "c"] eq_refl eq_refl).
Defined.

Lemma logEvalError_counts_witness :
  let logged :=
    foldl (λ g e, logEvalError noText noText e.1 g e.2 None)
          (setErrorData countingGlobal
             (clearEvalErrorLog (evalErrorData countingGlobal)))
          [(node dirtyNode, "a"); (node (nodeInMode Auto false), "b")] in
  numEvalErrors (evalErrorData logged) = 2%Z
  ∧ errorList (evalErrorData logged) = ∅
  ∧ msgLog logged = [].
Proof.
  exact (logEvalError_counts noText noText countingGlobal
           [(node dirtyNode, "a"); (node (nodeInMode Auto false), "b")]
           eq_refl eq_refl).
Defined.

Lemma logEvalError_bounded_witness :
  bounded (evalErrorData
             (foldl (λ g e, logEvalError noText noText e.1.1 g e.1.2 e.2)
                    collectingGlobal
                    [(node dirtyNode, "a", None);
                     (node dirtyNode, "b", Some "x=1")])).
Proof.
  apply (logEvalError_bounded noText noText collectingGlobal).
  intros k e He. vm_compute in He. discriminate.
Defined.

Lemma logEvalErrorStatic_collects_witness :
  let logged := logEvalErrorStatic false collectingGlobal 7 "remote"
                  "function value is NAN" None in
  errorList (evalErrorData logged) !! 7
  = Some ("remote", [{| _msg := "function value is NAN"; _srvval := "" |}])
  ∧ (∀ k, k ≠ 7 → errorList (evalErrorData logged) !! k = None)
  ∧ msgLog logged = []
  ∧ numEvalErrors (evalErrorData logged) = 1%Z.
Proof.
  exact (logEvalErrorStatic_collects collectingGlobal 7 "remote"
           "function value is NAN" None eq_refl eq_refl).
Defined.

Lemma getValV_exception_witness :
  getValV evaluateThrows (offsetBy 0) alwaysValid recordNormSet noText noText
    noText dirtyNode None
  = (inl (runtime_error "no value"),
     {| node := setValueDirtyFlag (node dirtyNode) false;
        glob := quietGlobal; evaluations := 1 |})
  ∧ getValV evaluateThrows (offsetBy 0) alwaysValid recordNormSet noText
      noText noText
      {| node := setValueDirtyFlag (node dirtyNode) false;
         glob := quietGlobal; evaluations := 1 |} None
    = (inr 1%float,
       {| node := setValueDirtyFlag (node dirtyNode) false;
          glob := quietGlobal; evaluations := 1 |}).
Proof.
  destruct (getValV_exception evaluateThrows (offsetBy 0) alwaysValid
              recordNormSet noText noText noText dirtyNode None
              (runtime_error "no value") eq_refl eq_refl)
    as (Hfirst & _ & Hsecond).
  split; [exact Hfirst|exact (Hsecond eq_refl)].
Defined.

Lemma redirectServersHook_renews_witness :
  let n' := (redirectServersHook 0 true (node (nodeInMode Auto false))).2 in
  updateNormSet recordNormSet n' (Some 7)
  = setLastNormSetId (recordNormSet n' 7) 7.
Proof.
  intros n'.
  apply (redirectServersHook_renews recordNormSet 0 true
           (node (nodeInMode Auto false)) 7).
  lia.
Defined.

End Caching.

(** ** The scalar fallback of batch evaluation *)

Module Batch.

(** The members of a server that [doEval] reads or writes.  A category
    caches an index, every other server a [double]. *)
Record ServerState := {
  isCategory : bool;
  _value : float;
  _currentIndex : Z;
  _operMode : OperMode;
  _valueDirty : bool;
  _shapeDirty : bool
}.

(** The servers, by address. *)
Abbreviation Heap := (gmap nat ServerState).

Record ServerData := {
  server : nat;
  batch : list float;
  oldValue : float;
  oldOperMode : OperMode;
  oldValueDirty : bool;
  oldShapeDirty : bool
}.

(** What a call of [doEval] leaves behind: the exception it exits with, if
    any, the servers, the output buffer and the messages sent. *)
Record Result := {
  thrown : option Exception;
  heap : Heap;
  output : list float;
  messages : Log
}.

(** Modelled from the spec: [RooAbsArg::setOperMode], defined in
    RooAbsArg.cxx; it forces the operating mode of the server. *)
Definition setOperMode (s : ServerState) (m : OperMode) : ServerState :=
  {| isCategory := isCategory s; _value := _value s;
     _currentIndex := _currentIndex s; _operMode := m;
     _valueDirty := _valueDirty s; _shapeDirty := _shapeDirty s |}.

Definition setDirtyFlags (s : ServerState) (v sh : bool) : ServerState :=
  {| isCategory := isCategory s; _value := _value s;
     _currentIndex := _currentIndex s; _operMode := _operMode s;
     _valueDirty := v; _shapeDirty := sh |}.

(** [setValueDirty()] seen from the server itself: outside Auto mode
    nothing happens. *)
Definition setValueDirty (s : ServerState) : ServerState :=
  match _operMode s with
  | Auto => setDirtyFlags s true (_shapeDirty s)
  | _ => s
  end.

Section DoEval.

(** The conversions between a category index and [double]. *)
Variable int_to_double : Z → float.
Variable double_to_int : float → Z.
(** [evaluate()] of the node, which reads its servers. *)
Variable evaluate : Heap → Exception + float.
(** [ctx.at(server)]: the buffer of a server, empty if it has none. *)
Variable ctx : nat → list float.
Variable ClassName : string.
(** The FastEvaluations topic is active at INFO level. *)
Variable isActive : bool.

(** Modelled from the spec: [setCachedValue(value, notifyClients)], defined
    inline in RooAbsReal.h and RooAbsCategory.h; it force-sets the cached
    value and, when clients are notified, leaves the value clean. *)
Definition setCachedValue (s : ServerState) (value : float)
    (notifyClients : bool) : ServerState :=
  let s1 :=
    if isCategory s then
      {| isCategory := isCategory s; _value := _value s;
         _currentIndex := double_to_int value; _operMode := _operMode s;
         _valueDirty := _valueDirty s; _shapeDirty := _shapeDirty s |}
    else
      {| isCategory := isCategory s; _value := value;
         _currentIndex := _currentIndex s; _operMode := _operMode s;
         _valueDirty := _valueDirty s; _shapeDirty := _shapeDirty s |} in
  if notifyClients
  then setDirtyFlags (setValueDirty s1) false (_shapeDirty (setValueDirty s1))
  else s1.

(** A server that the heap does not hold reads as this one. *)
Definition nullServer : ServerState :=
  {| isCategory := false; _value := 0%float; _currentIndex := 0;
     _operMode := Auto; _valueDirty := false; _shapeDirty := false |}.

Definition deref (h : Heap) (p : nat) : ServerState :=
  default nullServer (h !! p).

(** One turn of the loop over [servers()]. *)
Definition snapshot (acc : Heap * list ServerData) (p : nat)
  : Heap * list ServerData :=
  let '(h, ourServers) := acc in
  let serverValues := ctx p in
  if bool_decide (serverValues = []) then acc
  else
    let oldOperMode := _operMode (deref h p) in
    let h' := alter (λ s, setOperMode s AClean) p h in
    (h', ourServers ++
         [{| server := p; batch := serverValues;
             oldValue := if isCategory (deref h' p)
                         then int_to_double (_currentIndex (deref h' p))
                         else _value (deref h' p);
             oldOperMode := oldOperMode;
             oldValueDirty := _valueDirty (deref h' p);
             oldShapeDirty := _shapeDirty (deref h' p) |}]).

Definition restoreOne (serverData : ServerData) (s : ServerState)
  : ServerState :=
  let s1 := setCachedValue s (oldValue serverData) true in
  let s2 := setOperMode s1 (oldOperMode serverData) in
  setDirtyFlags s2 (oldValueDirty serverData) (oldShapeDirty serverData).

(** The destructor of [RestoreStateRAII]. *)
Definition restoreState (_servers : list ServerData) (h : Heap) : Heap :=
  foldl (λ h serverData, alter (restoreOne serverData) (server serverData) h)
        h _servers.

(** [serv.batch[std::min(i, serv.batch.size()-1)]]. *)
Definition eventValue (b : list float) (i : nat) : float :=
  nth (i `min` (length b - 1)) b 0%float.

(** The inner loop: the values of event [i] are written into the caches. *)
Definition loadEvent (ourServers : list ServerData) (i : nat) (h : Heap)
  : Heap :=
  foldl (λ h serv,
           alter (λ s, setCachedValue s (eventValue (batch serv) i) false)
                 (server serv) h)
        h ourServers.

(** The loop over the output from index [i] on, [todo] entries left. *)
Fixpoint eventLoop (todo i : nat) (ourServers : list ServerData) (h : Heap)
    (out : list float) : option Exception * Heap * list float :=
  match todo with
  | O => (None, h, out)
  | S todo' =>
      let h' := loadEvent ourServers i h in
      match evaluate h' with
      | inl exn => (Some exn, h', out)
      | inr v => eventLoop todo' (S i) ourServers h' (<[i := v]> out)
      end
  end.

Definition adviceText : string :=
  "The class " +:+ ClassName
    +:+ " does not implement the faster batch evaluation interface."
    +:+ " Consider requesting or implementing it to benefit from a speed up.".

(** [doEval].  The guard object is built once the servers are switched, so
    its destructor runs however the loop is left. *)
Definition doEval (servers : list nat) (out : list float) (h : Heap)
  : Result :=
  let '(h1, ourServers) := foldl snapshot (h, []) servers in
  let msgs :=
    if bool_decide (1 < length out) && isActive
    then [{| level := INFO; topic := FastEvaluations; text := adviceText |}]
    else [] in
  let '(exn, h2, out') := eventLoop (length out) 0 ourServers h1 out in
  {| thrown := exn; heap := restoreState ourServers h2; output := out';
     messages := msgs |}.

(** The state of the servers in which the specification has event [i]
    evaluated: every server with a buffer is in AlwaysClean mode and caches
    the entry of its buffer at [min i (length - 1)]; every other server is
    as it was. *)
Definition eventHeap (servers : list nat) (h : Heap) (i : nat) : Heap :=
  map_imap (λ p s,
              Some (if bool_decide (p ∈ servers ∧ ctx p ≠ [])
                    then setCachedValue (setOperMode s AClean)
                                        (eventValue (ctx p) i) false
                    else s)) h.

(** The servers that have a buffer, and what is recorded of each. *)
Definition buffered (servers : list nat) : list nat :=
  filter (λ p, ctx p ≠ []) servers.

Definition recorded (h : Heap) (p : nat) : ServerData :=
  {| server := p; batch := ctx p;
     oldValue := if isCategory (deref h p)
                 then int_to_double (_currentIndex (deref h p))
                 else _value (deref h p);
     oldOperMode := _operMode (deref h p);
     oldValueDirty := _valueDirty (deref h p);
     oldShapeDirty := _shapeDirty (deref h p) |}.

Definition forceClean (ps : list nat) (h : Heap) : Heap :=
  foldl (λ h p, alter (λ s, setOperMode s AClean) p h) h ps.

(** The output as the specification has it: entry [i] is the value of
    [evaluate()] in [eventHeap i]; the first exception ends the run. *)
Fixpoint specLoop (servers : list nat) (h : Heap) (todo i : nat)
    (out : list float) : option Exception * list float :=
  match todo with
  | O => (None, out)
  | S todo' =>
      match evaluate (eventHeap servers h i) with
      | inl exn => (Some exn, out)
      | inr v => specLoop servers h todo' (S i) (<[i := v]> out)
      end
  end.

(** The heaps the loop can be in: the servers just switched, or loaded
    with some event. *)
Definition inLoop (servers : list nat) (h h' : Heap) : Prop :=
  h' = forceClean (buffered servers) h ∨ ∃ j, h' = eventHeap servers h j.

(** *** Three servers: a variable and a category with buffers, and a
        variable without *)

Definition threeServers : Heap :=
  {[ 1 := {| isCategory := false; _value := 7%float; _currentIndex := 0;
             _operMode := Auto; _valueDirty := true; _shapeDirty := false |};
     2 := {| isCategory := true; _value := 0%float; _currentIndex := 4;
             _operMode := ADirty; _valueDirty := false; _shapeDirty := true |};
     3 := {| isCategory := false; _value := 5%float; _currentIndex := 0;
             _operMode := Auto; _valueDirty := false; _shapeDirty := false |}
  ]}.

Definition threeBuffers (p : nat) : list float :=
  match p with
  | 1 => [10; 20; 30]%float
  | 2 => [1]%float
  | _ => []
  end.

(** The first variable plus the index of the category plus the second
    variable. *)
Definition sumOfServers (h : Heap) : Exception + float :=
  inr (_value (deref h 1)
       + Double.int_to_double (_currentIndex (deref h 2))
       + _value (deref h 3))%float.

(** No server comes with a buffer. *)
Definition noBuffers (p : nat) : list float := [].

(** The same, but the value 20 of the first variable is refused. *)
Definition sumRefusing20 (h : Heap) : Exception + float :=
  if (_value (deref h 1) =? 20)%float
  then inl (runtime_error "refused")
  else sumOfServers h.

(** *** Folding [alter] over distinct addresses *)

Lemma foldl_alter_notin {X} (key : X → nat) (f : X → ServerState → ServerState)
    (xs : list X) : ∀ (h : Heap) p,
  p ∉ key <$> xs →
  foldl (λ h x, alter (f x) (key x) h) h xs !! p = h !! p.
Proof.
  induction xs as [|x xs IH]; intros h p Hp; [done|]. simpl.
  rewrite fmap_cons in Hp. apply not_elem_of_cons in Hp as [Hne Hp].
  rewrite IH by done. by apply lookup_alter_ne.
Qed.

Lemma foldl_alter_in {X} (key : X → nat) (f : X → ServerState → ServerState)
    (xs : list X) : ∀ (h : Heap) x,
  NoDup (key <$> xs) → x ∈ xs →
  foldl (λ h x, alter (f x) (key x) h) h xs !! key x = f x <$> h !! key x.
Proof.
  induction xs as [|x0 xs IH]; intros h x Hnd Hx.
  - by apply not_elem_of_nil in Hx.
  - rewrite fmap_cons in Hnd. apply NoDup_cons in Hnd as [Hn0 Hnd]. simpl.
    apply elem_of_cons in Hx as [->|Hx].
    + rewrite foldl_alter_notin by done. apply lookup_alter_eq.
    + rewrite IH by done. rewrite lookup_alter_ne; [done|].
      intros Heq. apply Hn0. rewrite Heq. by apply list_elem_of_fmap_2.
Qed.

Lemma elem_of_buffered servers p :
  p ∈ buffered servers ↔ p ∈ servers ∧ ctx p ≠ [].
Proof. unfold buffered. rewrite list_elem_of_filter. tauto. Qed.

Lemma NoDup_buffered servers : NoDup servers → NoDup (buffered servers).
Proof. apply NoDup_filter. Qed.

Lemma lookup_forceClean (ps : list nat) h p :
  NoDup ps →
  forceClean ps h !! p
  = if decide (p ∈ ps) then (λ s, setOperMode s AClean) <$> h !! p
    else h !! p.
Proof.
  intros Hnd. unfold forceClean. case_decide as Hin.
  - apply (foldl_alter_in id (λ _ s, setOperMode s AClean) ps h p);
      [by rewrite list_fmap_id|done].
  - apply (foldl_alter_notin id (λ _ s, setOperMode s AClean)).
    by rewrite list_fmap_id.
Qed.

Lemma server_recorded h (ps : list nat) :
  server <$> (recorded h <$> ps) = ps.
Proof.
  rewrite <- list_fmap_compose. rewrite <- (list_fmap_id ps) at 2.
  by apply list_fmap_ext.
Qed.

Lemma lookup_loadEvent h0 (ps : list nat) i h p :
  NoDup ps →
  loadEvent (recorded h0 <$> ps) i h !! p
  = if decide (p ∈ ps)
    then (λ s, setCachedValue s (eventValue (ctx p) i) false) <$> h !! p
    else h !! p.
Proof.
  intros Hnd. unfold loadEvent. case_decide as Hin.
  - apply (foldl_alter_in server
      (λ serv s, setCachedValue s (eventValue (batch serv) i) false)
      (recorded h0 <$> ps) h (recorded h0 p)).
    + by rewrite server_recorded.
    + by apply list_elem_of_fmap_2.
  - apply (foldl_alter_notin server
      (λ serv s, setCachedValue s (eventValue (batch serv) i) false)).
    by rewrite server_recorded.
Qed.

Lemma lookup_restoreState h0 (ps : list nat) h p :
  NoDup ps →
  restoreState (recorded h0 <$> ps) h !! p
  = if decide (p ∈ ps) then restoreOne (recorded h0 p) <$> h !! p
    else h !! p.
Proof.
  intros Hnd. unfold restoreState. case_decide as Hin.
  - apply (foldl_alter_in server restoreOne
      (recorded h0 <$> ps) h (recorded h0 p)).
    + by rewrite server_recorded.
    + by apply list_elem_of_fmap_2.
  - apply (foldl_alter_notin server restoreOne).
    by rewrite server_recorded.
Qed.

Lemma lookup_eventHeap servers h i p :
  eventHeap servers h i !! p
  = if decide (p ∈ buffered servers)
    then (λ s, setCachedValue (setOperMode s AClean)
                              (eventValue (ctx p) i) false) <$> h !! p
    else h !! p.
Proof.
  unfold eventHeap. rewrite map_lookup_imap.
  destruct (h !! p) as [s|]; simpl; [|by case_decide].
  case_decide as Hin; apply elem_of_buffered in Hin ||
    rewrite elem_of_buffered in Hin.
  - by rewrite bool_decide_eq_true_2.
  - by rewrite bool_decide_eq_false_2.
Qed.

(** *** The loop over [servers()] *)

Lemma deref_alter_setOperMode h p q m :
  let s' := deref (alter (λ s, setOperMode s m) p h) q in
  isCategory s' = isCategory (deref h q)
  ∧ _value s' = _value (deref h q)
  ∧ _currentIndex s' = _currentIndex (deref h q)
  ∧ _valueDirty s' = _valueDirty (deref h q)
  ∧ _shapeDirty s' = _shapeDirty (deref h q)
  ∧ (p ≠ q → _operMode s' = _operMode (deref h q)).
Proof.
  unfold deref. destruct (decide (p = q)) as [->|Hne].
  - rewrite lookup_alter_eq. by destruct (h !! q).
  - by rewrite lookup_alter_ne.
Qed.

Lemma recorded_alter h p q m :
  p ≠ q → recorded (alter (λ s, setOperMode s m) p h) q = recorded h q.
Proof.
  intros Hne. unfold recorded.
  destruct (deref_alter_setOperMode h p q m) as (-> & -> & -> & -> & -> & ->);
    done.
Qed.

Lemma snapshot_foldl servers : ∀ h acc,
  NoDup servers →
  foldl snapshot (h, acc) servers
  = (forceClean (buffered servers) h,
     acc ++ (recorded h <$> buffered servers)).
Proof.
  induction servers as [|p servers IH]; intros h acc Hnd.
  - simpl. by rewrite app_nil_r.
  - apply NoDup_cons in Hnd as [Hp Hnd]. simpl. unfold buffered.
    case_bool_decide as Hb.
    + rewrite filter_cons_False by (by intros Hn). by apply IH.
    + rewrite filter_cons_True by done. rewrite IH by done. simpl.
      f_equal. rewrite <- app_assoc. f_equal. simpl. f_equal.
      * unfold recorded.
        destruct (deref_alter_setOperMode h p p AClean)
          as (-> & -> & -> & -> & -> & _); done.
      * apply Forall_fmap_ext_1, Forall_forall. intros q Hq.
        apply recorded_alter. intros ->.
        apply list_elem_of_filter in Hq as [_ Hq]. done.
Qed.

(** *** The loop over the events *)

Lemma setCachedValue_overwrite s v w :
  setCachedValue (setCachedValue s v false) w false = setCachedValue s w false.
Proof. unfold setCachedValue. by destruct s as [[] ? ? ? ? ?]. Qed.

Lemma loadEvent_first servers h i :
  NoDup servers →
  loadEvent (recorded h <$> buffered servers) i
            (forceClean (buffered servers) h)
  = eventHeap servers h i.
Proof.
  intros Hnd%NoDup_buffered. apply map_eq. intros p.
  rewrite lookup_loadEvent, lookup_forceClean, lookup_eventHeap by done.
  case_decide; [|done]. by destruct (h !! p).
Qed.

Lemma loadEvent_next servers h i j :
  NoDup servers →
  loadEvent (recorded h <$> buffered servers) i (eventHeap servers h j)
  = eventHeap servers h i.
Proof.
  intros Hnd%NoDup_buffered. apply map_eq. intros p.
  rewrite lookup_loadEvent, !lookup_eventHeap by done.
  case_decide; [|done]. destruct (h !! p) as [s0|]; [|done].
  cbn [fmap option_fmap option_map]. f_equal.
  apply setCachedValue_overwrite.
Qed.

Lemma eventLoop_specLoop servers h : NoDup servers → ∀ todo i h' out,
  inLoop servers h h' →
  ∃ h'', eventLoop todo i (recorded h <$> buffered servers) h' out
         = ((specLoop servers h todo i out).1, h'',
            (specLoop servers h todo i out).2)
         ∧ inLoop servers h h''.
Proof.
  intros Hnd. induction todo as [|todo IH]; intros i h' out Hin; simpl.
  - by exists h'.
  - assert (Hload : loadEvent (recorded h <$> buffered servers) i h'
                    = eventHeap servers h i).
    { destruct Hin as [->|[j ->]];
        [by apply loadEvent_first|by apply loadEvent_next]. }
    rewrite Hload. destruct (evaluate (eventHeap servers h i)) as [exn|v].
    + eexists. split; [done|]. right. by exists i.
    + apply IH. right. by exists i.
Qed.

Lemma specLoop_before servers h : ∀ todo i out k,
  k < i → (specLoop servers h todo i out).2 !! k = out !! k.
Proof.
  induction todo as [|todo IH]; intros i out k Hk; simpl; [done|].
  destruct (evaluate _); [done|].
  rewrite IH by lia. apply list_lookup_insert_ne. lia.
Qed.

Lemma specLoop_length servers h : ∀ todo i out,
  length (specLoop servers h todo i out).2 = length out.
Proof.
  induction todo as [|todo IH]; intros i out; simpl; [done|].
  destruct (evaluate _); [done|]. by rewrite IH, length_insert.
Qed.

Lemma specLoop_at servers h : ∀ todo i out k v,
  i ≤ k < i + todo → k < length out →
  (∀ j, i ≤ j < k → ∃ vj, evaluate (eventHeap servers h j) = inr vj) →
  evaluate (eventHeap servers h k) = inr v →
  (specLoop servers h todo i out).2 !! k = Some v.
Proof.
  induction todo as [|todo IH]; intros i out k v Hk Hlen Hprev Hv; [lia|].
  simpl. destruct (decide (i = k)) as [->|Hne].
  - rewrite Hv. rewrite specLoop_before by lia.
    by apply list_lookup_insert_eq.
  - destruct (Hprev i) as [vi Hvi]; [lia|]. rewrite Hvi.
    apply IH; [lia|by rewrite length_insert| |done].
    intros j Hj. apply Hprev. lia.
Qed.

Lemma doEval_specLoop servers out h :
  NoDup servers →
  thrown (doEval servers out h) = (specLoop servers h (length out) 0 out).1
  ∧ output (doEval servers out h) = (specLoop servers h (length out) 0 out).2
  ∧ ∃ h', inLoop servers h h'
          ∧ heap (doEval servers out h)
            = restoreState (recorded h <$> buffered servers) h'.
Proof.
  intros Hnd. unfold doEval. rewrite snapshot_foldl by done. simpl.
  destruct (eventLoop_specLoop servers h Hnd (length out) 0
              (forceClean (buffered servers) h) out) as (h' & -> & Hin);
    [by left|].
  simpl. split_and!; [done..|]. by exists h'.
Qed.

Lemma eventValue_broadcast c i : eventValue [c] i = c.
Proof. unfold eventValue. simpl. by rewrite Nat.min_0_r. Qed.

(** C5.  With distinct servers, entry [i] of the output is the value of
    [evaluate()] in the state where every server with a buffer is in
    AlwaysClean mode and caches the entry [min i (length - 1)] of its
    buffer, as long as the evaluations up to [i] return; a buffer of
    length one supplies its single entry to every event. *)
Theorem doEval_output servers out h i v :
  NoDup servers → i < length out →
  (∀ j, j < i → ∃ vj, evaluate (eventHeap servers h j) = inr vj) →
  evaluate (eventHeap servers h i) = inr v →
  output (doEval servers out h) !! i = Some v
  ∧ length (output (doEval servers out h)) = length out
  ∧ ∀ p s, eventHeap servers h i !! p = Some s → p ∈ buffered servers →
      _operMode s = AClean
      ∧ (isCategory s = false → _value s = eventValue (ctx p) i)
      ∧ (isCategory s = true
         → _currentIndex s = double_to_int (eventValue (ctx p) i))
      ∧ ∀ c, ctx p = [c] → eventValue (ctx p) i = c.
Proof.
  intros Hnd Hi Hprev Hv.
  destruct (doEval_specLoop servers out h Hnd) as (_ & -> & _).
  split_and!.
  - apply specLoop_at; [lia|done| |done]. intros j Hj. apply Hprev. lia.
  - apply specLoop_length.
  - intros p s Hs Hp. rewrite lookup_eventHeap in Hs.
    rewrite decide_True in Hs by done.
    destruct (h !! p) as [s0|]; [|done]. simpl in Hs.
    injection Hs as <-. unfold setCachedValue.
    destruct s0 as [[] ? ? ? ? ?]; simpl; split_and!; try done;
      intros c ->; apply eventValue_broadcast.
Qed.

(** *** The guard *)

Lemma restoreOne_recorded h p st v :
  h !! p = Some st →
  (isCategory st = true →
   double_to_int (int_to_double (_currentIndex st)) = _currentIndex st) →
  restoreOne (recorded h p) (setOperMode st AClean) = st
  ∧ restoreOne (recorded h p) (setCachedValue (setOperMode st AClean) v false)
    = st.
Proof.
  intros Hst Hround. unfold recorded, deref. rewrite Hst. simpl.
  unfold restoreOne, setCachedValue, setValueDirty. simpl.
  destruct st as [[] val idx m vd sd]; simpl in *;
    rewrite ?Hround by done; done.
Qed.

(** C6.  With distinct servers, [doEval] leaves every server exactly as it
    found it (cached value or index, operating mode and both dirty flags),
    whether the loop ran to its end or was left by an exception of
    [evaluate()].  The index of a category comes back through [double]. *)
Theorem doEval_restores servers out h :
  NoDup servers →
  (∀ p st, p ∈ servers → h !! p = Some st → isCategory st = true →
     double_to_int (int_to_double (_currentIndex st)) = _currentIndex st) →
  heap (doEval servers out h) = h.
Proof.
  intros Hnd Hround.
  destruct (doEval_specLoop servers out h Hnd) as (_ & _ & h' & Hin & ->).
  apply map_eq. intros p.
  rewrite lookup_restoreState by (by apply NoDup_buffered).
  case_decide as Hp.
  - destruct (h !! p) as [st|] eqn:Hst.
    + apply elem_of_buffered in Hp as Hp'. destruct Hp' as [Hp' _].
      destruct Hin as [->|[j ->]].
      * rewrite lookup_forceClean by (by apply NoDup_buffered).
        rewrite decide_True by done. rewrite Hst.
        cbn [fmap option_fmap option_map]. f_equal.
        apply (restoreOne_recorded h p st 0%float); [done|exact (Hround p st Hp' Hst)].
      * rewrite lookup_eventHeap. rewrite decide_True by done. rewrite Hst.
        cbn [fmap option_fmap option_map]. f_equal.
        apply (restoreOne_recorded h p st); [done|exact (Hround p st Hp' Hst)].
    + destruct Hin as [->|[j ->]].
      * rewrite lookup_forceClean by (by apply NoDup_buffered).
        rewrite decide_True by done. by rewrite Hst.
      * rewrite lookup_eventHeap. rewrite decide_True by done. by rewrite Hst.
  - destruct Hin as [->|[j ->]].
    + rewrite lookup_forceClean by (by apply NoDup_buffered).
      by rewrite decide_False.
    + rewrite lookup_eventHeap. by rewrite decide_False.
Qed.

(** *** An exception in the middle, and a node without buffers *)

Lemma specLoop_throw servers h : ∀ todo i out k exn,
  i ≤ k < i + todo →
  (∀ j, i ≤ j < k → ∃ vj, evaluate (eventHeap servers h j) = inr vj) →
  evaluate (eventHeap servers h k) = inl exn →
  (specLoop servers h todo i out).1 = Some exn
  ∧ ∀ j, k ≤ j → (specLoop servers h todo i out).2 !! j = out !! j.
Proof.
  induction todo as [|todo IH]; intros i out k exn Hk Hprev Hexn; [lia|].
  simpl. destruct (decide (i = k)) as [->|Hne].
  - by rewrite Hexn.
  - destruct (Hprev i) as [vi Hvi]; [lia|]. rewrite Hvi.
    destruct (IH (S i) (<[i := vi]> out) k exn) as [Hthrown Hkeep];
      [lia| |done|].
    { intros j Hj. apply Hprev. lia. }
    split; [done|]. intros j Hj. rewrite Hkeep by done.
    apply list_lookup_insert_ne. lia.
Qed.

(** X15.  When [evaluate()] throws at event [k], having returned at the
    events before, [doEval] passes the exception on; the output holds the
    values of the events before [k], and from [k] on it is as the caller
    handed it in. *)
Theorem doEval_exception servers out h k exn :
  NoDup servers → k < length out →
  (∀ j, j < k → ∃ vj, evaluate (eventHeap servers h j) = inr vj) →
  evaluate (eventHeap servers h k) = inl exn →
  thrown (doEval servers out h) = Some exn
  ∧ (∀ j vj, j < k → evaluate (eventHeap servers h j) = inr vj →
       output (doEval servers out h) !! j = Some vj)
  ∧ (∀ j, k ≤ j → output (doEval servers out h) !! j = out !! j)
  ∧ length (output (doEval servers out h)) = length out.
Proof.
  intros Hnd Hk Hprev Hexn.
  destruct (doEval_specLoop servers out h Hnd) as (-> & -> & _).
  destruct (specLoop_throw servers h (length out) 0 out k exn)
    as [Hthrown Hkeep]; [lia| |done|].
  { intros j Hj. apply Hprev. lia. }
  split_and!; [done| |done|apply specLoop_length].
  intros j vj Hj Hvj. apply specLoop_at; [lia|lia| |done].
  intros j' Hj'. apply Hprev. lia.
Qed.

Lemma eventHeap_no_buffers servers h i :
  buffered servers = [] → eventHeap servers h i = h.
Proof.
  intros Hnone. apply map_eq. intros p. rewrite lookup_eventHeap, Hnone.
  rewrite decide_False; [done|]. apply not_elem_of_nil.
Qed.

(** X16.  When none of the servers comes with a buffer, [doEval] touches
    no server: every entry of the output is the value of [evaluate()] in
    the state the servers are in, or, if that evaluation throws and there
    is an entry to fill, the exception is passed on and the output stays
    as it was. *)
Theorem doEval_no_buffers servers out h :
  NoDup servers → (∀ p, p ∈ servers → ctx p = []) →
  heap (doEval servers out h) = h
  ∧ match evaluate h with
    | inr v =>
        thrown (doEval servers out h) = None
        ∧ output (doEval servers out h) = replicate (length out) v
    | inl exn =>
        thrown (doEval servers out h)
        = (if bool_decide (out = []) then None else Some exn)
        ∧ output (doEval servers out h) = out
    end.
Proof.
  intros Hnd Hnone.
  assert (Hbuf : buffered servers = []).
  { apply elem_of_nil_inv. intros p [Hp Hctx]%elem_of_buffered.
    by apply Hctx, Hnone. }
  destruct (doEval_specLoop servers out h Hnd) as (-> & -> & h' & Hin & ->).
  split.
  - rewrite Hbuf. simpl.
    destruct Hin as [->|[j ->]]; [by rewrite Hbuf|].
    by apply eventHeap_no_buffers.
  - destruct (evaluate h) as [exn|v] eqn:Hev.
    + destruct out as [|o out]; [done|]. simpl.
      by rewrite eventHeap_no_buffers, Hev.
    + assert (Hall : ∀ k, k < length out →
        (specLoop servers h (length out) 0 out).2 !! k = Some v).
      { intros k Hk. apply specLoop_at; [lia|done| |].
        - intros j _. exists v. by rewrite eventHeap_no_buffers.
        - by rewrite eventHeap_no_buffers. }
      split.
      * assert (Hno : ∀ todo i o, (specLoop servers h todo i o).1 = None).
        { induction todo as [|todo IH]; intros i o; simpl; [done|].
          rewrite eventHeap_no_buffers, Hev by done. apply IH. }
        apply Hno.
      * apply list_eq. intros k.
        destruct (decide (k < length out)) as [Hk|Hk].
        -- rewrite Hall by done. symmetry. by apply lookup_replicate_2.
        -- rewrite !lookup_ge_None_2; [done|rewrite length_replicate; lia|].
           rewrite specLoop_length. lia.
Qed.

End DoEval.

(** *** The three servers, evaluated *)

Lemma doEval_output_witness :
  output (doEval Double.int_to_double Double.double_to_int sumOfServers
            threeBuffers "RooFormulaVar" true [1; 2; 3] [0; 0; 0]%float
            threeServers) !! 1
  = Some 26%float.
Proof.
  refine (proj1 (doEval_output Double.int_to_double Double.double_to_int
    sumOfServers threeBuffers "RooFormulaVar" true [1; 2; 3] [0; 0; 0]%float
    threeServers 1 26%float _ _ _ _)).
  - apply (bool_decide_unpack _). vm_compute. exact I.
  - simpl. lia.
  - intros j Hj. assert (j = 0) as -> by lia. eexists. vm_compute.
    reflexivity.
  - vm_compute. reflexivity.
Defined.

Lemma doEval_restores_witness :
  thrown (doEval Double.int_to_double Double.double_to_int sumRefusing20
            threeBuffers "RooFormulaVar" true [1; 2; 3] [0; 0; 0]%float
            threeServers)
  = Some (runtime_error "refused")
  ∧ heap (doEval Double.int_to_double Double.double_to_int sumRefusing20
            threeBuffers "RooFormulaVar" true [1; 2; 3] [0; 0; 0]%float
            threeServers)
    = threeServers.
Proof.
  split; [vm_compute; reflexivity|].
  apply (doEval_restores Double.int_to_double Double.double_to_int
           sumRefusing20 threeBuffers "RooFormulaVar" true).
  - apply (bool_decide_unpack _). vm_compute. exact I.
  - intros p st Hp Hst Hc.
    assert (p = 1 ∨ p = 2 ∨ p = 3) as [-> | [-> | ->]] by set_solver;
      vm_compute in Hst; injection Hst as <-; vm_compute; reflexivity.
Defined.

Lemma doEval_exception_witness :
  let r := doEval Double.int_to_double Double.double_to_int sumRefusing20
             threeBuffers "RooFormulaVar" true [1; 2; 3] [0; 0; 0]%float
             threeServers in
  thrown r = Some (runtime_error "refused")
  ∧ output r !! 0 = Some 16%float
  ∧ output r !! 2 = Some 0%float.
Proof.
  destruct (doEval_exception Double.int_to_double Double.double_to_int
              sumRefusing20 threeBuffers "RooFormulaVar" true [1; 2; 3]
              [0; 0; 0]%float threeServers 1 (runtime_error "refused"))
    as (Hthrown & Hbefore & Hafter & _).
  - apply (bool_decide_unpack _). vm_compute. exact I.
  - simpl. lia.
  - intros j Hj. assert (j = 0) as -> by lia. eexists. vm_compute.
    reflexivity.
  - vm_compute. reflexivity.
  - split_and!; [exact Hthrown| |exact (Hafter 2 ltac:(lia))].
    apply (Hbefore 0 16%float); [lia|]. vm_compute. reflexivity.
Defined.

Lemma doEval_no_buffers_witness :
  let r := doEval Double.int_to_double Double.double_to_int sumOfServers
             noBuffers "RooFormulaVar" true [1; 2; 3] [0; 0]%float
             threeServers in
  heap r = threeServers ∧ thrown r = None ∧ output r = [16; 16]%float.
Proof.
  destruct (doEval_no_buffers Double.int_to_double Double.double_to_int
              sumOfServers noBuffers "RooFormulaVar" true [1; 2; 3]
              [0; 0]%float threeServers) as [Hheap Hout].
  - apply (bool_decide_unpack _). vm_compute. exact I.
  - intros p _. reflexivity.
  - split; [exact Hheap|exact Hout].
Defined.

End Batch.

(** ** Linear propagation of fit uncertainties *)

Module ErrorPropagation.

(** A [RooRealVar] as [getPropagatedError] uses it: in the fit result a
    snapshot with value and error, in the function a variable with value
    and range. *)
Record RooRealVar := {
  GetName : string;
  getVal : float;
  getError : float;
  getMin : float;
  getMax : float
}.

(** A [TMatrixDSym], by row and column. *)
Abbreviation Matrix := (nat → nat → float).

Record RooFitResult := {
  floatParsFinal : list RooRealVar;
  covarianceMatrix : Matrix
}.

(** The parameters of the function (the set filled by [getParameters]),
    by name. *)
Abbreviation Store := (gmap string RooRealVar).

(** [std::numeric_limits<double>::epsilon()]. *)
Definition epsilon : float := 0x1p-52%float.

Definition std_min (a b : float) : float := if (b <? a)%float then b else a.
Definition std_max (a b : float) : float := if (a <? b)%float then b else a.

Definition nullVar : RooRealVar :=
  {| GetName := ""; getVal := 0; getError := 0; getMin := 0; getMax := 0 |}.

Definition deref (st : Store) (name : string) : RooRealVar :=
  default nullVar (st !! name).

Definition withVal (v : RooRealVar) (x : float) : RooRealVar :=
  {| GetName := GetName v; getVal := x; getError := getError v;
     getMin := getMin v; getMax := getMax v |}.

(** Modelled from the spec: [RooRealVar::setVal], defined in
    RooRealVar.cxx; the leaf takes the value (its dependents are marked
    dirty, so the next [getVal] of the function is its value at the new
    point). *)
Definition setVal (st : Store) (name : string) (x : float) : Store :=
  alter (λ v, withVal v x) name st.

Definition setM (C : Matrix) (i j : nat) (x : float) : Matrix :=
  λ a b, if bool_decide (a = i ∧ b = j) then x else C a b.

(** What a call leaves behind: the value returned or the exception thrown,
    the parameters, the warnings, and two instrumentation records: the
    number of evaluations of the function and the parameter list handed to
    [reducedCovarianceMatrix], if that was called. *)
Record Result := {
  returned : Exception + float;
  store : Store;
  warnings : Log;
  getValCalls : nat;
  reducedFor : option (list string)
}.

(** The state of the loop over the parameters. *)
Record Variations := {
  vStore : Store;
  plusVar : list float;
  minusVar : list float;
  vWarnings : Log;
  vCalls : nat
}.

Section GetPropagatedError.

(** [GetName()] and [namePtr()] of the function: names are interned, so
    equal pointers are equal names. *)
Variable thisName : string.
(** [getVal(nset)] of the function as its parameters stand, for
    evaluations that return. *)
Variable functionValue : Store → float.
(** [RooAbsRealLValue::inRange(value, nullptr)]. *)
Variable inRange : RooRealVar → float → bool.
(** [RooFitResult::reducedCovarianceMatrix]. *)
Variable reducedCovarianceMatrix : RooFitResult → list string → Matrix.
Variable printDouble : float → string.

Definition brokenLogic : Exception :=
  runtime_error
    ("RooAbsReal::getPropagatedError(): the parameters of the RooAbsReal don't have"
     +:+ " the same values as in the fit result! The logic of getPropagatedError is broken in this case.").

(** How the first loop ends: by the early [return], or with the list of
    parameters to vary. *)
Inductive Selection :=
| ReturnError (err : float)
| ParamList (names : list string).

(** The loop over [fr.floatParsFinal()]. *)
Fixpoint selectParams (st : Store) (pars : list RooRealVar)
    (paramList : list string) : Exception + Selection :=
  match pars with
  | [] => inr (ParamList paramList)
  | rrvFitRes :: rest =>
      let rrvInAbsReal := st !! GetName rrvFitRes in
      if bool_decide (GetName rrvFitRes = thisName)
      then inr (ReturnError (getError rrvFitRes))
      else if (getError rrvFitRes
               <=? PrimFloat.abs (getVal rrvFitRes) * epsilon)%float
      then selectParams st rest paramList
      else
        match rrvInAbsReal with
        | None => selectParams st rest paramList
        | Some v =>
            if (0.01 * getError rrvFitRes
                <? PrimFloat.abs (getVal v - getVal rrvFitRes))%float
            then inl brokenLogic
            else selectParams st rest (paramList ++ [GetName rrvFitRes])
        end
  end.

Definition clipWarning (rrv : RooRealVar) (cenVal errVal : float) : Msg :=
  {| level := WARNING; topic := Plotting;
     text := "RooAbsReal::getPropagatedError(" +:+ thisName
             +:+ "): the 1-sigma variations for the parameter "
             +:+ dquote +:+ GetName rrv +:+ dquote +:+ " are invalid "
             +:+ " because their values (" +:+ printDouble (cenVal - errVal)
             +:+ ", " +:+ printDouble (cenVal + errVal)
             +:+ ") are outside the defined range ["
             +:+ printDouble (getMin rrv) +:+ ", "
             +:+ printDouble (getMax rrv) +:+ "]!" +:+ Caching.endl
             +:+ "                         The variations will be clipped inside the range."
             +:+ " This might or might not be acceptable in your usecase." |}.

(** The body of the loop over [ivar]. *)
Definition vary (V : Matrix) (acc : Variations) (ivar : nat) (name : string)
  : Variations :=
  let rrv := deref (vStore acc) name in
  let cenVal := getVal rrv in
  let errVal := PrimFloat.sqrt (V ivar ivar) in
  let w := if negb (inRange rrv (cenVal + errVal))
              || negb (inRange rrv (cenVal - errVal))
           then [clipWarning rrv cenVal errVal] else [] in
  let st1 := setVal (vStore acc) name (std_min (cenVal + errVal) (getMax rrv)) in
  let plus := functionValue st1 in
  let st2 := setVal st1 name
               (std_max (cenVal - errVal) (getMin (deref st1 name))) in
  let minus := functionValue st2 in
  let st3 := setVal st2 name cenVal in
  {| vStore := st3; plusVar := plusVar acc ++ [plus];
     minusVar := minusVar acc ++ [minus]; vWarnings := vWarnings acc ++ w;
     vCalls := S (S (vCalls acc)) |}.

Fixpoint varyAll (V : Matrix) (ivar : nat) (names : list string)
    (acc : Variations) : Variations :=
  match names with
  | [] => acc
  | name :: rest => varyAll V (S ivar) rest (vary V acc ivar name)
  end.

(** The loops that fill the correlation matrix [C]: row [i] from the
    diagonal on, each entry mirrored. *)
Definition correlationRow (V : Matrix) (n i : nat) (C : Matrix) : Matrix :=
  foldl (λ C j,
           let C1 := setM C i j
                       (V i j / PrimFloat.sqrt (V i i * V j j))%float in
           setM C1 j i (C1 i j))
        C (seq i (n - i)).

Definition correlationMatrix (V : Matrix) (n : nat) : Matrix :=
  foldl (λ C i, correlationRow V n i C) (λ _ _, 0%float) (seq 0 n).

(** [F[j] = (plusVar[j]-minusVar[j]) * 0.5]. *)
Definition variationVector (plus minus : list float) : list float :=
  (λ j, ((nth j plus 0 - nth j minus 0) * 0.5)%float) <$> seq 0 (length plus).

(** Modelled from the spec: the product [C*F] of [TMatrixDSym] and
    [TVectorD] and the scalar product [F*(C*F)], both summed from zero in
    index order. *)
Definition matVec (n : nat) (C : Matrix) (F : list float) : list float :=
  (λ i, foldl (λ t j, (t + C i j * nth j F 0)%float) 0%float (seq 0 n))
    <$> seq 0 n.

Definition dot (n : nat) (F G : list float) : float :=
  foldl (λ s i, (s + nth i F 0 * nth i G 0)%float) 0%float (seq 0 n).

Definition getPropagatedError (fr : RooFitResult) (st : Store) : Result :=
  match selectParams st (floatParsFinal fr) [] with
  | inl exn =>
      {| returned := inl exn; store := st; warnings := [];
         getValCalls := 0; reducedFor := None |}
  | inr (ReturnError err) =>
      {| returned := inr err; store := st; warnings := [];
         getValCalls := 0; reducedFor := None |}
  | inr (ParamList paramList) =>
      let full := bool_decide (length paramList = length (floatParsFinal fr)) in
      let V := if full then covarianceMatrix fr
               else reducedCovarianceMatrix fr paramList in
      let acc := varyAll V 0 paramList
                   {| vStore := st; plusVar := []; minusVar := [];
                      vWarnings := []; vCalls := 0 |} in
      let n := length paramList in
      let C := correlationMatrix V n in
      let F := variationVector (plusVar acc) (minusVar acc) in
      let sum := dot (length (plusVar acc)) F
                     (matVec n C F) in
      {| returned := inr (PrimFloat.sqrt sum); store := vStore acc;
         warnings := vWarnings acc; getValCalls := S (vCalls acc);
         reducedFor := if full then None else Some paramList |}
  end.

(** *** The formula of the specification *)

(** The value of the function with the parameter [name] moved to [x]. *)
Definition valueAt (st : Store) (name : string) (x : float) : float :=
  functionValue (setVal st name x).

Definition sigma (V : Matrix) (i : nat) : float := PrimFloat.sqrt (V i i).

Definition specPlus (st : Store) (V : Matrix) (names : list string) (i : nat)
  : float :=
  let rrv := deref st (nth i names "") in
  valueAt st (nth i names "") (std_min (getVal rrv + sigma V i) (getMax rrv)).

Definition specMinus (st : Store) (V : Matrix) (names : list string) (i : nat)
  : float :=
  let rrv := deref st (nth i names "") in
  valueAt st (nth i names "") (std_max (getVal rrv - sigma V i) (getMin rrv)).

(** [F_i = (plus_i - minus_i)/2], the halving done as the code does it. *)
Definition specF (st : Store) (V : Matrix) (names : list string) (i : nat)
  : float :=
  ((specPlus st V names i - specMinus st V names i) * 0.5)%float.

(** [C_ij = Cov_ij / sqrt(Cov_ii Cov_jj)]. *)
Definition specC (V : Matrix) (i j : nat) : float :=
  (V i j / PrimFloat.sqrt (V i i * V j j))%float.

(** [F^T C F] over the indices below [n]. *)
Definition quadraticForm (n : nat) (F : nat → float) (C : Matrix) : float :=
  foldl (λ s i,
           (s + F i * foldl (λ t j, (t + C i j * F j)%float) 0%float
                            (seq 0 n))%float)
        0%float (seq 0 n).

(** The preconditions: the function is not itself a floated parameter, and
    no floated parameter of non-negligible error that the function depends
    on has moved away from its fitted value. *)
Definition notFloated (fr : RooFitResult) : Prop :=
  ∀ p, p ∈ floatParsFinal fr → GetName p ≠ thisName.

Definition negligible (p : RooRealVar) : bool :=
  (getError p <=? PrimFloat.abs (getVal p) * epsilon)%float.

Definition moved (p v : RooRealVar) : bool :=
  (0.01 * getError p <? PrimFloat.abs (getVal v - getVal p))%float.

Definition consistent (fr : RooFitResult) (st : Store) : Prop :=
  ∀ p v, p ∈ floatParsFinal fr → negligible p = false →
         st !! GetName p = Some v → moved p v = false.

(** The parameters that are varied: the floated parameters of
    non-negligible error that the function depends on, in the order of the
    fit result. *)
Definition relevant (st : Store) (pars : list RooRealVar) : list string :=
  omap (λ p, if negligible p then None
             else (λ _, GetName p) <$> st !! GetName p) pars.

(** The two values a parameter contributes. *)
Definition plusOf (st : Store) (V : Matrix) (i : nat) (name : string) : float :=
  valueAt st name
    (std_min (getVal (deref st name) + sigma V i) (getMax (deref st name))).

Definition minusOf (st : Store) (V : Matrix) (i : nat) (name : string) : float :=
  valueAt st name
    (std_max (getVal (deref st name) - sigma V i) (getMin (deref st name))).

(** What the loops leave at row [a], column [b]: the quotient computed for
    the entry on or above the diagonal. *)
Definition mirrored (V : Matrix) (a b : nat) : float :=
  specC V (a `min` b) (a `max` b).

(** *** The function [f(x) = a*x] with [a = 2.0 ± 0.1] and [x = 3.0] *)

Definition parA : RooRealVar :=
  {| GetName := "a"; getVal := 2; getError := 0.1;
     getMin := -10; getMax := 10 |}.

Definition fitOfA : RooFitResult :=
  {| floatParsFinal := [parA]; covarianceMatrix := λ _ _, 0.01%float |}.

Definition storeOfA : Store := {[ "a" := parA ]}.

Definition aTimes3 (st : Store) : float := (getVal (deref st "a") * 3)%float.

Definition withinLimits (v : RooRealVar) (x : float) : bool :=
  (getMin v <=? x)%float && (x <=? getMax v)%float.

Definition sameMatrix (fr : RooFitResult) (names : list string) : Matrix :=
  covarianceMatrix fr.

Definition noDigits (x : float) : string := "".

(** *** A second floated parameter ["b"] *)

Definition parB : RooRealVar :=
  {| GetName := "b"; getVal := 1; getError := 0.5;
     getMin := -10; getMax := 10 |}.

(** ["b"] as it stands in the function: moved to 5 since the fit. *)
Definition storeOfMovedB : Store := {[ "b" := withVal parB 5 ]}.

Definition fitOfBA : RooFitResult :=
  {| floatParsFinal := [parB; parA]; covarianceMatrix := λ _ _, 0.01%float |}.

(** A matrix that is not symmetric. *)
Definition lopsided : Matrix :=
  λ i j, if bool_decide (i ≤ j) then 0.01%float else 0.5%float.

Definition fitOfAB : RooFitResult :=
  {| floatParsFinal := [parA; parB]; covarianceMatrix := λ _ _, 0.01%float |}.

(** *** The loop over the floated parameters *)

Lemma selectParams_relevant st : ∀ pars paramList,
  (∀ p, p ∈ pars → GetName p ≠ thisName) →
  (∀ p v, p ∈ pars → negligible p = false →
          st !! GetName p = Some v → moved p v = false) →
  selectParams st pars paramList
  = inr (ParamList (paramList ++ relevant st pars)).
Proof.
  induction pars as [|p pars IH]; intros paramList Hself Hcons; simpl.
  - by rewrite app_nil_r.
  - rewrite bool_decide_eq_false_2 by (apply Hself; left).
    assert (Hself' : ∀ q, q ∈ pars → GetName q ≠ thisName)
      by (intros q Hq; apply Hself; by right).
    assert (Hcons' : ∀ q v, q ∈ pars → negligible q = false →
                            st !! GetName q = Some v → moved q v = false)
      by (intros q v Hq; apply Hcons; by right).
    unfold negligible in *. unfold relevant. simpl. unfold negligible.
    destruct (getError p <=? PrimFloat.abs (getVal p) * epsilon)%float eqn:Hneg.
    + by apply IH.
    + destruct (st !! GetName p) as [v|] eqn:Hv; simpl.
      * assert (Hm : moved p v = false) by (apply Hcons; [left|done..]).
        unfold moved in Hm. rewrite Hm. rewrite IH by done.
        by rewrite <- app_assoc.
      * by apply IH.
Qed.

(** The first floated parameter that bears the name of the function ends
    the loop, provided the loop gets that far. *)
Lemma selectParams_self st : ∀ pre p post paramList,
  GetName p = thisName →
  (∀ q, q ∈ pre → GetName q ≠ thisName) →
  (∀ q v, q ∈ pre → negligible q = false →
          st !! GetName q = Some v → moved q v = false) →
  selectParams st (pre ++ p :: post) paramList = inr (ReturnError (getError p)).
Proof.
  induction pre as [|q pre IH]; intros p post paramList Hp Hself Hcons; simpl.
  - by rewrite bool_decide_eq_true_2.
  - rewrite bool_decide_eq_false_2 by (apply Hself; left).
    assert (Hself' : ∀ q', q' ∈ pre → GetName q' ≠ thisName)
      by (intros q' Hq; apply Hself; by right).
    assert (Hcons' : ∀ q' v, q' ∈ pre → negligible q' = false →
                             st !! GetName q' = Some v → moved q' v = false)
      by (intros q' v Hq; apply Hcons; by right).
    destruct (getError q <=? PrimFloat.abs (getVal q) * epsilon)%float eqn:Hneg;
      [by apply IH|].
    destruct (st !! GetName q) as [v|] eqn:Hv; [|by apply IH].
    assert (Hm : moved q v = false) by (apply Hcons; [left|done..]).
    unfold moved in Hm. rewrite Hm. by apply IH.
Qed.

(** *** The loop over the variations *)

Lemma withVal_withVal v x y : withVal (withVal v x) y = withVal v y.
Proof. done. Qed.

Lemma withVal_getVal v : withVal v (getVal v) = v.
Proof. by destruct v. Qed.

Lemma setVal_setVal st name x y :
  setVal (setVal st name x) name y = setVal st name y.
Proof.
  unfold setVal. apply map_eq. intros k.
  destruct (decide (name = k)) as [->|Hne].
  - rewrite !lookup_alter_eq. by destruct (st !! k).
  - by rewrite !lookup_alter_ne.
Qed.

Lemma setVal_back st name :
  setVal st name (getVal (deref st name)) = st.
Proof.
  unfold setVal, deref. apply map_eq. intros k.
  destruct (decide (name = k)) as [->|Hne].
  - rewrite lookup_alter_eq. destruct (st !! k) as [v|]; [|done]. simpl.
    by rewrite withVal_getVal.
  - by rewrite lookup_alter_ne.
Qed.

Lemma deref_setVal st name x :
  getMin (deref (setVal st name x) name) = getMin (deref st name)
  ∧ getMax (deref (setVal st name x) name) = getMax (deref st name).
Proof.
  unfold deref, setVal. rewrite lookup_alter_eq. by destruct (st !! name).
Qed.

Lemma vary_spec V acc ivar name :
  vStore (vary V acc ivar name) = vStore acc
  ∧ plusVar (vary V acc ivar name)
    = plusVar acc ++ [plusOf (vStore acc) V ivar name]
  ∧ minusVar (vary V acc ivar name)
    = minusVar acc ++ [minusOf (vStore acc) V ivar name]
  ∧ vCalls (vary V acc ivar name) = S (S (vCalls acc)).
Proof.
  unfold vary, plusOf, minusOf, valueAt, sigma. simpl.
  rewrite !setVal_setVal, setVal_back.
  by rewrite (proj1 (deref_setVal _ _ _)).
Qed.

Lemma varyAll_spec V : ∀ names ivar acc,
  vStore (varyAll V ivar names acc) = vStore acc
  ∧ plusVar (varyAll V ivar names acc)
    = plusVar acc ++ imap (λ k, plusOf (vStore acc) V (ivar + k)) names
  ∧ minusVar (varyAll V ivar names acc)
    = minusVar acc ++ imap (λ k, minusOf (vStore acc) V (ivar + k)) names
  ∧ vCalls (varyAll V ivar names acc) = vCalls acc + 2 * length names.
Proof.
  induction names as [|name names IH]; intros ivar acc; simpl.
  - rewrite !app_nil_r. split_and!; [done..|lia].
  - destruct (IH (S ivar) (vary V acc ivar name)) as (-> & -> & -> & ->).
    destruct (vary_spec V acc ivar name) as (-> & -> & -> & ->).
    rewrite <- !app_assoc. simpl. rewrite Nat.add_0_r.
    split_and!; [done| | |lia].
    + do 2 f_equal. apply imap_ext. intros k x _. simpl. f_equal. lia.
    + do 2 f_equal. apply imap_ext. intros k x _. simpl. f_equal. lia.
Qed.

(** *** The correlation matrix *)

Lemma correlationRow_fold V i : ∀ m C a b,
  foldl (λ C j,
           let C1 := setM C i j
                       (V i j / PrimFloat.sqrt (V i i * V j j))%float in
           setM C1 j i (C1 i j))
        C (seq i m) a b
  = if bool_decide ((a = i ∧ i ≤ b < i + m) ∨ (b = i ∧ i ≤ a < i + m))
    then mirrored V a b else C a b.
Proof.
  induction m as [|m IH]; intros C a b.
  - simpl. rewrite bool_decide_eq_false_2; [done|]. lia.
  - rewrite seq_S, foldl_app. simpl. unfold setM at 1 2.
    rewrite IH. unfold setM.
    rewrite (bool_decide_eq_true_2 (i = i ∧ i + m = i + m)) by done.
    unfold mirrored, specC.
    repeat case_bool_decide; try (exfalso; lia); try done;
      destruct_and?; subst;
      try (replace (((i + m) `min` i)) with i by lia;
           replace (((i + m) `max` i)) with (i + m) by lia; done);
      try (replace ((i `min` (i + m))) with i by lia;
           replace ((i `max` (i + m))) with (i + m) by lia; done).
Qed.

Lemma correlationRow_spec V n i C a b :
  correlationRow V n i C a b
  = if bool_decide ((a = i ∧ i ≤ b < i + (n - i))
                    ∨ (b = i ∧ i ≤ a < i + (n - i)))
    then mirrored V a b else C a b.
Proof. apply correlationRow_fold. Qed.

Lemma correlationMatrix_fold V n : ∀ k, k ≤ n → ∀ a b,
  foldl (λ C i, correlationRow V n i C) (λ _ _, 0%float) (seq 0 k) a b
  = if bool_decide (a < n ∧ b < n ∧ a `min` b < k)
    then mirrored V a b else 0%float.
Proof.
  induction k as [|k IH]; intros Hk a b.
  - simpl. rewrite bool_decide_eq_false_2; [done|]. lia.
  - rewrite seq_S, foldl_app. simpl. rewrite correlationRow_spec.
    rewrite IH by lia.
    repeat case_bool_decide; try (exfalso; lia); done.
Qed.

Lemma correlationMatrix_spec V n a b :
  a < n → b < n → correlationMatrix V n a b = mirrored V a b.
Proof.
  intros Ha Hb. unfold correlationMatrix.
  rewrite correlationMatrix_fold by done.
  rewrite bool_decide_eq_true_2; [done|]. lia.
Qed.

Lemma mirrored_symmetric V n a b :
  (∀ i j, i < n → j < n → V i j = V j i) →
  a < n → b < n → mirrored V a b = specC V a b.
Proof.
  intros Hsym Ha Hb. unfold mirrored.
  destruct (decide (a ≤ b)) as [Hle|Hgt].
  - by rewrite Nat.min_l, Nat.max_r by done.
  - rewrite Nat.min_r, Nat.max_l by lia. unfold specC.
    by rewrite (Hsym b a), (Double.mul_comm (V b b) (V a a)).
Qed.

(** *** From the vectors of the code to the formula *)

Lemma foldl_ext_in {A B} (f g : A → B → A) (l : list B) : ∀ a,
  (∀ a x, x ∈ l → f a x = g a x) → foldl f a l = foldl g a l.
Proof.
  induction l as [|x l IH]; intros a Hfg; [done|]. simpl.
  rewrite (Hfg a x) by left. apply IH. intros a' y Hy. apply Hfg. by right.
Qed.

Lemma nth_fmap_seq {A} (f : nat → A) n j d :
  j < n → nth j (f <$> seq 0 n) d = f j.
Proof.
  intros Hj. rewrite nth_lookup, list_lookup_fmap, lookup_seq_lt by done.
  done.
Qed.

Lemma nth_imap {A B} (f : nat → A → B) (l : list A) j d d' :
  j < length l → nth j (imap f l) d = f j (nth j l d').
Proof.
  intros Hj. rewrite !nth_lookup, list_lookup_imap.
  destruct (lookup_lt_is_Some_2 l j Hj) as [x ->]. done.
Qed.

Lemma quadraticForm_of_vectors n C (F : list float) Cs Fs :
  (∀ i, i < n → nth i F 0%float = Fs i) →
  (∀ i j, i < n → j < n → C i j = Cs i j) →
  dot n F (matVec n C F) = quadraticForm n Fs Cs.
Proof.
  intros HF HC. unfold dot, quadraticForm, matVec.
  apply foldl_ext_in. intros s i Hi%elem_of_seq.
  rewrite HF by lia. rewrite nth_fmap_seq by lia. do 2 f_equal.
  apply foldl_ext_in. intros t j Hj%elem_of_seq.
  rewrite HF, HC by lia. done.
Qed.

(** The linear formula, for a function that is not itself floated and whose
    parameters stand where the fit left them. *)
Lemma getPropagatedError_formula fr st :
  notFloated fr → consistent fr st →
  let names := relevant st (floatParsFinal fr) in
  let n := length names in
  let V := if bool_decide (n = length (floatParsFinal fr))
           then covarianceMatrix fr
           else reducedCovarianceMatrix fr names in
  (∀ i j, i < n → j < n → V i j = V j i) →
  returned (getPropagatedError fr st)
  = inr (PrimFloat.sqrt (quadraticForm n (specF st V names) (specC V)))
  ∧ store (getPropagatedError fr st) = st.
Proof.
  intros Hself Hcons names n V Hsym. unfold getPropagatedError.
  rewrite (selectParams_relevant st (floatParsFinal fr) [] Hself Hcons).
  simpl. fold names. fold n. fold V.
  destruct (varyAll_spec V names 0
              {| vStore := st; plusVar := []; minusVar := [];
                 vWarnings := []; vCalls := 0 |}) as (Hst & Hplus & Hminus & _).
  simpl in Hst, Hplus, Hminus. rewrite Hst, Hplus, Hminus.
  split; [|done]. do 2 f_equal.
  rewrite length_imap. fold n.
  apply quadraticForm_of_vectors.
  - intros i Hi. unfold variationVector. rewrite length_imap. fold n.
    rewrite nth_fmap_seq by done.
    rewrite !(nth_imap _ names i 0%float "") by done.
    done.
  - intros i j Hi Hj. rewrite correlationMatrix_spec by done.
    by apply (mirrored_symmetric V n).
Qed.

(** When the loop reaches a floated parameter that bears the name of the
    function, the fitted error of that parameter is returned at once:
    nothing is varied, no covariance matrix is asked for and the function
    is not evaluated. *)
Lemma getPropagatedError_self fr st pre p post :
  floatParsFinal fr = pre ++ p :: post →
  GetName p = thisName →
  (∀ q, q ∈ pre → GetName q ≠ thisName) →
  (∀ q v, q ∈ pre → negligible q = false →
          st !! GetName q = Some v → moved q v = false) →
  getPropagatedError fr st
  = {| returned := inr (getError p); store := st; warnings := [];
       getValCalls := 0; reducedFor := None |}.
Proof.
  intros Hfr Hp Hself Hcons. unfold getPropagatedError.
  by rewrite Hfr, (selectParams_self st pre p post [] Hp Hself Hcons).
Qed.

(** *** What a call leaves behind *)

Lemma varyAll_warnings V : ∀ names ivar acc,
  length (vWarnings (varyAll V ivar names acc))
  ≤ length (vWarnings acc) + length names.
Proof.
  induction names as [|name names IH]; intros ivar acc; simpl; [lia|].
  etrans; [apply IH|]. unfold vary. simpl. rewrite length_app.
  destruct (_ || _); simpl; lia.
Qed.

(** What a call leaves behind when the evaluations of the function return
    (the exceptions they may throw are the matter of [Throwing] below).
    The parameters are left at the values they had.  On the early return
    and when the loop over the floated parameters throws, the function is
    not evaluated, no warning is sent and no covariance matrix is reduced;
    otherwise the function is evaluated twice for each varied parameter
    and once more at the end, at most one warning is sent per varied
    parameter, and the covariance matrix is reduced exactly when some
    floated parameter is not varied. *)
Lemma getPropagatedError_side_effects fr st :
  let out := getPropagatedError fr st in
  store out = st
  ∧ match selectParams st (floatParsFinal fr) [] with
    | inr (ParamList names) =>
        getValCalls out = 2 * length names + 1
        ∧ length (warnings out) ≤ length names
        ∧ reducedFor out
          = (if bool_decide (length names = length (floatParsFinal fr))
             then None else Some names)
    | _ => getValCalls out = 0 ∧ warnings out = [] ∧ reducedFor out = None
    end.
Proof.
  unfold getPropagatedError.
  destruct (selectParams st (floatParsFinal fr) []) as [exn|[err|names]];
    simpl; [done..|].
  set (V := if bool_decide _ then _ else _).
  destruct (varyAll_spec V names 0
              {| vStore := st; plusVar := []; minusVar := [];
                 vWarnings := []; vCalls := 0 |}) as (Hst & _ & _ & Hcalls).
  pose proof (varyAll_warnings V names 0
              {| vStore := st; plusVar := []; minusVar := [];
                 vWarnings := []; vCalls := 0 |}) as Hw.
  simpl in *. rewrite Hst, Hcalls. split_and!; [done|lia|done|].
  by case_bool_decide.
Qed.

Lemma selectParams_moved st : ∀ pre p v post paramList,
  (∀ q, q ∈ pre → GetName q ≠ thisName) →
  (∀ q w, q ∈ pre → negligible q = false →
          st !! GetName q = Some w → moved q w = false) →
  GetName p ≠ thisName → negligible p = false →
  st !! GetName p = Some v → moved p v = true →
  selectParams st (pre ++ p :: post) paramList = inl brokenLogic.
Proof.
  induction pre as [|q pre IH];
    intros p v post paramList Hself Hcons Hp Hneg Hv Hmoved; simpl.
  - rewrite bool_decide_eq_false_2 by done.
    unfold negligible in Hneg. rewrite Hneg, Hv.
    unfold moved in Hmoved. by rewrite Hmoved.
  - rewrite bool_decide_eq_false_2 by (apply Hself; left).
    assert (Hself' : ∀ q', q' ∈ pre → GetName q' ≠ thisName)
      by (intros q' Hq; apply Hself; by right).
    assert (Hcons' : ∀ q' w, q' ∈ pre → negligible q' = false →
                             st !! GetName q' = Some w → moved q' w = false)
      by (intros q' w Hq; apply Hcons; by right).
    destruct (getError q <=? PrimFloat.abs (getVal q) * epsilon)%float eqn:Hnq;
      [by apply (IH p v)|].
    destruct (st !! GetName q) as [w|] eqn:Hw; [|by apply (IH p v)].
    assert (Hm : moved q w = false) by (apply Hcons; [left|done..]).
    unfold moved in Hm. rewrite Hm. by apply (IH p v).
Qed.

(** X18.  When the loop over the floated parameters reaches a parameter of
    non-negligible error that the function depends on and whose value
    differs from the fitted one by more than 1% of the error, and has
    found neither the function itself nor such a parameter before,
    [getPropagatedError] throws [std::runtime_error] at once: the
    function is not evaluated and no parameter is touched. *)
Theorem getPropagatedError_moved fr st pre p v post :
  floatParsFinal fr = pre ++ p :: post →
  (∀ q, q ∈ pre → GetName q ≠ thisName) →
  (∀ q w, q ∈ pre → negligible q = false →
          st !! GetName q = Some w → moved q w = false) →
  GetName p ≠ thisName → negligible p = false →
  st !! GetName p = Some v → moved p v = true →
  getPropagatedError fr st
  = {| returned := inl brokenLogic; store := st; warnings := [];
       getValCalls := 0; reducedFor := None |}.
Proof.
  intros Hfr Hself Hcons Hp Hneg Hv Hmoved. unfold getPropagatedError.
  by rewrite Hfr,
    (selectParams_moved st pre p v post [] Hself Hcons Hp Hneg Hv Hmoved).
Qed.

(** X19.  The correlation matrix that [getPropagatedError] fills is
    symmetric whatever the covariance matrix: an entry on or above the
    diagonal is the quotient [V_ij / sqrt(V_ii V_jj)], the entry below
    mirrors it, and the entries of [V] below the diagonal are never
    read. *)
Theorem correlationMatrix_symmetric V n a b :
  a < n → b < n →
  correlationMatrix V n a b = correlationMatrix V n b a
  ∧ (a ≤ b → correlationMatrix V n a b = specC V a b)
  ∧ ∀ V' : Matrix, (∀ i j, i ≤ j → V' i j = V i j) →
      correlationMatrix V' n a b = correlationMatrix V n a b.
Proof.
  intros Ha Hb. rewrite !correlationMatrix_spec by done. unfold mirrored.
  split_and!.
  - by rewrite Nat.min_comm, Nat.max_comm.
  - intros Hab. by rewrite Nat.min_l, Nat.max_r.
  - intros V' Hup. rewrite correlationMatrix_spec by done.
    unfold mirrored, specC. rewrite !Hup by lia. done.
Qed.

(** *** The function is itself a floated parameter *)

(** The members of [floatParsFinal] are told apart by their names. *)
Lemma floated_by_name (pars : list RooRealVar) p q :
  NoDup (GetName <$> pars) → p ∈ pars → q ∈ pars →
  GetName p = GetName q → p = q.
Proof.
  induction pars as [|a pars IH]; intros Hnd Hp Hq Hn.
  { by apply not_elem_of_nil in Hp. }
  rewrite fmap_cons in Hnd. apply NoDup_cons in Hnd as [Ha Hnd].
  apply elem_of_cons in Hp as [->|Hp]; apply elem_of_cons in Hq as [->|Hq];
    [done| | |by apply IH].
  - exfalso. apply Ha. rewrite Hn. apply list_elem_of_fmap. by exists q.
  - exfalso. apply Ha. rewrite <- Hn. apply list_elem_of_fmap. by exists p.
Qed.

(** The loop skips every floated parameter that is not among the
    parameters of the function, so it reaches the entry that bears the
    name of the function wherever that entry stands. *)
Lemma selectParams_leaf st : ∀ pars paramList,
  (∃ p, p ∈ pars ∧ GetName p = thisName) →
  (∀ q, q ∈ pars → GetName q ≠ thisName → st !! GetName q = None) →
  ∃ p, p ∈ pars ∧ GetName p = thisName
       ∧ selectParams st pars paramList = inr (ReturnError (getError p)).
Proof.
  induction pars as [|q pars IH]; intros paramList (p & Hp & Hn) Hleaf.
  { by apply not_elem_of_nil in Hp. }
  simpl. case_bool_decide as Hq.
  - exists q. split_and!; [left|done|done].
  - assert (Hin : p ∈ pars).
    { apply elem_of_cons in Hp as [->|Hp]; done. }
    destruct (IH paramList) as (p' & Hp' & Hn' & Hsel).
    + by exists p.
    + intros q' Hq'. apply Hleaf. by right.
    + exists p'. split_and!; [by right|done|].
      rewrite (Hleaf q) by (done || left).
      by destruct (_ <=? _)%float.
Qed.

(** C10.  If the function is itself one of the floated parameters of the
    fit result (a variable, so that no other floated parameter is among
    its own parameters), [getPropagatedError] returns the fitted error of
    that parameter, wherever the parameter stands in the list: no
    parameter is varied, no covariance matrix is reduced and the function
    is not evaluated. *)
Theorem getPropagatedError_parameter fr st p :
  NoDup (GetName <$> floatParsFinal fr) →
  p ∈ floatParsFinal fr → GetName p = thisName →
  (∀ q, q ∈ floatParsFinal fr → GetName q ≠ thisName →
        st !! GetName q = None) →
  getPropagatedError fr st
  = {| returned := inr (getError p); store := st; warnings := [];
       getValCalls := 0; reducedFor := None |}.
Proof.
  intros Hnd Hp Hn Hleaf.
  destruct (selectParams_leaf st (floatParsFinal fr) [])
    as (p' & Hp' & Hn' & Hsel); [by exists p|done|].
  assert (p' = p) as ->
    by (apply (floated_by_name (floatParsFinal fr)); [done..|congruence]).
  unfold getPropagatedError. by rewrite Hsel.
Qed.

End GetPropagatedError.

(** *** The formula and the two examples *)

(** C4.  For a function that is not itself a floated parameter, whose
    floated parameters of non-negligible error stand within 1% of their
    error of the fitted values, and a symmetric covariance matrix,
    [getPropagatedError] returns [sqrt(F^T C F)] with
    [F_i = (plus_i - minus_i)/2], [plus_i] and [minus_i] the values of the
    function with parameter [i] moved up and down by [sqrt(Cov_ii)] and
    clipped at the upper and the lower limit, and
    [C_ij = Cov_ij / sqrt(Cov_ii Cov_jj)]; the parameters are left where
    they were.  For [f(x) = a*x], [a = 2.0 ± 0.1] and [x = 3.0] the result
    is 0.3 to within 1e-9. *)
Theorem getPropagatedError_linear :
  (∀ thisName functionValue inRange reducedCovarianceMatrix printDouble fr st,
     notFloated thisName fr → consistent fr st →
     let names := relevant st (floatParsFinal fr) in
     let n := length names in
     let V := if bool_decide (n = length (floatParsFinal fr))
              then covarianceMatrix fr
              else reducedCovarianceMatrix fr names in
     (∀ i j, i < n → j < n → V i j = V j i) →
     returned (getPropagatedError thisName functionValue inRange
                 reducedCovarianceMatrix printDouble fr st)
     = inr (PrimFloat.sqrt
              (quadraticForm n (specF functionValue st V names) (specC V)))
     ∧ store (getPropagatedError thisName functionValue inRange
                reducedCovarianceMatrix printDouble fr st) = st)
  ∧ ∃ r, returned (getPropagatedError "f" aTimes3 withinLimits sameMatrix
                     noDigits fitOfA storeOfA) = inr r
         ∧ (PrimFloat.abs (r - 0.3) <=? 1e-9)%float = true.
Proof.
  split.
  - intros. by apply getPropagatedError_formula.
  - eexists. split; vm_compute; reflexivity.
Qed.

Lemma getPropagatedError_linear_witness :
  returned (getPropagatedError "f" aTimes3 withinLimits sameMatrix noDigits
              fitOfA storeOfA)
  = inr (PrimFloat.sqrt
           (quadraticForm 1
              (specF aTimes3 storeOfA (covarianceMatrix fitOfA) ["a"])
              (specC (covarianceMatrix fitOfA))))
  ∧ store (getPropagatedError "f" aTimes3 withinLimits sameMatrix noDigits
             fitOfA storeOfA) = storeOfA.
Proof.
  refine (proj1 getPropagatedError_linear "f" aTimes3 withinLimits sameMatrix
            noDigits fitOfA storeOfA _ _ _).
  - intros p ->%list_elem_of_singleton. vm_compute. discriminate.
  - intros p v ->%list_elem_of_singleton _ Hv.
    vm_compute in Hv. injection Hv as <-. vm_compute. reflexivity.
  - intros i j Hi Hj. reflexivity.
Defined.

Lemma getPropagatedError_parameter_witness :
  getPropagatedError "a" aTimes3 withinLimits sameMatrix noDigits fitOfBA
    storeOfA
  = {| returned := inr 0.1%float; store := storeOfA; warnings := [];
       getValCalls := 0; reducedFor := None |}
  ∧ getPropagatedError "a" aTimes3 withinLimits sameMatrix noDigits fitOfAB
      storeOfA
    = {| returned := inr 0.1%float; store := storeOfA; warnings := [];
         getValCalls := 0; reducedFor := None |}.
Proof.
  assert (Hnd : ∀ l : list string, bool_decide (NoDup l) = true → NoDup l)
    by (intros l; apply bool_decide_eq_true).
  split.
  - apply (getPropagatedError_parameter "a" aTimes3 withinLimits sameMatrix
             noDigits fitOfBA storeOfA parA).
    + exact (Hnd ["b"; "a"] eq_refl).
    + right. left.
    + reflexivity.
    + intros q [->|[->|Hq]%elem_of_cons]%elem_of_cons Hne;
        [reflexivity|done|by apply not_elem_of_nil in Hq].
  - apply (getPropagatedError_parameter "a" aTimes3 withinLimits sameMatrix
             noDigits fitOfAB storeOfA parA).
    + exact (Hnd ["a"; "b"] eq_refl).
    + left.
    + reflexivity.
    + intros q [->|[->|Hq]%elem_of_cons]%elem_of_cons Hne;
        [done|reflexivity|by apply not_elem_of_nil in Hq].
Defined.

Lemma getPropagatedError_moved_witness :
  getPropagatedError "f" aTimes3 withinLimits sameMatrix noDigits fitOfBA
    storeOfMovedB
  = {| returned := inl brokenLogic; store := storeOfMovedB; warnings := [];
       getValCalls := 0; reducedFor := None |}.
Proof.
  apply (getPropagatedError_moved "f" aTimes3 withinLimits sameMatrix
           noDigits fitOfBA storeOfMovedB [] parB (withVal parB 5) [parA]).
  - reflexivity.
  - intros q Hq. by apply not_elem_of_nil in Hq.
  - intros q w Hq. by apply not_elem_of_nil in Hq.
  - vm_compute. discriminate.
  - vm_compute. reflexivity.
  - vm_compute. reflexivity.
  - vm_compute. reflexivity.
Defined.

Lemma correlationMatrix_symmetric_witness :
  correlationMatrix lopsided 2 1 0 = correlationMatrix lopsided 2 0 1.
Proof.
  refine (proj1 (correlationMatrix_symmetric lopsided 2 1 0 _ _)); lia.
Defined.

(** *** Evaluations that throw *)

(** [getPropagatedError] once more, with the exceptions that
    [getVal(nset)] of the function may throw: nothing catches them, so
    they leave the loop over the variations where they occur. *)
Module Throwing.

(** The parameters with [name] at its upper and at its lower variation,
    clipped at the limits of the range. *)
Definition upperVariation (st : Store) (V : Matrix) (ivar : nat)
    (name : string) : Store :=
  setVal st name
    (std_min (getVal (deref st name) + PrimFloat.sqrt (V ivar ivar))
             (getMax (deref st name))).

Definition lowerVariation (st : Store) (V : Matrix) (ivar : nat)
    (name : string) : Store :=
  setVal st name
    (std_max (getVal (deref st name) - PrimFloat.sqrt (V ivar ivar))
             (getMin (deref st name))).

Section GetPropagatedError.

Variable thisName : string.
(** [getVal(nset)] of the function as its parameters stand: the value, or
    the exception that the evaluation throws. *)
Variable functionValue : Store → Exception + float.
Variable inRange : RooRealVar → float → bool.
Variable reducedCovarianceMatrix : RooFitResult → list string → Matrix.
Variable printDouble : float → string.

(** The body of the loop over [ivar].  On the left an exception thrown by
    one of the two evaluations, with the state of the loop at that
    point. *)
Definition vary (V : Matrix) (acc : Variations) (ivar : nat) (name : string)
  : Exception * Variations + Variations :=
  let rrv := deref (vStore acc) name in
  let cenVal := getVal rrv in
  let errVal := PrimFloat.sqrt (V ivar ivar) in
  let w := if negb (inRange rrv (cenVal + errVal))
              || negb (inRange rrv (cenVal - errVal))
           then [clipWarning thisName printDouble rrv cenVal errVal]
           else [] in
  let st1 := setVal (vStore acc) name (std_min (cenVal + errVal) (getMax rrv)) in
  match functionValue st1 with
  | inl exn =>
      inl (exn, {| vStore := st1; plusVar := plusVar acc;
                   minusVar := minusVar acc; vWarnings := vWarnings acc ++ w;
                   vCalls := S (vCalls acc) |})
  | inr plus =>
      let st2 := setVal st1 name
                   (std_max (cenVal - errVal) (getMin (deref st1 name))) in
      match functionValue st2 with
      | inl exn =>
          inl (exn, {| vStore := st2; plusVar := plusVar acc ++ [plus];
                       minusVar := minusVar acc;
                       vWarnings := vWarnings acc ++ w;
                       vCalls := S (S (vCalls acc)) |})
      | inr minus =>
          inr {| vStore := setVal st2 name cenVal;
                 plusVar := plusVar acc ++ [plus];
                 minusVar := minusVar acc ++ [minus];
                 vWarnings := vWarnings acc ++ w;
                 vCalls := S (S (vCalls acc)) |}
      end
  end.

Fixpoint varyAll (V : Matrix) (ivar : nat) (names : list string)
    (acc : Variations) : Exception * Variations + Variations :=
  match names with
  | [] => inr acc
  | name :: rest =>
      match vary V acc ivar name with
      | inl thrown => inl thrown
      | inr acc' => varyAll V (S ivar) rest acc'
      end
  end.

Definition getPropagatedError (fr : RooFitResult) (st : Store) : Result :=
  match selectParams thisName st (floatParsFinal fr) [] with
  | inl exn =>
      {| returned := inl exn; store := st; warnings := [];
         getValCalls := 0; reducedFor := None |}
  | inr (ReturnError err) =>
      {| returned := inr err; store := st; warnings := [];
         getValCalls := 0; reducedFor := None |}
  | inr (ParamList paramList) =>
      let full := bool_decide (length paramList = length (floatParsFinal fr)) in
      let V := if full then covarianceMatrix fr
               else reducedCovarianceMatrix fr paramList in
      let reduced := if full then None else Some paramList in
      match varyAll V 0 paramList
              {| vStore := st; plusVar := []; minusVar := [];
                 vWarnings := []; vCalls := 0 |} with
      | inl (exn, acc) =>
          {| returned := inl exn; store := vStore acc;
             warnings := vWarnings acc; getValCalls := vCalls acc;
             reducedFor := reduced |}
      | inr acc =>
          match functionValue (vStore acc) with
          | inl exn =>
              {| returned := inl exn; store := vStore acc;
                 warnings := vWarnings acc; getValCalls := S (vCalls acc);
                 reducedFor := reduced |}
          | inr _ =>
              let n := length paramList in
              let C := correlationMatrix V n in
              let F := variationVector (plusVar acc) (minusVar acc) in
              let sum := dot (length (plusVar acc)) F (matVec n C F) in
              {| returned := inr (PrimFloat.sqrt sum); store := vStore acc;
                 warnings := vWarnings acc; getValCalls := S (vCalls acc);
                 reducedFor := reduced |}
          end
      end
  end.

(** The matrix the variations are taken from. *)
Definition variationMatrix (fr : RooFitResult) (paramList : list string)
  : Matrix :=
  if bool_decide (length paramList = length (floatParsFinal fr))
  then covarianceMatrix fr else reducedCovarianceMatrix fr paramList.

Lemma lower_of_upper st V ivar name :
  setVal (upperVariation st V ivar name) name
    (std_max (getVal (deref st name) - PrimFloat.sqrt (V ivar ivar))
             (getMin (deref (upperVariation st V ivar name) name)))
  = lowerVariation st V ivar name.
Proof.
  unfold upperVariation, lowerVariation.
  by rewrite (proj1 (deref_setVal _ _ _)), setVal_setVal.
Qed.

Lemma back_of_lower st V ivar name :
  setVal (lowerVariation st V ivar name) name (getVal (deref st name)) = st.
Proof. unfold lowerVariation. by rewrite setVal_setVal, setVal_back. Qed.

(** A parameter whose two evaluations return is put back. *)
Lemma vary_returns V acc ivar name p m :
  functionValue (upperVariation (vStore acc) V ivar name) = inr p →
  functionValue (lowerVariation (vStore acc) V ivar name) = inr m →
  ∃ acc', vary V acc ivar name = inr acc'
          ∧ vStore acc' = vStore acc ∧ vCalls acc' = S (S (vCalls acc)).
Proof.
  intros Hp Hm. unfold vary. cbv zeta.
  fold (upperVariation (vStore acc) V ivar name). rewrite Hp.
  rewrite lower_of_upper, Hm. eexists. split; [done|]. simpl.
  by rewrite back_of_lower.
Qed.

Lemma vary_inr V acc ivar name acc' :
  vary V acc ivar name = inr acc' → vStore acc' = vStore acc.
Proof.
  unfold vary. cbv zeta.
  fold (upperVariation (vStore acc) V ivar name).
  destruct (functionValue (upperVariation _ _ _ _)) as [exn|p]; [done|].
  rewrite lower_of_upper.
  destruct (functionValue (lowerVariation _ _ _ _)) as [exn|m]; [done|].
  intros [= <-]. simpl. by rewrite back_of_lower.
Qed.

Lemma varyAll_inr V : ∀ names ivar acc acc',
  varyAll V ivar names acc = inr acc' → vStore acc' = vStore acc.
Proof.
  induction names as [|name names IH]; intros ivar acc acc'; simpl.
  - by intros [= <-].
  - destruct (vary V acc ivar name) as [thrown|acc1] eqn:Hv; [done|].
    intros Hall. rewrite (IH _ _ _ Hall). by apply (vary_inr V acc ivar name).
Qed.

(** The parameters whose evaluations return are passed with the
    parameters where they were. *)
Lemma varyAll_prefix V : ∀ pre ivar acc rest,
  (∀ k q, pre !! k = Some q →
     ∃ p m,
       functionValue (upperVariation (vStore acc) V (ivar + k) q) = inr p
       ∧ functionValue (lowerVariation (vStore acc) V (ivar + k) q) = inr m) →
  ∃ acc', varyAll V ivar (pre ++ rest) acc
          = varyAll V (ivar + length pre) rest acc'
          ∧ vStore acc' = vStore acc
          ∧ vCalls acc' = vCalls acc + 2 * length pre.
Proof.
  induction pre as [|q pre IH]; intros ivar acc rest Hret.
  - exists acc. simpl. rewrite Nat.add_0_r. split_and!; [done|done|lia].
  - destruct (Hret 0 q eq_refl) as (p & m & Hp & Hm).
    rewrite Nat.add_0_r in Hp, Hm.
    destruct (vary_returns V acc ivar q p m Hp Hm) as (acc1 & Hv & Hst & Hc).
    destruct (IH (S ivar) acc1 rest) as (acc' & Hall & Hst' & Hc').
    { intros k q' Hk. rewrite Hst.
      replace (S ivar + k) with (ivar + S k) by lia. by apply Hret. }
    exists acc'. simpl. rewrite Hv, Hall. split_and!.
    + f_equal. lia.
    + congruence.
    + lia.
Qed.

(** When every evaluation returns, the call is the one described
    above. *)
Lemma vary_returning value V acc ivar name :
  (∀ s, functionValue s = inr (value s)) →
  vary V acc ivar name
  = inr (ErrorPropagation.vary thisName value inRange printDouble V acc ivar
           name).
Proof. intros Hval. unfold vary, ErrorPropagation.vary. by rewrite !Hval. Qed.

Lemma varyAll_returning value V : ∀ names ivar acc,
  (∀ s, functionValue s = inr (value s)) →
  varyAll V ivar names acc
  = inr (ErrorPropagation.varyAll thisName value inRange printDouble V ivar
           names acc).
Proof.
  induction names as [|name names IH]; intros ivar acc Hval; simpl; [done|].
  rewrite (vary_returning value) by done. by apply IH.
Qed.

Lemma getPropagatedError_returning value fr st :
  (∀ s, functionValue s = inr (value s)) →
  getPropagatedError fr st
  = ErrorPropagation.getPropagatedError thisName value inRange
      reducedCovarianceMatrix printDouble fr st.
Proof.
  intros Hval. unfold getPropagatedError, ErrorPropagation.getPropagatedError.
  destruct (selectParams thisName st (floatParsFinal fr) [])
    as [exn|[err|names]]; [done..|]. cbv zeta.
  rewrite (varyAll_returning value) by done. by rewrite Hval.
Qed.

(** X17.  [getPropagatedError] puts a varied parameter back only after
    both evaluations of the function have returned.  Whenever the call
    returns a value, every parameter is left at the value it had.  When
    the evaluation at the upper variation of a parameter throws, the
    evaluations for the parameters before it having returned, the
    exception leaves the call and that parameter stays at its upper
    variation; when the evaluation at the lower variation throws, it
    stays at the lower variation.  The parameters varied before are back
    at their values either way. *)
Theorem getPropagatedError_displaced fr st :
  let out := getPropagatedError fr st in
  (∀ r, returned out = inr r → store out = st)
  ∧ ∀ pre name post exn,
      selectParams thisName st (floatParsFinal fr) []
      = inr (ParamList (pre ++ name :: post)) →
      let V := variationMatrix fr (pre ++ name :: post) in
      (∀ k q, pre !! k = Some q →
         ∃ p m, functionValue (upperVariation st V k q) = inr p
                ∧ functionValue (lowerVariation st V k q) = inr m) →
      (functionValue (upperVariation st V (length pre) name) = inl exn →
       returned out = inl exn
       ∧ store out = upperVariation st V (length pre) name
       ∧ getValCalls out = 2 * length pre + 1)
      ∧ (∀ p, functionValue (upperVariation st V (length pre) name) = inr p →
         functionValue (lowerVariation st V (length pre) name) = inl exn →
         returned out = inl exn
         ∧ store out = lowerVariation st V (length pre) name
         ∧ getValCalls out = 2 * length pre + 2).
Proof.
  intros out. subst out. split.
  - intros r. unfold getPropagatedError.
    destruct (selectParams thisName st (floatParsFinal fr) [])
      as [exn|[err|names]]; [done..|]. cbv zeta.
    destruct (varyAll _ 0 names _) as [[exn acc]|acc] eqn:Hall; [done|].
    apply varyAll_inr in Hall. simpl in Hall.
    by destruct (functionValue (vStore acc)).
  - intros pre name post exn Hsel V Hret.
    destruct (varyAll_prefix V pre 0
                {| vStore := st; plusVar := []; minusVar := [];
                   vWarnings := []; vCalls := 0 |} (name :: post) Hret)
      as (acc' & Hall & Hst & Hc).
    simpl in Hall, Hst, Hc.
    unfold getPropagatedError. rewrite Hsel. cbv zeta.
    fold (variationMatrix fr (pre ++ name :: post)). fold V.
    rewrite Hall. simpl. unfold vary. cbv zeta. rewrite Hst.
    fold (upperVariation st V (length pre) name).
    split.
    + intros Hup. rewrite Hup. simpl. split_and!; [done|done|lia].
    + intros p Hup Hlow. rewrite Hup, lower_of_upper, Hlow. simpl.
      split_and!; [done|done|lia].
Qed.

End GetPropagatedError.

(** The function [a*x] again, with an evaluation that throws as soon as
    ["a"] exceeds 2.05. *)
Definition aTimes3Guarded (st : Store) : Exception + float :=
  if (2.05 <? getVal (deref st "a"))%float
  then inl (other_exception "a out of bounds")
  else inr (getVal (deref st "a") * 3)%float.

Lemma getPropagatedError_displaced_witness :
  returned (getPropagatedError "f" aTimes3Guarded withinLimits sameMatrix
              noDigits fitOfA storeOfA)
  = inl (other_exception "a out of bounds")
  ∧ getVal (deref (store (getPropagatedError "f" aTimes3Guarded withinLimits
                            sameMatrix noDigits fitOfA storeOfA)) "a")
    = 2.1%float
  ∧ getVal (deref storeOfA "a") = 2%float.
Proof.
  destruct (proj2 (getPropagatedError_displaced "f" aTimes3Guarded
                     withinLimits sameMatrix noDigits fitOfA storeOfA)
              [] "a" [] (other_exception "a out of bounds"))
    as [Hupper _].
  - vm_compute. reflexivity.
  - intros k q Hk. done.
  - destruct Hupper as (Hret & Hstore & _); [vm_compute; reflexivity|].
    rewrite Hret, Hstore. split_and!; [done| |]; vm_compute; reflexivity.
Defined.

End Throwing.

End ErrorPropagation.

(** ** Matching arguments by name *)

Module Matching.

(** The loop of [matchArgsByName] over the names: whether every name was
    found, and the set [matched].  The first name that [allArgs] does not
    hold ends the loop. *)
Fixpoint matchLoop (allArgs : RooArgSet.t) (nameList : list string)
    (matched : RooArgSet.t) : bool * RooArgSet.t :=
  match nameList with
  | [] => (true, matched)
  | name :: rest =>
      if RooArgSet.contains allArgs name
      then matchLoop allArgs rest (RooArgSet.add matched name)
      else (false, matched)
  end.

(** [matchArgsByName]: the result, and [matchedArgs] as the call leaves
    it. *)
Definition matchArgsByName (allArgs matchedArgs : RooArgSet.t)
    (nameList : list string) : bool * RooArgSet.t :=
  let found := matchLoop allArgs nameList [] in
  let isMatched :=
    if found.1 && negb (bool_decide (length found.2 = length nameList))
    then false else found.1 in
  (isMatched,
   if isMatched then RooArgSet.addAll matchedArgs found.2 else matchedArgs).

(** [matchArgs]: the names of [refset] are handed to [matchArgsByName]. *)
Definition matchArgs (allDeps analDeps refset : RooArgSet.t)
  : bool * RooArgSet.t :=
  matchArgsByName allDeps analDeps refset.

Lemma matchLoop_found allArgs : ∀ nameList matched,
  (∀ n, n ∈ nameList → n ∈ allArgs) →
  matchLoop allArgs nameList matched
  = (true, RooArgSet.addAll matched nameList).
Proof.
  induction nameList as [|name rest IH]; intros matched Hall; [done|].
  simpl. unfold RooArgSet.contains at 1.
  rewrite bool_decide_eq_true_2 by (apply Hall; left).
  apply IH. intros n Hn. apply Hall. by right.
Qed.

Lemma matchLoop_missing allArgs : ∀ nameList matched,
  ¬ (∀ n, n ∈ nameList → n ∈ allArgs) →
  (matchLoop allArgs nameList matched).1 = false.
Proof.
  induction nameList as [|name rest IH]; intros matched Hmiss.
  - exfalso. apply Hmiss. intros n Hn. by apply not_elem_of_nil in Hn.
  - simpl. unfold RooArgSet.contains at 1. case_bool_decide as Hname; [|done].
    apply IH. intros Hrest. apply Hmiss.
    intros n [->|Hn]%elem_of_cons; [done|by apply Hrest].
Qed.

Lemma addAll_filter other : ∀ s,
  NoDup other →
  RooArgSet.addAll s other = s ++ filter (λ n, n ∉ s) other.
Proof.
  induction other as [|n other IH]; intros s Hnd.
  - simpl. by rewrite app_nil_r.
  - apply NoDup_cons in Hnd as [Hn Hnd].
    unfold RooArgSet.addAll in *. simpl.
    unfold RooArgSet.add at 2, RooArgSet.contains. case_bool_decide as Hs.
    + rewrite filter_cons_False by (intros Hns; by apply Hns).
      by apply IH.
    + rewrite filter_cons_True by done. rewrite IH by done.
      rewrite <- app_assoc. simpl. do 2 f_equal.
      apply RooArgSet.filter_ext_in. intros x Hx.
      rewrite elem_of_app, list_elem_of_singleton. split; [tauto|].
      intros Hxs [Hin| ->]; [by apply Hxs|done].
Qed.

(** The result of [matchArgsByName], and what a failed match leaves. *)
Lemma matchArgsByName_result allArgs matchedArgs nameList :
  let r := matchArgsByName allArgs matchedArgs nameList in
  (r.1 = true ↔ (∀ n, n ∈ nameList → n ∈ allArgs) ∧ NoDup nameList)
  ∧ (r.1 = false → r.2 = matchedArgs).
Proof.
  unfold matchArgsByName. cbv zeta.
  destruct (decide (Forall (λ n, n ∈ allArgs) nameList)) as [Hall|Hmiss];
    rewrite Forall_forall in *.
  - rewrite (matchLoop_found allArgs nameList [] Hall). simpl.
    pose proof (RooArgSet.length_addAll nameList []) as [_ Hlen].
    simpl in Hlen.
    case_bool_decide as Hsize; simpl.
    + apply Hlen in Hsize as [Hnd _]. done.
    + split; [|done].
      split; [done|]. intros [_ Hnd]. exfalso. apply Hsize, Hlen.
      split; [done|]. intros x _. apply not_elem_of_nil.
  - pose proof (matchLoop_missing allArgs nameList [] Hmiss) as Hfalse.
    destruct (matchLoop allArgs nameList []) as [found matched].
    simpl in Hfalse. subst found. simpl. split; [|done].
    split; [done|]. intros [Hall _]. done.
Qed.

(** A successful match adds the listed names. *)
Lemma matchArgsByName_matched allArgs matchedArgs nameList :
  (∀ n, n ∈ nameList → n ∈ allArgs) → NoDup nameList →
  matchArgsByName allArgs matchedArgs nameList
  = (true, RooArgSet.addAll matchedArgs nameList).
Proof.
  intros Hall Hnd. unfold matchArgsByName. cbv zeta.
  rewrite (matchLoop_found allArgs nameList [] Hall). simpl.
  pose proof (RooArgSet.length_addAll nameList []) as [_ Hlen].
  simpl in Hlen. rewrite bool_decide_eq_true_2.
  - simpl. by rewrite (RooArgSet.addAll_NoDup_app nameList []).
  - apply Hlen. split; [done|]. intros x _. apply not_elem_of_nil.
Qed.

(** X20.  [matchArgsByName] matches all or nothing: it returns true exactly
    when every listed name is the name of a member of [allArgs] and no
    name is listed twice; then [matchedArgs] gains the listed names, and
    otherwise [matchedArgs] is left as it was.  A name-unique
    [matchedArgs] stays name-unique. *)
Theorem matchArgsByName_all_or_nothing allArgs matchedArgs nameList :
  let r := matchArgsByName allArgs matchedArgs nameList in
  (r.1 = true ↔ (∀ n, n ∈ nameList → n ∈ allArgs) ∧ NoDup nameList)
  ∧ (r.1 = false → r.2 = matchedArgs)
  ∧ (r.1 = true → ∀ x, x ∈ r.2 ↔ x ∈ matchedArgs ∨ x ∈ nameList)
  ∧ (NoDup matchedArgs → NoDup r.2).
Proof.
  intros r.
  destruct (matchArgsByName_result allArgs matchedArgs nameList)
    as [Hiff Hfalse].
  fold r in Hiff, Hfalse. split_and!; [done|done| |].
  - intros [Hall Hnd]%Hiff x. subst r.
    rewrite matchArgsByName_matched by done. simpl.
    apply RooArgSet.elem_of_addAll.
  - intros Hnd. destruct r.1 eqn:Hr.
    + destruct (proj1 Hiff eq_refl) as [Hall Hnl]. subst r.
      rewrite matchArgsByName_matched by done. simpl.
      by apply RooArgSet.NoDup_addAll.
    + by rewrite Hfalse.
Qed.

(** X21.  For a name-unique [refset], [matchArgs] returns true exactly when
    [allDeps] holds every member of [refset]; [analDeps] then gains, at
    its end and in the order of [refset], the members it did not hold, and
    is left untouched when the result is false. *)
Theorem matchArgs_subset allDeps analDeps refset :
  NoDup refset →
  let r := matchArgs allDeps analDeps refset in
  (r.1 = true ↔ ∀ n, n ∈ refset → n ∈ allDeps)
  ∧ r.2 = if r.1 then analDeps ++ filter (λ n, n ∉ analDeps) refset
          else analDeps.
Proof.
  intros Hnd r.
  destruct (matchArgsByName_result allDeps analDeps refset)
    as [Hiff Hfalse].
  fold (matchArgs allDeps analDeps refset) in Hiff, Hfalse. fold r in Hiff, Hfalse.
  split; [rewrite Hiff; tauto|].
  destruct r.1 eqn:Hr; [|by apply Hfalse].
  destruct (proj1 Hiff eq_refl) as [Hall _].
  subst r. unfold matchArgs, matchArgsByName. cbv zeta.
  rewrite (matchLoop_found allDeps refset [] Hall). simpl.
  pose proof (RooArgSet.length_addAll refset []) as [_ Hlen]. simpl in Hlen.
  rewrite bool_decide_eq_true_2.
  - simpl. rewrite (RooArgSet.addAll_NoDup_app refset []) by done. simpl.
    by apply addAll_filter.
  - apply Hlen. split; [done|]. intros x _. apply not_elem_of_nil.
Qed.

Lemma matchArgs_subset_witness :
  matchArgs ["x"; "y"; "z"] ["y"] ["z"; "y"] = (true, ["y"; "z"])
  ∧ (matchArgs ["x"; "y"; "z"] ["y"] ["z"; "w"]).2 = ["y"].
Proof.
  assert (Hnd : ∀ l : list string, bool_decide (NoDup l) = true → NoDup l)
    by (intros l; apply bool_decide_eq_true).
  destruct (matchArgs_subset ["x"; "y"; "z"] ["y"] ["z"; "y"]
              (Hnd ["z"; "y"] eq_refl)) as [Hiff1 Hset1].
  destruct (matchArgs_subset ["x"; "y"; "z"] ["y"] ["z"; "w"]
              (Hnd ["z"; "w"] eq_refl)) as [Hiff2 Hset2].
  assert (Hyes : (matchArgs ["x"; "y"; "z"] ["y"] ["z"; "y"]).1 = true).
  { apply Hiff1. intros n Hn. set_solver. }
  assert (Hno : (matchArgs ["x"; "y"; "z"] ["y"] ["z"; "w"]).1 = false).
  { apply not_true_is_false. intros Htrue.
    pose proof (proj1 Hiff2 Htrue "w") as Hw. set_solver. }
  rewrite Hyes in Hset1. rewrite Hno in Hset2. split; [|exact Hset2].
  rewrite (surjective_pairing (matchArgs _ _ _)), Hyes, Hset1.
  vm_compute. reflexivity.
Defined.

End Matching.

(** ** The set of variables to project *)

Module Projection.

Section MakeProjectionSet.

(** [GetName()] of the function. *)
Variable thisName : string.
(** [dependsOnValue] of the function, by the name of the argument. *)
Variable dependsOnValue : string → bool.
Variable printArgSet : RooArgSet.t → string.

Definition entryMessage (plotVar : string) (allVars : option RooArgSet.t)
  : Msg :=
  {| level := DEBUG; topic := Plotting;
     text := "RooAbsReal::makeProjectionSet(" +:+ thisName
             +:+ ") plotVar = " +:+ plotVar +:+ " allVars = "
             +:+ printArgSet (default [] allVars) |}.

Definition serverRemoved (plotVar tmp : string) : Msg :=
  {| level := DEBUG; topic := Plotting;
     text := "RooAbsReal::makeProjectionSet(" +:+ thisName
             +:+ ") removing " +:+ tmp
             +:+ " from projection set because it a server of "
             +:+ plotVar |}.

Definition cannotProject (found : string) : Msg :=
  {| level := WARNING; topic := Plotting;
     text := "RooAbsReal::plotOn(" +:+ thisName
             +:+ ") WARNING: cannot project out frame variable ("
             +:+ found +:+ "), ignoring" |}.

Definition notDependent (arg : string) : Msg :=
  {| level := DEBUG; topic := Plotting;
     text := "RooAbsReal::plotOn(" +:+ thisName
             +:+ ") function doesn't depend on projection variable "
             +:+ arg +:+ ", ignoring" |}.

(** One turn of the loop over the servers of the plot variable. *)
Definition removeServer (plotVar : string) (acc : RooArgSet.t * Log)
    (ps : string) : RooArgSet.t * Log :=
  if RooArgSet.contains acc.1 ps
  then (RooArgSet.remove1 acc.1 ps, acc.2 ++ [serverRemoved plotVar ps])
  else acc.

(** One turn of the loop over [allVars]. *)
Definition dropNonDependent (acc : RooArgSet.t * Log) (arg : string)
  : RooArgSet.t * Log :=
  if negb (dependsOnValue arg)
  then (RooArgSet.remove1 acc.1 arg, acc.2 ++ [notDependent arg])
  else acc.

(** [makeProjectionSet]: the set [projectedVars] as the call leaves it, and
    the messages sent.  [plotVarLeaves] are the leaves of the expression
    tree of the plot variable. *)
Definition makeProjectionSet (plotVar : string) (plotVarLeaves : list string)
    (allVars : option RooArgSet.t) (silent : bool) : RooArgSet.t * Log :=
  let log0 := [entryMessage plotVar allVars] in
  match allVars with
  | None => ([], log0)
  | Some all =>
      let projectedVars := RooArgSet.addAll [] all in
      let afterPlotVar :=
        if RooArgSet.contains projectedVars plotVar then
          let p1 := RooArgSet.remove1 projectedVars plotVar in
          let plotServers := Integration.getObservables plotVarLeaves p1 in
          let acc := foldl (removeServer plotVar) (p1, log0) plotServers in
          (acc.1,
           if negb silent then acc.2 ++ [cannotProject plotVar] else acc.2)
        else (projectedVars, log0) in
      foldl dropNonDependent afterPlotVar all
  end.

(** A function of ["x"], ["y"] and ["m"]. *)
Definition dependsOnXYM (arg : string) : bool :=
  bool_decide (arg ∈ ["x"; "y"; "m"]).

Lemma elem_of_plotServers leaves dataList x :
  x ∈ Integration.getObservables leaves dataList ↔ x ∈ leaves ∧ x ∈ dataList.
Proof.
  unfold Integration.getObservables.
  rewrite RooArgSet.elem_of_addAll, list_elem_of_filter.
  pose proof (not_elem_of_nil x). tauto.
Qed.

Lemma removeServer_fold plotVar : ∀ servers acc,
  let out := foldl (removeServer plotVar) acc servers in
  (∀ x, x ∈ out.1 ↔ x ∈ acc.1 ∧ x ∉ servers)
  ∧ (NoDup acc.1 → NoDup out.1)
  ∧ ∃ extra, out.2 = acc.2 ++ extra ∧ Forall (λ m, level m = DEBUG) extra.
Proof.
  induction servers as [|ps servers IH]; intros acc; simpl.
  - split_and!; [|done|].
    + intros x. pose proof (not_elem_of_nil x). tauto.
    + exists []. by rewrite app_nil_r.
  - destruct (IH (removeServer plotVar acc ps))
      as (Hin & Hnd & extra & Hlog & Hdbg).
    destruct (decide (ps ∈ acc.1)) as [Hps|Hps].
    + assert (Hstep : removeServer plotVar acc ps
                      = (RooArgSet.remove1 acc.1 ps,
                         acc.2 ++ [serverRemoved plotVar ps])).
      { unfold removeServer, RooArgSet.contains.
        by rewrite bool_decide_eq_true_2. }
      rewrite Hstep in *. simpl in Hin, Hnd, Hlog. split_and!.
      * intros x. rewrite Hin.
        unfold RooArgSet.remove1. rewrite RooArgSet.elem_of_remove.
        rewrite !not_elem_of_cons. pose proof (not_elem_of_nil x). tauto.
      * intros Hacc. by apply Hnd, RooArgSet.NoDup_remove.
      * exists (serverRemoved plotVar ps :: extra).
        rewrite Hlog, <- app_assoc. split; [done|]. by constructor.
    + assert (Hstep : removeServer plotVar acc ps = acc).
      { unfold removeServer, RooArgSet.contains.
        by rewrite bool_decide_eq_false_2. }
      rewrite Hstep in *. split_and!; [|done|by exists extra].
      intros x. rewrite Hin, not_elem_of_cons. split; [|tauto].
      intros [Hx Hns]. split_and!; [done| |done]. by intros ->.
Qed.

Lemma dropNonDependent_fold : ∀ args acc,
  let out := foldl dropNonDependent acc args in
  (∀ x, x ∈ out.1
        ↔ x ∈ acc.1 ∧ ¬ (x ∈ args ∧ dependsOnValue x = false))
  ∧ (NoDup acc.1 → NoDup out.1)
  ∧ ∃ extra, out.2 = acc.2 ++ extra ∧ Forall (λ m, level m = DEBUG) extra.
Proof.
  induction args as [|arg args IH]; intros acc; simpl.
  - split_and!; [|done|].
    + intros x. pose proof (not_elem_of_nil x). tauto.
    + exists []. by rewrite app_nil_r.
  - destruct (IH (dropNonDependent acc arg))
      as (Hin & Hnd & extra & Hlog & Hdbg).
    destruct (dependsOnValue arg) eqn:Hdep.
    + assert (Hstep : dropNonDependent acc arg = acc)
        by (unfold dropNonDependent; by rewrite Hdep).
      rewrite Hstep in *. split_and!; [|done|by exists extra].
      intros x. rewrite Hin, elem_of_cons. split.
      * intros [Hx Hn]. split; [done|]. intros [[->|Hargs] Hf]; [congruence|].
        by apply Hn.
      * intros [Hx Hn]. split; [done|]. intros [Hargs Hf]. apply Hn.
        split; [by right|done].
    + assert (Hstep : dropNonDependent acc arg
                      = (RooArgSet.remove1 acc.1 arg,
                         acc.2 ++ [notDependent arg]))
        by (unfold dropNonDependent; by rewrite Hdep).
      rewrite Hstep in *. simpl in Hin, Hnd, Hlog. split_and!.
      * intros x. rewrite Hin.
        unfold RooArgSet.remove1. rewrite RooArgSet.elem_of_remove.
        rewrite list_elem_of_singleton, elem_of_cons. split.
        -- intros [[Hx Hne] Hn]. split; [done|].
           intros [[->|Hargs] Hf]; [done|]. by apply Hn.
        -- intros [Hx Hn]. split_and!; [done| |].
           ++ intros ->. apply Hn. split; [by left|done].
           ++ intros [Hargs Hf]. apply Hn. split; [by right|done].
      * intros Hacc. by apply Hnd, RooArgSet.NoDup_remove.
      * exists (notDependent arg :: extra).
        rewrite Hlog, <- app_assoc. split; [done|]. by constructor.
Qed.

(** X22.  [makeProjectionSet] keeps of [allVars] exactly the variables the
    function depends on; if the plot variable is among [allVars], it is
    taken out together with the variables that are leaves of its
    expression tree, and the warning is sent unless [silent] is set; if the
    plot variable is not among [allVars], its servers stay and no warning
    is sent.  The set left behind is name-unique. *)
Theorem makeProjectionSet_members plotVar plotVarLeaves all silent x :
  let r := makeProjectionSet plotVar plotVarLeaves (Some all) silent in
  (x ∈ r.1 ↔ x ∈ all ∧ dependsOnValue x = true
             ∧ (plotVar ∈ all → x ≠ plotVar ∧ x ∉ plotVarLeaves))
  ∧ NoDup r.1
  ∧ (cannotProject plotVar ∈ r.2 ↔ plotVar ∈ all ∧ silent = false).
Proof.
  unfold makeProjectionSet. cbv zeta.
  assert (Hall : ∀ y, y ∈ RooArgSet.addAll [] all ↔ y ∈ all).
  { intros y. rewrite RooArgSet.elem_of_addAll.
    pose proof (not_elem_of_nil y). tauto. }
  assert (Hnd0 : NoDup (RooArgSet.addAll [] all))
    by apply RooArgSet.NoDup_addAll, NoDup_nil_2.
  assert (Hdbg : ∀ extra, Forall (λ m, level m = DEBUG) extra →
                          cannotProject plotVar ∉ extra).
  { intros extra Hextra Hin. rewrite Forall_forall in Hextra.
    by apply Hextra in Hin. }
  assert (Hentry : cannotProject plotVar ≠ entryMessage plotVar (Some all))
    by done.
  unfold RooArgSet.contains. case_bool_decide as Hplot.
  - apply Hall in Hplot.
    set (p1 := RooArgSet.remove1 (RooArgSet.addAll [] all) plotVar).
    destruct (removeServer_fold plotVar
                (Integration.getObservables plotVarLeaves p1)
                (p1, [entryMessage plotVar (Some all)]))
      as (Hin1 & Hnd1 & extra1 & Hlog1 & Hdbg1).
    simpl in Hin1, Hnd1, Hlog1.
    match goal with
    | |- context [foldl dropNonDependent ?a all] =>
        destruct (dropNonDependent_fold all a)
          as (Hin2 & Hnd2 & extra2 & Hlog2 & Hdbg2)
    end.
    simpl in Hin2, Hnd2, Hlog2. split_and!.
    + rewrite Hin2, Hin1. unfold p1, RooArgSet.remove1.
      rewrite elem_of_plotServers.
      rewrite !RooArgSet.elem_of_remove, list_elem_of_singleton, Hall.
      destruct (dependsOnValue x); split; try tauto; try naive_solver.
    + apply Hnd2, Hnd1. by apply RooArgSet.NoDup_remove.
    + rewrite Hlog2, Hlog1. destruct silent; simpl.
      * rewrite elem_of_cons, elem_of_app. split; [|naive_solver].
        intros [Hin|[Hin|Hin]]; [done|by apply Hdbg in Hin..].
      * rewrite elem_of_cons, !elem_of_app, list_elem_of_singleton.
        split; [done|]. intros _. right. left. by right.
  - rewrite Hall in Hplot.
    destruct (dropNonDependent_fold all
                (RooArgSet.addAll [] all, [entryMessage plotVar (Some all)]))
      as (Hin2 & Hnd2 & extra2 & Hlog2 & Hdbg2).
    simpl in Hin2, Hnd2, Hlog2. split_and!.
    + rewrite Hin2, Hall.
      destruct (dependsOnValue x); split; try tauto; try naive_solver.
    + by apply Hnd2.
    + rewrite Hlog2. simpl. rewrite elem_of_cons.
      split; [|tauto]. intros [Hin|Hin]; [done|by apply Hdbg in Hin].
Qed.

End MakeProjectionSet.

End Projection.

(** ** The walk over the bins of a histogram *)

Module Histogram.

(** The bin indices [xbin], [ybin], [zbin] of [fillHistogram], of type
    [Int_t]. *)
Record Cursor := { xbin : Z; ybin : Z; zbin : Z }.

(** [case 3] of the [switch] in the loop over the bins; [%] is the
    remainder of the truncating division. *)
Definition stepZ (xbins ybins bin : Z) (c : Cursor) : Cursor :=
  if (Z.rem bin (Caching.toInt (xbins * ybins)) =? 0)%Z
  then {| xbin := xbin c; ybin := ybin c;
          zbin := Caching.toInt (zbin c + 1) |}
  else c.

(** [case 2]. *)
Definition stepY (xbins ybins bin : Z) (c : Cursor) : Cursor :=
  if (Z.rem bin xbins =? 0)%Z
  then {| xbin := xbin c;
          ybin := Caching.toInt (Z.rem (ybin c) ybins + 1);
          zbin := zbin c |}
  else c.

(** [case 1]. *)
Definition stepX (xbins : Z) (c : Cursor) : Cursor :=
  {| xbin := Caching.toInt (Z.rem (xbin c) xbins + 1);
     ybin := ybin c; zbin := zbin c |}.

(** The [switch(hdim)] at the head of the loop body: a case falls through
    to the cases below it; any other dimension only prints an error. *)
Definition advance (hdim xbins ybins bin : Z) (c : Cursor) : Cursor :=
  if (hdim =? 3)%Z
  then stepX xbins (stepY xbins ybins bin (stepZ xbins ybins bin c))
  else if (hdim =? 2)%Z then stepX xbins (stepY xbins ybins bin c)
  else if (hdim =? 1)%Z then stepX xbins c
  else c.

(** The indices with which bin number [n] is filled: [xbin], [ybin] and
    [zbin] start at zero and the loop body has run for the bins [0] to
    [n]. *)
Definition cursorAt (hdim xbins ybins : Z) (n : nat) : Cursor :=
  foldl (λ c bin, advance hdim xbins ybins (Z.of_nat bin) c)
        {| xbin := 0; ybin := 0; zbin := 0 |} (seq 0 (S n)).

(** The indices of bin number [n] when the first index runs fastest. *)
Definition rowMajor (hdim xbins ybins : Z) (n : nat) : Cursor :=
  {| xbin := (Z.of_nat n `mod` xbins + 1)%Z;
     ybin := if (2 <=? hdim)%Z
             then ((Z.of_nat n `div` xbins) `mod` ybins + 1)%Z else 0%Z;
     zbin := if (3 <=? hdim)%Z
             then (Z.of_nat n `div` (xbins * ybins) + 1)%Z else 0%Z |}.

Lemma cursorAt_S hdim xbins ybins n :
  cursorAt hdim xbins ybins (S n)
  = advance hdim xbins ybins (Z.of_nat (S n)) (cursorAt hdim xbins ybins n).
Proof. unfold cursorAt. by rewrite (seq_S (S n)), foldl_app. Qed.

Lemma div_succ (n x : Z) :
  (0 ≤ n)%Z → (0 < x)%Z →
  ((n + 1) `div` x
   = if ((n + 1) `mod` x =? 0)%Z then n `div` x + 1 else n `div` x)%Z.
Proof.
  intros Hn Hx.
  pose proof (Z.div_mod n x ltac:(lia)) as Hdm.
  pose proof (Z.mod_pos_bound n x Hx) as Hb.
  destruct (decide (n `mod` x = x - 1)%Z) as [Hlast|Hmid].
  - assert (Hq : ((n + 1) = (n `div` x + 1) * x + 0)%Z) by nia.
    assert (Hdiv : ((n + 1) `div` x = n `div` x + 1)%Z).
    { symmetry. apply (Z.div_unique _ _ _ 0); [lia|]. lia. }
    assert (Hmod : ((n + 1) `mod` x = 0)%Z).
    { symmetry. apply (Z.mod_unique _ _ (n `div` x + 1)); [lia|]. lia. }
    by rewrite Hmod, Hdiv.
  - assert (Hdiv : ((n + 1) `div` x = n `div` x)%Z).
    { symmetry. apply (Z.div_unique _ _ _ (n `mod` x + 1)); [lia|]. lia. }
    assert (Hmod : ((n + 1) `mod` x = n `mod` x + 1)%Z).
    { symmetry. apply (Z.mod_unique _ _ (n `div` x)); [lia|]. lia. }
    rewrite Hmod, Hdiv. destruct (Z.eqb_spec (n `mod` x + 1) 0); [lia|done].
Qed.

Lemma mod_succ (n x : Z) :
  (0 ≤ n)%Z → (0 < x)%Z →
  ((n `mod` x + 1) `mod` x = (n + 1) `mod` x)%Z.
Proof. intros Hn Hx. by rewrite Zplus_mod_idemp_l. Qed.

Lemma mod_mul_zero (n x y : Z) :
  (0 ≤ n)%Z → (0 < x)%Z → (0 < y)%Z →
  (n `mod` (x * y) = 0)%Z → (n `mod` x = 0)%Z.
Proof.
  intros Hn Hx Hy Hxy.
  pose proof (Z.div_mod n (x * y) ltac:(lia)) as Hdm. rewrite Hxy in Hdm.
  symmetry. apply (Z.mod_unique _ _ (y * (n `div` (x * y)))); [lia|]. lia.
Qed.

(** X23.  The loop of [fillHistogram] over the bins walks the histogram
    with the first index running fastest: for a histogram of one, two or
    three dimensions with positive numbers of bins, all within the range
    of [Int_t], bin number [n] is filled at [xbin = n mod xbins + 1],
    [ybin = (n / xbins) mod ybins + 1] and [zbin = n / (xbins ybins) + 1],
    the indices of the dimensions the histogram does not have staying
    zero. *)
Theorem fillHistogram_cursor hdim xbins ybins n :
  (1 ≤ hdim ≤ 3)%Z → (0 < xbins)%Z → (0 < ybins)%Z →
  (xbins * ybins < 2147483648)%Z → (Z.of_nat n + 1 < 2147483648)%Z →
  cursorAt hdim xbins ybins n = rowMajor hdim xbins ybins n.
Proof.
  intros Hdim Hx Hy Hxy Hn.
  assert (Hxb : (xbins < 2147483648)%Z) by nia.
  assert (Hyb : (ybins < 2147483648)%Z) by nia.
  assert (Hxy0 : (0 < xbins * ybins)%Z) by nia.
  revert Hn. induction n as [|n IH]; intros Hn.
  - unfold cursorAt, rowMajor, advance, stepX, stepY, stepZ. simpl.
    rewrite !Z.rem_0_l by (rewrite ?Caching.toInt_small; lia).
    rewrite !Zmod_0_l, !Zdiv_0_l. simpl.
    rewrite !Caching.toInt_small by lia.
    destruct (Z.eqb_spec hdim 3) as [->|H3]; [done|].
    destruct (Z.eqb_spec hdim 2) as [->|H2]; [done|].
    destruct (Z.eqb_spec hdim 1) as [->|H1]; [done|lia].
  - rewrite cursorAt_S, IH by lia.
    unfold rowMajor, advance, stepX, stepY, stepZ.
    rewrite (Caching.toInt_small (xbins * ybins)) by lia.
    rewrite !(Z.rem_mod_nonneg (Z.of_nat (S n))) by lia.
    replace (Z.of_nat (S n)) with (Z.of_nat n + 1)%Z by lia.
    pose proof (div_succ (Z.of_nat n) xbins ltac:(lia) Hx) as Hdx.
    pose proof (div_succ (Z.of_nat n) (xbins * ybins) ltac:(lia) ltac:(lia))
      as Hdxy.
    pose proof (Z.mod_pos_bound (Z.of_nat n) xbins Hx) as Hbx.
    pose proof (Z.mod_pos_bound (Z.of_nat n `div` xbins) ybins Hy) as Hby.
    pose proof (Z.mod_pos_bound (Z.of_nat n + 1) xbins Hx) as Hbx'.
    pose proof (Z.mod_pos_bound (Z.of_nat n `div` xbins + 1) ybins Hy)
      as Hby'.
    pose proof (Z.div_pos (Z.of_nat n) xbins ltac:(lia) Hx) as Hqx.
    pose proof (Z.div_pos (Z.of_nat n) (xbins * ybins) ltac:(lia) Hxy0)
      as Hqz.
    assert (Hqz' : (Z.of_nat n `div` (xbins * ybins) ≤ Z.of_nat n)%Z).
    { apply Z.div_le_upper_bound; [lia|]. nia. }
    assert (Hxnew : (Z.rem (Z.of_nat n `mod` xbins + 1) xbins
                     = (Z.of_nat n + 1) `mod` xbins)%Z).
    { rewrite Z.rem_mod_nonneg by lia. by apply mod_succ; lia. }
    assert (Hynew : (Z.rem ((Z.of_nat n `div` xbins) `mod` ybins + 1) ybins
                     = (Z.of_nat n `div` xbins + 1) `mod` ybins)%Z).
    { rewrite Z.rem_mod_nonneg by lia. by apply mod_succ; lia. }
    destruct (Z.eqb_spec hdim 3) as [->|H3];
      [|destruct (Z.eqb_spec hdim 2) as [->|H2];
        [|destruct (Z.eqb_spec hdim 1) as [->|H1]; [|lia]]]; simpl.
    + destruct (Z.eqb_spec ((Z.of_nat n + 1) `mod` (xbins * ybins)) 0)
        as [Hzxy|Hzxy]; simpl.
      * assert (Hzx : ((Z.of_nat n + 1) `mod` xbins = 0)%Z)
          by (apply (mod_mul_zero _ xbins ybins); [lia|done..]).
        rewrite Hzx in *. simpl in *. rewrite Hxnew, Hynew, Hdx, Hdxy.
        by rewrite !Caching.toInt_small by lia.
      * destruct (Z.eqb_spec ((Z.of_nat n + 1) `mod` xbins) 0) as [Hzx|Hzx];
          simpl; rewrite ?Hxnew, ?Hynew, Hdx, Hdxy;
          by rewrite !Caching.toInt_small by lia.
    + destruct (Z.eqb_spec ((Z.of_nat n + 1) `mod` xbins) 0) as [Hzx|Hzx];
        simpl; rewrite ?Hxnew, ?Hynew, Hdx;
        by rewrite !Caching.toInt_small by lia.
    + rewrite Hxnew. by rewrite !Caching.toInt_small by lia.
Qed.

Lemma fillHistogram_cursor_witness :
  cursorAt 3 4 3 17 = {| xbin := 2; ybin := 2; zbin := 2 |}.
Proof.
  rewrite (fillHistogram_cursor 3 4 3 17) by lia. reflexivity.
Defined.

End Histogram.

(** ** The selection of components to plot *)

Module Components.

Section PlotOnCompSelect.

(** [GetName()] of the function. *)
Variable thisName : string.
(** Whether [dynamic_cast<RooAbsReal*>] of the node succeeds. *)
Variable isReal : string → bool.
(** [a->dependsOn(b, nullptr, true)] for a node [b]. *)
Variable dependsOnValue : string → string → bool.
(** [a->dependsOn(set, nullptr, true)] for a collection [set]. *)
Variable dependsOnValueOfSet : string → RooArgSet.t → bool.
Variable printArgSet : RooArgSet.t → string.

(** The loop that discards the nodes which are not [RooAbsReal]s.  It runs
    by index over the set it removes from: [i] is incremented after every
    turn and compared with the size the set has at that moment. *)
Fixpoint discardLoop (fuel i : nat) (branchNodeSet : RooArgSet.t)
  : option RooArgSet.t :=
  match branchNodeSet !! i with
  | None => Some branchNodeSet
  | Some arg =>
      match fuel with
      | 0 => None
      | S fuel' =>
          if isReal arg then discardLoop fuel' (S i) branchNodeSet
          else discardLoop fuel' (S i) (RooArgSet.remove1 branchNodeSet arg)
      end
  end.

Definition discardNonReal (branchNodeSet : RooArgSet.t)
  : option RooArgSet.t :=
  discardLoop (length branchNodeSet) 0 branchNodeSet.

(** The nodes below the selected nodes that are value servers: one turn of
    the inner loop and the two nested loops. *)
Definition addServerOf (arg : string) (tmp : RooArgSet.t) (selNode : string)
  : RooArgSet.t :=
  if dependsOnValue selNode arg then RooArgSet.add tmp arg else tmp.

Definition serversOfSelected (branchNodeSet selNodes : RooArgSet.t)
  : RooArgSet.t :=
  foldl (λ tmp arg, foldl (addServerOf arg) tmp selNodes) [] branchNodeSet.

(** One turn of the loop that adds the nodes which depend on selected
    nodes. *)
Definition addClientOf (selNodes : RooArgSet.t) (tmp : RooArgSet.t)
    (arg : string) : RooArgSet.t :=
  if dependsOnValueOfSet arg selNodes then RooArgSet.add tmp arg else tmp.

(** The set [tmp] as it is added to [selNodes]. *)
Definition indirectlySelected (branchNodeSet selNodes : RooArgSet.t)
  : RooArgSet.t :=
  let tmp := serversOfSelected branchNodeSet selNodes in
  let tmp := foldl (addClientOf selNodes) tmp branchNodeSet in
  RooArgSet.remove1 (RooArgSet.remove tmp selNodes) thisName.

Definition indirectMessage (tmp : RooArgSet.t) : Msg :=
  {| level := INFO; topic := Plotting;
     text := "RooAbsPdf::plotOn(" +:+ thisName
             +:+ ") indirectly selected PDF components: "
             +:+ printArgSet tmp |}.

(** What a call of [plotOnCompSelect] leaves behind. *)
Record Selection := {
  (** The set [selNodes] of the caller, when it was given. *)
  selNodesOut : option RooArgSet.t;
  (** The calls of [selectComp], in order: the node and the bit.  The node
      is cast to [RooAbsReal] without a check. *)
  selectComp : list (string * bool);
  messages : Log
}.

(** [plotOnCompSelect]; [branchNodes] is what [branchNodeServerList]
    collects. *)
Definition plotOnCompSelect (branchNodes : RooArgSet.t)
    (selNodes : option RooArgSet.t) : option Selection :=
  match discardNonReal branchNodes with
  | None => None
  | Some branchNodeSet =>
      match selNodes with
      | None =>
          Some {| selNodesOut := None;
                  selectComp := (λ arg, (arg, true)) <$> branchNodeSet;
                  messages := [] |}
      | Some sel =>
          let tmp := indirectlySelected branchNodeSet sel in
          let sel' := RooArgSet.addAll sel tmp in
          Some {| selNodesOut := Some sel';
                  selectComp :=
                    (λ arg, (arg, RooArgSet.contains sel' arg))
                      <$> branchNodeSet;
                  messages := [indirectMessage tmp] |}
      end
  end.

(** What the discarding loop does to the part of the set from [i] on: the
    node behind a discarded one moves into its place and is stepped
    over. *)
Fixpoint stepOver (l : list string) : list string :=
  match l with
  | [] => []
  | a :: l' =>
      if isReal a then a :: stepOver l'
      else match l' with
           | [] => []
           | b :: l'' => b :: stepOver l''
           end
  end.

(** Two neighbours in the set neither of which is a [RooAbsReal]. *)
Definition neighboursNonReal (l : list string) : Prop :=
  ∃ i a b, l !! i = Some a ∧ l !! S i = Some b
           ∧ isReal a = false ∧ isReal b = false.

Lemma remove1_middle (pre post : list string) a :
  NoDup (pre ++ a :: post) →
  RooArgSet.remove1 (pre ++ a :: post) a = pre ++ post.
Proof.
  intros Hnd. unfold RooArgSet.remove1, RooArgSet.remove.
  apply NoDup_app in Hnd as (_ & Hpre & Hpost).
  apply NoDup_cons in Hpost as [Hpost _].
  rewrite filter_app, filter_cons_False
    by (intros Hn; apply Hn; left).
  rewrite (RooArgSet.filter_all _ pre), (RooArgSet.filter_all _ post);
    [done| |].
  - intros x Hx Hin. apply list_elem_of_singleton in Hin. by subst.
  - intros x Hx Hin. apply list_elem_of_singleton in Hin. subst.
    apply (Hpre a Hx). left.
Qed.

Lemma discardLoop_stepOver : ∀ fuel pre rest,
  NoDup (pre ++ rest) → length rest ≤ fuel →
  discardLoop fuel (length pre) (pre ++ rest) = Some (pre ++ stepOver rest).
Proof.
  induction fuel as [|fuel IH]; intros pre rest Hnd Hlen.
  - destruct rest; [|simpl in Hlen; lia]. simpl.
    rewrite lookup_ge_None_2 by (rewrite length_app; simpl; lia). done.
  - destruct rest as [|a rest].
    { simpl. rewrite lookup_ge_None_2 by (rewrite length_app; simpl; lia).
      done. }
    simpl. rewrite list_lookup_middle by done.
    destruct (isReal a) eqn:Ha.
    + replace (pre ++ a :: rest) with ((pre ++ [a]) ++ rest)
        by (by rewrite <- app_assoc).
      replace (S (length pre)) with (length (pre ++ [a]))
        by (rewrite length_app; simpl; lia).
      rewrite IH; [by rewrite <- app_assoc| |simpl in Hlen; lia].
      by rewrite <- app_assoc.
    + rewrite remove1_middle by done.
      assert (Hnd' : NoDup (pre ++ rest)).
      { apply NoDup_app in Hnd as (Hp & Hd & Hr).
        apply NoDup_cons in Hr as [_ Hr]. apply NoDup_app. split_and!; [done| |done].
        intros x Hx Hxr. apply (Hd x Hx). by right. }
      destruct rest as [|b rest].
      { destruct fuel; simpl;
          rewrite lookup_ge_None_2 by (rewrite length_app; simpl; lia);
          done. }
      replace (pre ++ b :: rest) with ((pre ++ [b]) ++ rest)
        by (by rewrite <- app_assoc).
      replace (S (length pre)) with (length (pre ++ [b]))
        by (rewrite length_app; simpl; lia).
      rewrite IH; [by rewrite <- app_assoc| |simpl in Hlen; lia].
      by rewrite <- app_assoc.
Qed.

Lemma discardNonReal_stepOver l :
  NoDup l → discardNonReal l = Some (stepOver l).
Proof.
  intros Hnd. apply (discardLoop_stepOver (length l) [] l); [done|lia].
Qed.

Lemma stepOver_real : ∀ n l, length l ≤ n →
  filter (λ a, isReal a = true) (stepOver l) = filter (λ a, isReal a = true) l.
Proof.
  induction n as [|n IH]; intros l Hlen.
  { destruct l; [done|simpl in Hlen; lia]. }
  destruct l as [|a l]; [done|]. simpl in *.
  destruct (isReal a) eqn:Ha.
  - rewrite !filter_cons_True by done. f_equal. apply IH. lia.
  - rewrite (filter_cons_False _ a) by (cbv beta; rewrite Ha; done).
    destruct l as [|b l]; [done|]. simpl in Hlen.
    destruct (isReal b) eqn:Hb.
    + rewrite !filter_cons_True by done. f_equal. apply IH. lia.
    + rewrite !filter_cons_False by (cbv beta; rewrite Hb; done).
      apply IH. lia.
Qed.

Lemma neighboursNonReal_cons a l :
  neighboursNonReal l → neighboursNonReal (a :: l).
Proof. intros (i & x & y & ?). by exists (S i), x, y. Qed.

Lemma stepOver_exact : ∀ n l, length l ≤ n →
  stepOver l = filter (λ a, isReal a = true) l ↔ ¬ neighboursNonReal l.
Proof.
  induction n as [|n IH]; intros l Hlen.
  { destruct l; [|simpl in Hlen; lia]. split; [|done].
    intros _ (i & a & b & Hi & _). done. }
  destruct l as [|a l].
  { split; [|done]. intros _ (i & x & y & Hi & _). done. }
  simpl in Hlen. simpl. destruct (isReal a) eqn:Ha.
  - rewrite filter_cons_True by done.
    assert (Hnb : neighboursNonReal (a :: l) ↔ neighboursNonReal l).
    { split; [|apply neighboursNonReal_cons].
      intros ([|i] & x & y & Hx & Hy & Hrx & Hry).
      - simpl in Hx. congruence.
      - by exists i, x, y. }
    rewrite Hnb, <- (IH l) by lia. split; [by intros [= ->]|by intros ->].
  - rewrite filter_cons_False by (cbv beta; rewrite Ha; done).
    destruct l as [|b l].
    { split; [|done]. intros _ ([|i] & x & y & Hx & Hy & _); done. }
    simpl in Hlen. destruct (isReal b) eqn:Hb.
    + rewrite filter_cons_True by done.
      assert (Hnb : neighboursNonReal (a :: b :: l) ↔ neighboursNonReal l).
      { split; [|by intros ?; do 2 apply neighboursNonReal_cons].
        intros ([|[|i]] & x & y & Hx & Hy & Hrx & Hry).
        - simpl in Hy. congruence.
        - simpl in Hx. congruence.
        - by exists i, x, y. }
      rewrite Hnb, <- (IH l) by lia. split; [by intros [= ->]|by intros ->].
    + rewrite filter_cons_False by (cbv beta; rewrite Hb; done).
      split.
      * intros Heq. exfalso.
        assert (Hin : b ∈ filter (λ a0, isReal a0 = true) l)
          by (rewrite <- Heq; left).
        apply list_elem_of_filter in Hin as [Hrb _]. congruence.
      * intros Hno. exfalso. apply Hno. by exists 0, a, b.
Qed.

(** X24.  The loop of [plotOnCompSelect] that discards the nodes which are
    not [RooAbsReal]s steps over the node behind each one it removes: it
    leaves exactly the [RooAbsReal]s in the set if and only if no two
    neighbours in the set are both not [RooAbsReal]s. *)
Theorem plotOnCompSelect_discards branchNodes :
  NoDup branchNodes →
  discardNonReal branchNodes
    = Some (filter (λ a, isReal a = true) branchNodes)
  ↔ ¬ neighboursNonReal branchNodes.
Proof.
  intros Hnd. rewrite discardNonReal_stepOver by done.
  rewrite <- (stepOver_exact (length branchNodes)) by lia.
  split; [by intros [= ->]|by intros ->].
Qed.

Lemma stepOver_prefix : ∀ pre rest,
  Forall (λ a, isReal a = true) pre →
  stepOver (pre ++ rest) = pre ++ stepOver rest.
Proof.
  induction pre as [|p pre IH]; intros rest Hall; [done|].
  apply Forall_cons in Hall as [Hp Hall]. simpl. rewrite Hp.
  by rewrite IH.
Qed.

(** X25.  With no selection given, [plotOnCompSelect] switches on every
    node that is left after the discarding loop, casting it to
    [RooAbsReal]: every [RooAbsReal] among the branch nodes, and also the
    second of the first two neighbours that are both not [RooAbsReal]s. *)
Theorem plotOnCompSelect_reset pre a b post :
  NoDup (pre ++ a :: b :: post) →
  Forall (λ n, isReal n = true) pre → isReal a = false → isReal b = false →
  ∃ out, plotOnCompSelect (pre ++ a :: b :: post) None = Some out
    ∧ selNodesOut out = None
    ∧ (b, true) ∈ selectComp out
    ∧ ∀ n, n ∈ pre ++ a :: b :: post → isReal n = true →
           (n, true) ∈ selectComp out.
Proof.
  intros Hnd Hpre Ha Hb. unfold plotOnCompSelect.
  rewrite discardNonReal_stepOver by done. eexists. split; [done|].
  simpl. split; [done|]. split.
  - apply list_elem_of_fmap. exists b. split; [done|].
    rewrite stepOver_prefix by done. simpl. rewrite Ha.
    apply elem_of_app. right. left.
  - intros n Hn Hr. apply list_elem_of_fmap. exists n. split; [done|].
    assert (Hin : n ∈ filter (λ a0, isReal a0 = true)
                         (stepOver (pre ++ a :: b :: post))).
    { rewrite (stepOver_real (length (pre ++ a :: b :: post))) by lia.
      by apply list_elem_of_filter. }
    by apply list_elem_of_filter in Hin as [_ Hin].
Qed.

Lemma addServerOf_fold arg : ∀ sel tmp x,
  x ∈ foldl (addServerOf arg) tmp sel
  ↔ x ∈ tmp ∨ (x = arg ∧ ∃ s, s ∈ sel ∧ dependsOnValue s arg = true).
Proof.
  induction sel as [|s sel IH]; intros tmp x; simpl.
  - split; [by left|]. intros [?|(_ & s & Hs & _)]; [done|].
    by apply not_elem_of_nil in Hs.
  - rewrite IH. unfold addServerOf.
    destruct (dependsOnValue s arg) eqn:Hd.
    + rewrite RooArgSet.elem_of_add. split.
      * intros [[?| ->]|(-> & s' & Hs' & Hd')]; [by left|right..].
        -- split; [done|]. exists s. split; [left|done].
        -- split; [done|]. exists s'. split; [by right|done].
      * intros [?|(-> & s' & [->|Hs']%elem_of_cons & Hd')];
          [left; by left|left; by right|].
        right. split; [done|]. by exists s'.
    + split.
      * intros [?|(-> & s' & Hs' & Hd')]; [by left|right].
        split; [done|]. exists s'. split; [by right|done].
      * intros [?|(-> & s' & [->|Hs']%elem_of_cons & Hd')];
          [by left|congruence|].
        right. split; [done|]. by exists s'.
Qed.

Lemma elem_of_serversOfSelected sel : ∀ set tmp x,
  x ∈ foldl (λ tmp arg, foldl (addServerOf arg) tmp sel) tmp set
  ↔ x ∈ tmp ∨ (x ∈ set ∧ ∃ s, s ∈ sel ∧ dependsOnValue s x = true).
Proof.
  induction set as [|arg set IH]; intros tmp x; simpl.
  - split; [by left|]. intros [?|[Hx _]]; [done|].
    by apply not_elem_of_nil in Hx.
  - rewrite IH, addServerOf_fold. split.
    + intros [[?|[-> Hs]]|[Hx Hs]]; [by left|right..].
      * split; [left|done].
      * split; [by right|done].
    + intros [?|[[->|Hx]%elem_of_cons Hs]];
        [left; by left|left; by right|by right].
Qed.

Lemma addClientOf_fold sel : ∀ set tmp x,
  x ∈ foldl (addClientOf sel) tmp set
  ↔ x ∈ tmp ∨ (x ∈ set ∧ dependsOnValueOfSet x sel = true).
Proof.
  induction set as [|arg set IH]; intros tmp x; simpl.
  - split; [by left|]. intros [?|[Hx _]]; [done|].
    by apply not_elem_of_nil in Hx.
  - rewrite IH. unfold addClientOf.
    destruct (dependsOnValueOfSet arg sel) eqn:Hd.
    + rewrite RooArgSet.elem_of_add. split.
      * intros [[?| ->]|[Hx Hs]]; [by left|right..].
        -- split; [left|done].
        -- split; [by right|done].
      * intros [?|[[->|Hx]%elem_of_cons Hs]];
          [left; by left|left; by right|by right].
    + split.
      * intros [?|[Hx Hs]]; [by left|right]. split; [by right|done].
      * intros [?|[[->|Hx]%elem_of_cons Hs]]; [by left|congruence|by right].
Qed.

Lemma elem_of_indirectlySelected branchNodeSet sel x :
  x ∈ indirectlySelected branchNodeSet sel
  ↔ x ∈ branchNodeSet ∧ (x ∉ sel) ∧ x ≠ thisName
    ∧ ((∃ s, s ∈ sel ∧ dependsOnValue s x = true)
       ∨ dependsOnValueOfSet x sel = true).
Proof.
  unfold indirectlySelected, RooArgSet.remove1, serversOfSelected.
  rewrite !RooArgSet.elem_of_remove, addClientOf_fold,
    elem_of_serversOfSelected, not_elem_of_cons.
  pose proof (not_elem_of_nil x). tauto.
Qed.

(** X26.  With a selection given, [plotOnCompSelect] never takes a node out
    of [selNodes] and adds to it the branch nodes, other than the function
    itself, that a selected node depends on by value or that depend by
    value on the selection; a branch node is then switched on exactly when
    it is in the enlarged [selNodes], and off otherwise. *)
Theorem plotOnCompSelect_selects branchNodes branchNodeSet sel :
  discardNonReal branchNodes = Some branchNodeSet →
  ∃ out sel', plotOnCompSelect branchNodes (Some sel) = Some out
    ∧ selNodesOut out = Some sel'
    ∧ (∀ x, x ∈ sel' ↔
         x ∈ sel
         ∨ (x ∈ branchNodeSet ∧ x ≠ thisName
            ∧ ((∃ s, s ∈ sel ∧ dependsOnValue s x = true)
               ∨ dependsOnValueOfSet x sel = true)))
    ∧ (∀ x bit, (x, bit) ∈ selectComp out ↔
         x ∈ branchNodeSet ∧ bit = bool_decide (x ∈ sel')).
Proof.
  intros Hset. unfold plotOnCompSelect. rewrite Hset.
  eexists _, _. split; [done|]. simpl. split; [done|]. split.
  - intros x. rewrite RooArgSet.elem_of_addAll, elem_of_indirectlySelected.
    destruct (decide (x ∈ sel)); tauto.
  - intros x bit. rewrite list_elem_of_fmap. unfold RooArgSet.contains. split.
    + by intros (y & [= -> ->] & Hy).
    + intros [Hx ->]. by exists x.
Qed.

End PlotOnCompSelect.

(** Three branch nodes of which the first two are categories. *)
Definition onlyPdfIsReal (n : string) : bool := bool_decide (n = "pdf").

Definition pdfDependsOn (a b : string) : bool :=
  bool_decide (a = "model" ∧ b ∈ ["sig"; "bkg"]).

Definition dependsOnAny (a : string) (set : RooArgSet.t) : bool :=
  bool_decide (Exists (λ b, pdfDependsOn a b = true) set).

Lemma plotOnCompSelect_discards_witness :
  discardNonReal onlyPdfIsReal ["catA"; "pdf"; "catB"] = Some ["pdf"].
Proof.
  assert (Hnd : ∀ l : list string, bool_decide (NoDup l) = true → NoDup l)
    by (intros l; apply bool_decide_eq_true).
  apply (plotOnCompSelect_discards onlyPdfIsReal ["catA"; "pdf"; "catB"]
           (Hnd ["catA"; "pdf"; "catB"] eq_refl)).
  intros ([|[|[|i]]] & a & b & Ha & Hb & Hra & Hrb); simpl in Ha, Hb;
    try discriminate.
  - injection Hb as <-. discriminate Hrb.
  - injection Ha as <-. discriminate Hra.
Defined.

Lemma plotOnCompSelect_reset_witness :
  ∃ out, plotOnCompSelect "model" onlyPdfIsReal pdfDependsOn dependsOnAny
           (λ _, "") (["pdf"] ++ "catA" :: "catB" :: []) None = Some out
    ∧ ("catB", true) ∈ selectComp out.
Proof.
  assert (Hnd : ∀ l : list string, bool_decide (NoDup l) = true → NoDup l)
    by (intros l; apply bool_decide_eq_true).
  destruct (plotOnCompSelect_reset "model" onlyPdfIsReal pdfDependsOn
              dependsOnAny (λ _, "") ["pdf"] "catA" "catB" []
              (Hnd (["pdf"] ++ "catA" :: "catB" :: []) eq_refl))
    as (out & Hout & _ & Hb & _).
  - repeat constructor.
  - reflexivity.
  - reflexivity.
  - by exists out.
Defined.

Lemma plotOnCompSelect_selects_witness :
  ∃ out sel', plotOnCompSelect "model" (λ _, true) pdfDependsOn dependsOnAny
                (λ _, "") ["model"; "sig"; "bkg"] (Some ["sig"]) = Some out
    ∧ selNodesOut out = Some sel'.
Proof.
  destruct (plotOnCompSelect_selects "model" (λ _, true) pdfDependsOn
              dependsOnAny (λ _, "") ["model"; "sig"; "bkg"]
              ["model"; "sig"; "bkg"] ["sig"] eq_refl)
    as (out & sel' & Hout & Hsel & _).
  by exists out, sel'.
Defined.

End Components.
